(** * The observable context manager of PlatypusTS, embedded in Rocq

    Source: [src/framework/framework/observable/contextmanager/contextmanager.ts]
    (module [plat.observable], class [ContextManager]).

    The JavaScript fragment the manager runs on is modelled as follows.
    - Values are [undefined], [null], booleans, numbers (integers and NaN),
      strings and references to heap objects.
    - A heap object is a map from property keys to property descriptors (data
      or accessor, with the [enumerable] and [configurable] attributes), a flag
      telling arrays from plain objects, the array length, and the
      instrumentation the manager installed on it.  Inherited members of
      [Object.prototype], [Array.prototype] and [String.prototype] other than
      the seven mutating array methods are not part of the model.
    - The only accessors are the ones [__defineObject] and [__definePrimitive]
      install; their closures are kept in the property as data.
    - Application listeners are opaque: calling one records the call and
      either returns or throws.  They do not call back into the manager.
    - A computation is a function from the state to a result and the state it
      leaves behind, also when it throws. *)

From stdpp Require Import base option list strings gmap.
From Stdlib Require Import ZArith Lia DecimalString.

Local Open Scope Z_scope.
Local Open Scope nat_scope.

(** ** Strings *)

Definition dot : Ascii.ascii := Ascii.Ascii false true true true false true false false.

(** [s.split('.')] *)
Fixpoint split (s : string) : list string :=
  match s with
  | EmptyString => [EmptyString]
  | String c s' =>
      if Ascii.eqb c dot then EmptyString :: split s'
      else match split s' with
           | x :: r => String c x :: r
           | [] => [String c EmptyString]
           end
  end.

(** [l.join('.')] *)
Fixpoint join (l : list string) : string :=
  match l with
  | [] => EmptyString
  | [x] => x
  | x :: r => x +:+ String dot (join r)
  end.

(** [s.slice(start)] for a non-negative [start] *)
Fixpoint slice (start : nat) (s : string) : string :=
  match start, s with
  | O, _ => s
  | S n, EmptyString => EmptyString
  | S n, String _ s' => slice n s'
  end.

(** [s.indexOf(needle)]; [None] stands for [-1]. *)
Definition indexOf (s needle : string) : option nat := String.index 0 needle s.

(** [split.pop()] on a list known to be non-empty: the last element and the
    list without it. *)
Definition pop {A} (l : list A) : option (A * list A) :=
  match reverse l with
  | [] => None
  | x :: r => Some (x, reverse r)
  end.

(** ToString of an array index. *)
Definition string_of_nat (n : nat) : string := NilZero.string_of_uint (Nat.to_uint n).

Fixpoint digits_value (acc : nat) (s : string) : option nat :=
  match s with
  | EmptyString => Some acc
  | String c s' =>
      match Ascii.is_nat c with
      | Some d => digits_value (10 * acc + d) s'
      | None => None
      end
  end.

(** A property key that is an array index (a canonical decimal numeral). *)
Definition index_of_key (k : string) : option nat :=
  match k with
  | EmptyString => None
  | _ => match digits_value 0 k with
         | Some n => if String.eqb (string_of_nat n) k then Some n else None
         | None => None
         end
  end.

(** ** Values *)

Inductive value : Type :=
  | VUndef
  | VNull
  | VBool (b : bool)
  | VNum (z : Z)
  | VNaN
  | VStr (s : string)
  | VRef (l : nat).

#[global] Instance value_eq_dec : EqDecision value.
Proof. solve_decision. Defined.

(** The [===] operator. *)
Definition strict_eq (a b : value) : bool :=
  match a, b with
  | VUndef, VUndef => true
  | VNull, VNull => true
  | VBool x, VBool y => Bool.eqb x y
  | VNum x, VNum y => Z.eqb x y
  | VStr x, VStr y => String.eqb x y
  | VRef x, VRef y => Nat.eqb x y
  | _, _ => false
  end.

(** Modelled from the spec: the helpers [isNull], [isUndefined], [isObject],
    [isArray], [isEmpty] and [noop] live in the framework's utilities, which
    are not among the sources; their behaviour is the one the utility tests
    ([src/unnamed/part_005]) pin down: [isNull] holds of [null] and
    [undefined], [isUndefined] of [undefined] only, [isObject] of object
    references (arrays included), [isEmpty] of [null], [undefined], the empty
    string, the empty array and the object with no key. *)
Definition isNull (v : value) : bool :=
  match v with VUndef | VNull => true | _ => false end.

Definition isUndefined (v : value) : bool :=
  match v with VUndef => true | _ => false end.

Definition isEmptyString (s : string) : bool :=
  match s with EmptyString => true | _ => false end.

(** [isEmpty] of a slot that holds an array or nothing. *)
Definition isEmptyArray {A} (o : option (list A)) : bool :=
  match o with None | Some [] => true | _ => false end.

(** [isNull] of a slot that holds a non-null reference or nothing. *)
Definition isNullSlot {A} (o : option A) : bool :=
  match o with None => true | Some _ => false end.

(** ** Heap objects *)

Inductive accessorKind := AObject | APrimitive.

(** The closure pair [get]/[set] created by [__defineObject] (kind
    [AObject]) or [__definePrimitive] (kind [APrimitive]): the manager
    ([this]), the captured [identifier], [immediateContext] and [key], the
    captured mutable [value], and [isDefined] (primitive kind only). *)
Record accessor := Acc {
  a_kind : accessorKind;
  a_manager : nat;
  a_identifier : string;
  a_context : value;
  a_key : string;
  a_value : value;
  a_isDefined : bool
}.

Inductive slot :=
  | Data (v : value) (writable : bool)
  | Accessor (a : accessor).

Record prop := Prop_ {
  p_slot : slot;
  p_enumerable : bool;
  p_configurable : bool
}.

(** [o_instrumented = Some (m, id)]: the seven mutating methods of the object
    are the wrappers [_overwriteArrayFunction id method] of manager [m]. *)
Record obj := Obj {
  o_isArray : bool;
  o_props : gmap string prop;
  o_length : nat;
  o_instrumented : option (nat * string)
}.

(** ** Listeners *)

(** A listener function: an application callback (identified by [id]; it
    throws when [throws] is set), or the closure [observe] creates when it
    observes the [length] of an array, which re-attaches array observation
    under [join] for [uid]. *)
Inductive listenerFn :=
  | LApp (id : nat) (throws : bool)
  | LArrayLength (m : nat) (uid : string) (join : string).

Record IListener := Listener {
  l_uid : string;
  l_listener : listenerFn
}.

Inductive arrayCallback :=
  | CNoop
  | CApp (id : nat) (throws : bool).

Record IArrayMethodInfo := ArrayMethodInfo {
  ev_method : string;
  ev_returnValue : value;
  ev_oldArray : value;
  ev_newArray : value;
  ev_arguments : list value
}.

(** What the application observes of a run. *)
Inductive entry :=
  | Notified (id : nat) (newValue oldValue : value)
  | ArrayNotified (id : nat) (ev : IArrayMethodInfo)
  | Warned (identifier : string).

(** ** The manager and the static registries *)

Record Manager := Mgr {
  context : value;
  identifiers : gmap string (list IListener);      (* __identifiers *)
  identifierHash : gmap string (list string);      (* __identifierHash *)
  contextObjects : gmap string value;              (* __contextObjects *)
  isArrayFunction : bool;                          (* __isArrayFunction *)
  observedIdentifier : option string               (* __observedIdentifier *)
}.

(** A JavaScript object used as an ordered dictionary. *)
Definition dict (A : Type) := list (string * A).

Fixpoint dget {A} (d : dict A) (k : string) : option A :=
  match d with
  | [] => None
  | (k', a) :: r => if String.eqb k' k then Some a else dget r k
  end.

Fixpoint dset {A} (d : dict A) (k : string) (a : A) : dict A :=
  match d with
  | [] => [(k, a)]
  | (k', a') :: r => if String.eqb k' k then (k', a) :: r else (k', a') :: dset r k a
  end.

Fixpoint ddel {A} (d : dict A) (k : string) : dict A :=
  match d with
  | [] => []
  | (k', a') :: r => if String.eqb k' k then r else (k', a') :: ddel r k
  end.

Definition dkeys {A} (d : dict A) : list string := map fst d.

Record State := St {
  heap : list obj;
  managers : list Manager;                          (* the instances created so far *)
  s_managers : gmap string nat;                     (* ContextManager.__managers *)
  s_controls : gmap string (dict (list nat));       (* ContextManager.__controls *)
  observedArrayListeners : dict (dict arrayCallback);
  compat_proto : bool;                              (* $compat.proto *)
  compat_setProto : bool;                           (* $compat.setProto *)
  sortOrder : list value -> list value;             (* what Array.prototype.sort makes of the elements *)
  log : list entry
}.

(** ** Computations *)

Inductive exn :=
  | TypeError
  | ListenerError (id : nat).

(** [Beyond]: the run left the modelled fragment. *)
Inductive result (A : Type) :=
  | Ok (a : A)
  | Throw (e : exn)
  | Beyond.
Arguments Ok {A} a.
Arguments Throw {A} e.
Arguments Beyond {A}.

Definition M (A : Type) := State -> result A * State.

Definition ret {A} (a : A) : M A := fun st => (Ok a, st).
Definition throw {A} (e : exn) : M A := fun st => (Throw e, st).
Definition beyond {A} : M A := fun st => (Beyond, st).

Definition bind {A B} (c : M A) (f : A -> M B) : M B :=
  fun st =>
    match c st with
    | (Ok a, st') => f a st'
    | (Throw e, st') => (Throw e, st')
    | (Beyond, st') => (Beyond, st')
    end.

Notation "x <- c ;; k" := (bind c (fun x => k))
  (at level 100, c at next level, right associativity).
Notation "c ;;; k" := (bind c (fun _ => k))
  (at level 100, right associativity).

Definition get_state : M State := fun st => (Ok st, st).
Definition modify (f : State -> State) : M unit := fun st => (Ok tt, f st).

(** ** State access *)

Definition set_heap (h : list obj) (st : State) : State :=
  St h (managers st) (s_managers st) (s_controls st) (observedArrayListeners st)
     (compat_proto st) (compat_setProto st) (sortOrder st) (log st).

Definition set_managers (ms : list Manager) (st : State) : State :=
  St (heap st) ms (s_managers st) (s_controls st) (observedArrayListeners st)
     (compat_proto st) (compat_setProto st) (sortOrder st) (log st).

Definition set_s_managers (x : gmap string nat) (st : State) : State :=
  St (heap st) (managers st) x (s_controls st) (observedArrayListeners st)
     (compat_proto st) (compat_setProto st) (sortOrder st) (log st).

Definition set_s_controls (x : gmap string (dict (list nat))) (st : State) : State :=
  St (heap st) (managers st) (s_managers st) x (observedArrayListeners st)
     (compat_proto st) (compat_setProto st) (sortOrder st) (log st).

Definition set_observedArrayListeners (x : dict (dict arrayCallback)) (st : State) : State :=
  St (heap st) (managers st) (s_managers st) (s_controls st) x
     (compat_proto st) (compat_setProto st) (sortOrder st) (log st).

Definition set_log (x : list entry) (st : State) : State :=
  St (heap st) (managers st) (s_managers st) (s_controls st) (observedArrayListeners st)
     (compat_proto st) (compat_setProto st) (sortOrder st) x.

Definition emit (e : entry) : M unit := modify (fun st => set_log (log st ++ [e]) st).

Definition the_obj (l : nat) : M obj :=
  fun st => match heap st !! l with
            | Some o => (Ok o, st)
            | None => (Beyond, st)
            end.

Definition upd_obj (l : nat) (f : obj -> obj) : M unit :=
  fun st => match heap st !! l with
            | Some o => (Ok tt, set_heap (<[l := f o]> (heap st)) st)
            | None => (Beyond, st)
            end.

Definition alloc (o : obj) : M value :=
  fun st => (Ok (VRef (length (heap st))), set_heap (heap st ++ [o]) st).

Definition the_manager (m : nat) : M Manager :=
  fun st => match managers st !! m with
            | Some mg => (Ok mg, st)
            | None => (Beyond, st)
            end.

Definition upd_manager (m : nat) (f : Manager -> Manager) : M unit :=
  fun st => match managers st !! m with
            | Some mg => (Ok tt, set_managers (<[m := f mg]> (managers st)) st)
            | None => (Beyond, st)
            end.

Definition set_context (v : value) (mg : Manager) : Manager :=
  Mgr v (identifiers mg) (identifierHash mg) (contextObjects mg)
      (isArrayFunction mg) (observedIdentifier mg).

Definition set_identifiers (x : gmap string (list IListener)) (mg : Manager) : Manager :=
  Mgr (context mg) x (identifierHash mg) (contextObjects mg)
      (isArrayFunction mg) (observedIdentifier mg).

Definition set_identifierHash (x : gmap string (list string)) (mg : Manager) : Manager :=
  Mgr (context mg) (identifiers mg) x (contextObjects mg)
      (isArrayFunction mg) (observedIdentifier mg).

Definition set_contextObjects (x : gmap string value) (mg : Manager) : Manager :=
  Mgr (context mg) (identifiers mg) (identifierHash mg) x
      (isArrayFunction mg) (observedIdentifier mg).

Definition set_isArrayFunction (b : bool) (mg : Manager) : Manager :=
  Mgr (context mg) (identifiers mg) (identifierHash mg) (contextObjects mg)
      b (observedIdentifier mg).

Definition set_observedIdentifier (x : option string) (mg : Manager) : Manager :=
  Mgr (context mg) (identifiers mg) (identifierHash mg) (contextObjects mg)
      (isArrayFunction mg) x.

(** A slot of [__contextObjects] as [isNull] sees it. *)
Definition cached (mg : Manager) (k : string) : value :=
  default VUndef (contextObjects mg !! k).

(** [typeof v === 'object' && v !== null] *)
Definition isObject (v : value) : bool :=
  match v with VRef _ => true | _ => false end.

Definition isArray (v : value) : M bool :=
  fun st =>
    (Ok match v with
        | VRef l => match heap st !! l with
                    | Some o => o_isArray o
                    | None => false
                    end
        | _ => false
        end, st).

(** ** Property access *)

Definition set_props (ps : gmap string prop) (o : obj) : obj :=
  Obj (o_isArray o) ps (o_length o) (o_instrumented o).

Definition set_length (n : nat) (o : obj) : obj :=
  Obj (o_isArray o) (o_props o) n (o_instrumented o).

Definition set_instrumented (x : option (nat * string)) (o : obj) : obj :=
  Obj (o_isArray o) (o_props o) (o_length o) x.

(** The array length after a property of key [k] has come to exist. *)
Definition grown (o : obj) (k : string) : nat :=
  if o_isArray o then
    match index_of_key k with
    | Some i => Nat.max (o_length o) (S i)
    | None => o_length o
    end
  else o_length o.

(** [v[k]] read: the getter of an accessor records its identifier in
    [__observedIdentifier] of its manager and answers the captured value. *)
Definition Get (v : value) (k : string) : M value :=
  match v with
  | VUndef | VNull => throw TypeError
  | VBool _ | VNum _ | VNaN => ret VUndef
  | VStr s =>
      if String.eqb k "length" then ret (VNum (Z.of_nat (String.length s)))
      else match index_of_key k with
           | Some i => match String.get i s with
                       | Some c => ret (VStr (String c EmptyString))
                       | None => ret VUndef
                       end
           | None => ret VUndef
           end
  | VRef l =>
      o <- the_obj l ;;
      if o_isArray o && String.eqb k "length" then ret (VNum (Z.of_nat (o_length o)))
      else match o_props o !! k with
           | None => ret VUndef
           | Some p =>
               match p_slot p with
               | Data x _ => ret x
               | Accessor a =>
                   upd_manager (a_manager a) (set_observedIdentifier (Some (a_identifier a))) ;;;
                   ret (a_value a)
               end
           end
  end.

(** [Object.defineProperty(target, key, {value, enumerable, configurable})]
    (ECMAScript 5.1, 8.12.9 and 15.2.3.6): a new property is not writable; an
    existing data property keeps its [writable] attribute; a property that is
    not configurable is not redefined with other attributes. *)
Definition defineData (target : value) (key : string) (v : value)
    (enumerable configurable : bool) : M unit :=
  match target with
  | VRef l =>
      o <- the_obj l ;;
      if o_isArray o && String.eqb key "length" then beyond
      else
        match o_props o !! key with
        | None =>
            upd_obj l (fun o => set_length (grown o key)
              (set_props (<[key := Prop_ (Data v false) enumerable configurable]> (o_props o)) o))
        | Some p =>
            let writable := match p_slot p with Data _ w => w | Accessor _ => false end in
            let same_value := match p_slot p with
                              | Data x _ => bool_decide (x = v)
                              | Accessor _ => false
                              end in
            if negb (p_configurable p)
               && (configurable || negb (Bool.eqb enumerable (p_enumerable p))
                   || negb (writable || same_value))
            then throw TypeError
            else upd_obj l (fun o =>
                   set_props (<[key := Prop_ (Data v writable) enumerable configurable]> (o_props o)) o)
        end
  | _ => throw TypeError
  end.

(** [Object.defineProperty(target, key, {configurable: true, get, set})] *)
Definition defineAccessor (target : value) (key : string) (a : accessor) : M unit :=
  match target with
  | VRef l =>
      o <- the_obj l ;;
      if o_isArray o && String.eqb key "length" then throw TypeError
      else
        match o_props o !! key with
        | None =>
            upd_obj l (fun o => set_length (grown o key)
              (set_props (<[key := Prop_ (Accessor a) false true]> (o_props o)) o))
        | Some p =>
            if negb (p_configurable p) then throw TypeError
            else upd_obj l (fun o =>
                   set_props (<[key := Prop_ (Accessor a) (p_enumerable p) true]> (o_props o)) o)
        end
  | _ => throw TypeError
  end.

(** ** Static helpers of [ContextManager] *)

(** [ContextManager.getContext(rootContext, split)].  The loop runs on the
    copy [split.slice(0)]; the second component of the answer is the caller's
    array as the call leaves it. *)
Fixpoint getContext_loop (rootContext : value) (copy : list string) : M value :=
  match copy with
  | [] => ret rootContext
  | k :: copy' =>
      rootContext <- Get rootContext k ;;
      if isNull rootContext then ret VNull
      else getContext_loop rootContext copy'
  end.

Definition ContextManager_getContext (rootContext : value) (split : list string)
    : M (value * list string) :=
  let copy := split in
  if isNull rootContext then ret (VNull, split)
  else r <- getContext_loop rootContext copy ;; ret (r, split).

Definition ContextManager_defineProperty (o : value) (key : string) (v : value)
    (enumerable configurable : bool) : M unit :=
  defineData o key v enumerable configurable.

Definition ContextManager_removeArrayListeners (absoluteIdentifier uid : string) : M unit :=
  st <- get_state ;;
  match dget (observedArrayListeners st) absoluteIdentifier with
  | Some listeners =>
      modify (set_observedArrayListeners
                (dset (observedArrayListeners st) absoluteIdentifier (ddel listeners uid)))
  | None => ret tt
  end.

(** The listener pushed is [_removeCallback] bound to manager [listener]. *)
Definition ContextManager_pushRemoveListener (identifier uid : string) (listener : nat) : M unit :=
  modify (fun st =>
    let control := default [] (s_controls st !! uid) in
    let listeners := default [] (dget control identifier) in
    set_s_controls (<[uid := dset control identifier (listeners ++ [listener])]> (s_controls st)) st).

Definition ContextManager_removeIdentifier (uids : list string) (identifier : string) : M unit :=
  modify (fun st =>
    set_s_controls
      (foldl (fun controls uid =>
                match controls !! uid with
                | Some identifiers => <[uid := ddel identifiers identifier]> controls
                | None => controls
                end) (s_controls st) uids) st).

(** ** Array observation *)

Definition arrayMethods : list string :=
  ["push"; "pop"; "reverse"; "shift"; "sort"; "splice"; "unshift"].

Definition clear_instrumented (v : value) : M unit :=
  match v with
  | VRef l => upd_obj l (set_instrumented None)
  | _ => ret tt
  end.

(** The first part of [observeArray]: what is done to [oldArray].  Giving the
    object a fresh prototype removes the wrappers exactly when they were
    installed through the prototype ([$compat.proto]); in the other case the
    wrappers are own properties that are not writable, the assignments
    [oldArray[method] = Array.prototype[method]] leave them in place, and the
    loop leaves the shared counter [i] at its bound.  The answer is [i]. *)
Definition observeArray_restore (oldArray : value) : M nat :=
  st <- get_state ;;
  if compat_setProto st then
    (if compat_proto st then clear_instrumented oldArray else ret tt) ;;; ret 0
  else if compat_proto st then clear_instrumented oldArray ;;; ret 0
  else ret (length arrayMethods).

(** The last part of [observeArray]: the wrappers for the methods from
    counter [i] on are installed on [array]. *)
Definition observeArray_install (m : nat) (absoluteIdentifier : string) (array : value)
    (i : nat) : M unit :=
  st <- get_state ;;
  if compat_proto st then
    match array with
    | VRef l => upd_obj l (set_instrumented (Some (m, absoluteIdentifier)))
    | _ => ret tt
    end
  else if Nat.ltb i (length arrayMethods) then
    match array with
    | VRef l => upd_obj l (set_instrumented (Some (m, absoluteIdentifier)))
    | _ => throw TypeError
    end
  else ret tt.

Definition observeArray (m : nat) (uid : string) (listener : arrayCallback)
    (absoluteIdentifier : string) (array oldArray : value) : M unit :=
  i <- (if negb (isNull oldArray) then observeArray_restore oldArray else ret 0) ;;
  if isNull array then ret tt
  else
    modify (fun st =>
      let arrayCallbacks := default [] (dget (observedArrayListeners st) absoluteIdentifier) in
      set_observedArrayListeners
        (dset (observedArrayListeners st) absoluteIdentifier (dset arrayCallbacks uid listener)) st) ;;;
    observeArray_install m absoluteIdentifier array i.

(** ** Dispatch *)

Definition call_listener (l : listenerFn) (v oldValue : value) : M unit :=
  match l with
  | LApp id throws =>
      emit (Notified id v oldValue) ;;;
      if throws then throw (ListenerError id) else ret tt
  | LArrayLength m uid join => observeArray m uid CNoop join v oldValue
  end.

Fixpoint execute_loop (ls : list IListener) (v oldValue : value) : M unit :=
  match ls with
  | [] => ret tt
  | l :: ls' => call_listener (l_listener l) v oldValue ;;; execute_loop ls' v oldValue
  end.

Definition _execute (m : nat) (identifier : string) (v oldValue : value) : M unit :=
  mg <- the_manager m ;;
  let observableListeners := identifiers mg !! identifier in
  upd_manager m (fun mg =>
    set_contextObjects
      (if isUndefined v then delete identifier (contextObjects mg)
       else <[identifier := v]> (contextObjects mg)) mg) ;;;
  match observableListeners with
  | None => ret tt
  | Some ls => execute_loop ls v oldValue
  end.

(** ** Installing the accessors *)

Definition __defineObject (m : nat) (identifier : string) (immediateContext : value)
    (key : string) : M unit :=
  v <- Get immediateContext key ;;
  defineAccessor immediateContext key
    (Acc AObject m identifier immediateContext key v false).

Definition __definePrimitive (m : nat) (identifier : string) (immediateContext : value)
    (key : string) : M unit :=
  v <- Get immediateContext key ;;
  let isDefined := negb (isNull v) in
  isArr <- isArray immediateContext ;;
  if isArr && String.eqb key "length" then ret tt
  else defineAccessor immediateContext key
         (Acc APrimitive m identifier immediateContext key v isDefined).

Definition _define (m : nat) (identifier : string) (immediateContext : value)
    (key : string) : M unit :=
  v <- Get immediateContext key ;;
  isArr <- isArray v ;;
  if isObject v || isArr then __defineObject m identifier immediateContext key
  else __definePrimitive m identifier immediateContext key.

(** ** Cascading to child properties *)

(** The loop of [_getValues]; [None] is the [null] it answers when both
    walks have stopped. *)
Fixpoint getValues_loop (split : list string) (newRootContext oldRootContext : value)
    (doNew doOld : bool) : M (option (value * value)) :=
  match split with
  | property :: ((_ :: _) as split') =>
      newRootContext <- (if doNew then Get newRootContext property else ret newRootContext) ;;
      let doNew := doNew && negb (isNull newRootContext) in
      oldRootContext <- (if doOld then Get oldRootContext property else ret oldRootContext) ;;
      let doOld := doOld && negb (isNull oldRootContext) in
      if negb (doNew || doOld) then ret None
      else getValues_loop split' newRootContext oldRootContext doNew doOld
  | _ =>
      let property := default "undefined" (head split) in
      newValue <- (if negb (isNull newRootContext) then Get newRootContext property
                   else ret VUndef) ;;
      oldValue <- (if negb (isNull oldRootContext) then Get oldRootContext property
                   else ret VUndef) ;;
      ret (Some (newValue, oldValue))
  end.

Definition _getValues (split : list string) (newRootContext oldRootContext : value)
    : M (option (value * value)) :=
  getValues_loop split newRootContext oldRootContext true true.

(** One round of the [for] loop of [_notifyChildProperties]; [values] is the
    local cache of parent values, [start] is [identifier.length + 1]. *)
Definition notifyChild_step (m : nat) (start : nat) (newValue oldValue : value)
    (values : gmap string (value * value)) (binding : string)
    : M (gmap string (value * value)) :=
  let property := slice start binding in
  match pop (split property) with
  | None => beyond
  | Some (key, split) =>
      let parentProperty := join split in
      let finish (values : gmap string (value * value)) (newParent newChild oldChild : value) :=
        let values := <[property := (newChild, oldChild)]> values in
        (if negb (isNull newParent || isUndefined newChild)
         then _define m binding newParent key else ret tt) ;;;
        _execute m binding newChild oldChild ;;;
        ret values in
      if isEmptyString parentProperty then
        let newParent := newValue in
        let oldParent := oldValue in
        newChild <- (if isNull newParent then ret newParent else Get newParent key) ;;
        oldChild <- (if isNull oldParent then ret oldParent else Get oldParent key) ;;
        finish values newParent newChild oldChild
      else
        let continue (values : gmap string (value * value)) (v : value * value) :=
          let newParent := fst v in
          let oldParent := snd v in
          newChild <- (if isNull newParent then ret VNull else Get newParent key) ;;
          oldChild <- (if isNull oldParent then ret VNull else Get oldParent key) ;;
          finish values newParent newChild oldChild in
        match values !! parentProperty with
        | Some v => continue values v
        | None =>
            r <- _getValues split newValue oldValue ;;
            match r with
            | None => _execute m binding VNull VNull ;;; ret values
            | Some v => continue (<[parentProperty := v]> values) v
            end
        end
  end.

Fixpoint notifyChild_loop (m : nat) (start : nat) (newValue oldValue : value)
    (values : gmap string (value * value)) (mappings : list string) : M unit :=
  match mappings with
  | [] => ret tt
  | binding :: mappings' =>
      values <- notifyChild_step m start newValue oldValue values binding ;;
      notifyChild_loop m start newValue oldValue values mappings'
  end.

Definition _notifyChildProperties (m : nat) (identifier : string) (newValue oldValue : value)
    : M unit :=
  mg <- the_manager m ;;
  match identifierHash mg !! identifier with
  | None => ret tt
  | Some [] =>
      upd_manager m (fun mg => set_identifierHash (delete identifier (identifierHash mg)) mg)
  | Some mappings =>
      notifyChild_loop m (String.length identifier + 1) newValue oldValue ∅ mappings
  end.

(** ** Assignment *)

(** [value = newValue] inside a setter: the closure variable of the accessor
    at key [k] of object [l]. *)
Definition store_value (l : nat) (k : string) (a : accessor) (newValue : value) : M unit :=
  upd_obj l (fun o =>
    match o_props o !! k with
    | Some p =>
        set_props (<[k := Prop_ (Accessor (Acc (a_kind a) (a_manager a) (a_identifier a)
                                             (a_context a) (a_key a) newValue (a_isDefined a)))
                               (p_enumerable p) (p_configurable p)]> (o_props o)) o
    | None => o
    end).

(** The [set] closures of [__defineObject] and [__definePrimitive], for the
    accessor [a] found at key [k] of object [l]. *)
Definition setter (l : nat) (k : string) (a : accessor) (newValue : value) : M unit :=
  if strict_eq (a_value a) newValue then ret tt
  else
    let oldValue := a_value a in
    let m := a_manager a in
    let identifier := a_identifier a in
    store_value l k a newValue ;;;
    mg <- the_manager m ;;
    match a_kind a with
    | AObject =>
        if isArrayFunction mg then ret tt
        else
          match identifierHash mg !! identifier with
          | None => throw TypeError
          | Some mappings =>
              let childPropertiesLength := length mappings in
              _execute m identifier newValue oldValue ;;;
              if Nat.ltb 0 childPropertiesLength
              then _notifyChildProperties m identifier newValue oldValue
              else ret tt
          end
    | APrimitive =>
        isArr <- isArray (a_context a) ;;
        if isArrayFunction mg && isArr then ret tt
        else if a_isDefined a then _execute m identifier newValue oldValue
        else
          isArrV <- isArray newValue ;;
          if isObject newValue || isArrV then
            match identifierHash mg !! identifier with
            | None => throw TypeError
            | Some mappings =>
                let childPropertiesLength := length mappings in
                _execute m identifier newValue oldValue ;;;
                __defineObject m identifier (a_context a) (a_key a) ;;;
                if Nat.ltb 0 childPropertiesLength
                then _notifyChildProperties m identifier newValue oldValue
                else ret tt
            end
          else
            _execute m identifier newValue oldValue ;;;
            __definePrimitive m identifier (a_context a) (a_key a)
    end.

(** Dropping the elements of an array from index [n] on. *)
Definition below (n : nat) (k : string) : bool :=
  match index_of_key k with
  | Some i => Nat.ltb i n
  | None => true
  end.

Definition truncate (n : nat) (o : obj) : obj :=
  set_length n (set_props (filter (fun kp => below n kp.1 = true) (o_props o)) o).

(** [target[k] = v] in non-strict code. *)
Definition Put (target : value) (k : string) (v : value) : M unit :=
  match target with
  | VUndef | VNull => throw TypeError
  | VBool _ | VNum _ | VNaN | VStr _ => ret tt
  | VRef l =>
      o <- the_obj l ;;
      if o_isArray o && String.eqb k "length" then
        match v with
        | VNum z => if Z.leb 0 z then upd_obj l (truncate (Z.to_nat z)) else beyond
        | _ => beyond
        end
      else
        match o_props o !! k with
        | None =>
            upd_obj l (fun o => set_length (grown o k)
              (set_props (<[k := Prop_ (Data v true) true true]> (o_props o)) o))
        | Some p =>
            match p_slot p with
            | Data _ true =>
                upd_obj l (fun o =>
                  set_props (<[k := Prop_ (Data v true) (p_enumerable p) (p_configurable p)]>
                               (o_props o)) o)
            | Data _ false => ret tt
            | Accessor a => setter l k a v
            end
        end
  end.

(** [delete target[k]] on an object. *)
Definition Delete (l : nat) (k : string) : M unit :=
  o <- the_obj l ;;
  match o_props o !! k with
  | None => ret tt
  | Some p =>
      if p_configurable p then upd_obj l (fun o => set_props (delete k (o_props o)) o)
      else throw TypeError
  end.

Definition HasProperty (l : nat) (k : string) : M bool :=
  o <- the_obj l ;; ret (bool_decide (is_Some (o_props o !! k))).

(** ** The mutating methods of [Array.prototype]

    (ECMAScript 5.1, 15.4.4), as sequences of property reads, writes and
    deletions on the receiver, so that accessors installed on its elements
    run.  The order [sort] produces is the state's [sortOrder]. *)

Fixpoint for_each {A} (l : list A) (body : A -> M unit) : M unit :=
  match l with
  | [] => ret tt
  | x :: r => body x ;;; for_each r body
  end.

Definition array_length (this : nat) : M nat :=
  o <- the_obj this ;; if o_isArray o then ret (o_length o) else beyond.

Definition num (n : nat) : value := VNum (Z.of_nat n).

(** [Put(to, Get(from))] when [from] exists, [Delete(to)] otherwise. *)
Definition move (this from to : nat) : M unit :=
  fromPresent <- HasProperty this (string_of_nat from) ;;
  if fromPresent then
    fromVal <- Get (VRef this) (string_of_nat from) ;;
    Put (VRef this) (string_of_nat to) fromVal
  else Delete this (string_of_nat to).

Fixpoint put_items (this : nat) (n : nat) (items : list value) : M unit :=
  match items with
  | [] => ret tt
  | x :: r => Put (VRef this) (string_of_nat n) x ;;; put_items this (S n) r
  end.

Definition native_push (this : nat) (items : list value) : M value :=
  len <- array_length this ;;
  put_items this len items ;;;
  let n := len + length items in
  Put (VRef this) "length" (num n) ;;;
  ret (num n).

Definition native_pop (this : nat) : M value :=
  len <- array_length this ;;
  match len with
  | O => Put (VRef this) "length" (num 0) ;;; ret VUndef
  | S indx =>
      element <- Get (VRef this) (string_of_nat indx) ;;
      Delete this (string_of_nat indx) ;;;
      Put (VRef this) "length" (num indx) ;;;
      ret element
  end.

Definition native_shift (this : nat) : M value :=
  len <- array_length this ;;
  match len with
  | O => Put (VRef this) "length" (num 0) ;;; ret VUndef
  | S last =>
      first <- Get (VRef this) "0" ;;
      for_each (seq 1 last) (fun k => move this k (k - 1)) ;;;
      Delete this (string_of_nat last) ;;;
      Put (VRef this) "length" (num last) ;;;
      ret first
  end.

Definition native_unshift (this : nat) (items : list value) : M value :=
  len <- array_length this ;;
  let argCount := length items in
  for_each (reverse (seq 1 len)) (fun k => move this (k - 1) (k + argCount - 1)) ;;;
  put_items this 0 items ;;;
  Put (VRef this) "length" (num (len + argCount)) ;;;
  ret (num (len + argCount)).

Definition native_reverse (this : nat) : M value :=
  len <- array_length this ;;
  for_each (seq 0 (len / 2)) (fun lower =>
    let upper := len - lower - 1 in
    let lowerP := string_of_nat lower in
    let upperP := string_of_nat upper in
    lowerValue <- Get (VRef this) lowerP ;;
    upperValue <- Get (VRef this) upperP ;;
    lowerExists <- HasProperty this lowerP ;;
    upperExists <- HasProperty this upperP ;;
    match lowerExists, upperExists with
    | true, true => Put (VRef this) lowerP upperValue ;;; Put (VRef this) upperP lowerValue
    | false, true => Put (VRef this) lowerP upperValue ;;; Delete this upperP
    | true, false => Delete this lowerP ;;; Put (VRef this) upperP lowerValue
    | false, false => ret tt
    end) ;;;
  ret (VRef this).

(** The values of the elements that exist among the indices [ks]. *)
Fixpoint read_elements (this : nat) (ks : list nat) : M (list value) :=
  match ks with
  | [] => ret []
  | k :: r =>
      present <- HasProperty this (string_of_nat k) ;;
      if present then
        v <- Get (VRef this) (string_of_nat k) ;;
        vs <- read_elements this r ;;
        ret (v :: vs)
      else read_elements this r
  end.

Definition native_sort (this : nat) : M value :=
  len <- array_length this ;;
  vs <- read_elements this (seq 0 len) ;;
  st <- get_state ;;
  let sorted := sortOrder st vs in
  put_items this 0 sorted ;;;
  for_each (seq (length sorted) (len - length sorted))
           (fun k => Delete this (string_of_nat k)) ;;;
  ret (VRef this).

(** ToInteger of an argument of [splice]. *)
Definition toInteger (v : value) : M Z :=
  match v with
  | VNum z => ret z
  | VUndef | VNull | VNaN => ret 0%Z
  | VBool b => ret (if b then 1%Z else 0%Z)
  | VStr _ | VRef _ => beyond
  end.

(** The elements at the indices [ks], as the properties [n], [n+1], ... of
    a new array; indices with no element leave a hole. *)
Fixpoint copy_elements (this : nat) (ks : list nat) (n : nat) (acc : gmap string prop)
    : M (gmap string prop) :=
  match ks with
  | [] => ret acc
  | k :: r =>
      present <- HasProperty this (string_of_nat k) ;;
      if present then
        v <- Get (VRef this) (string_of_nat k) ;;
        copy_elements this r (S n) (<[string_of_nat n := Prop_ (Data v true) true true]> acc)
      else copy_elements this r (S n) acc
  end.

Definition native_splice (this : nat) (args : list value) : M value :=
  len <- array_length this ;;
  relativeStart <- toInteger (default VUndef (args !! 0)) ;;
  let actualStart :=
    if Z.ltb relativeStart 0 then Z.to_nat (Z.max (Z.of_nat len + relativeStart) 0)
    else Nat.min (Z.to_nat relativeStart) len in
  actualDeleteCount <-
    match args with
    | [] => ret 0
    | [_] => ret (len - actualStart)
    | _ :: deleteCount :: _ =>
        dc <- toInteger deleteCount ;;
        ret (Nat.min (Z.to_nat (Z.max dc 0)) (len - actualStart))
    end ;;
  let items := drop 2 args in
  let itemCount := length items in
  deleted <- copy_elements this (seq actualStart actualDeleteCount) 0 ∅ ;;
  A <- alloc (Obj true deleted actualDeleteCount None) ;;
  (if Nat.ltb itemCount actualDeleteCount then
     for_each (seq actualStart (len - actualDeleteCount - actualStart))
              (fun k => move this (k + actualDeleteCount) (k + itemCount)) ;;;
     for_each (reverse (seq (len - actualDeleteCount + itemCount) (actualDeleteCount - itemCount)))
              (fun k => Delete this (string_of_nat k))
   else if Nat.ltb actualDeleteCount itemCount then
     for_each (reverse (seq (S actualStart) (len - actualDeleteCount - actualStart)))
              (fun k => move this (k + actualDeleteCount - 1) (k + itemCount - 1))
   else ret tt) ;;;
  put_items this actualStart items ;;;
  Put (VRef this) "length" (num (len - actualDeleteCount + itemCount)) ;;;
  ret A.

(** [this.slice(0)] *)
Definition native_slice0 (this : nat) : M value :=
  len <- array_length this ;;
  copied <- copy_elements this (seq 0 len) 0 ∅ ;;
  alloc (Obj true copied len None).

(** [Array.prototype[method].apply(this, args)] *)
Definition native (method : string) (this : nat) (args : list value) : M value :=
  if String.eqb method "push" then native_push this args
  else if String.eqb method "pop" then native_pop this
  else if String.eqb method "reverse" then native_reverse this
  else if String.eqb method "shift" then native_shift this
  else if String.eqb method "sort" then native_sort this
  else if String.eqb method "splice" then native_splice this args
  else if String.eqb method "unshift" then native_unshift this args
  else beyond.

(** ** The wrapper of a mutating method *)

Definition call_callback (c : arrayCallback) (ev : IArrayMethodInfo) : M unit :=
  match c with
  | CNoop => ret tt
  | CApp id throws =>
      emit (ArrayNotified id ev) ;;;
      if throws then throw (ListenerError id) else ret tt
  end.

(** The callbacks of [absoluteIdentifier] in the global table.  The wrapper
    holds the inner object by reference; the table never replaces it once
    [observeArray] has created it, so reading it through the table at the
    time of use reads the same object. *)
Definition the_callbacks (absoluteIdentifier : string) : M (dict arrayCallback) :=
  st <- get_state ;;
  match dget (observedArrayListeners st) absoluteIdentifier with
  | Some callbacks => ret callbacks
  | None => beyond
  end.

(** [observedArrayFn], the function [_overwriteArrayFunction] of manager [m]
    returns for [absoluteIdentifier] and [method], called on [this]; in three
    parts.  First the call of the method of [Array.prototype], between the
    two assignments to [__isArrayFunction] when the name of the method
    contains [shift]. *)
Definition observedArrayFn_apply (m : nat) (absoluteIdentifier method : string)
    (this : nat) (args : list value) (oldArray : value) : M value :=
  if bool_decide (indexOf method "shift" ≠ None) then
    upd_manager m (set_isArrayFunction true) ;;;
    returnValue <- native method this args ;;
    upd_manager m (set_isArrayFunction false) ;;;
    _notifyChildProperties m absoluteIdentifier (VRef this) oldArray ;;;
    ret returnValue
  else native method this args.

(** Then the notifications: the listeners of the [length], and the
    callbacks of the global table. *)
Definition observedArrayFn_notify (m : nat) (absoluteIdentifier method : string)
    (this : nat) (args : list value) (oldArray returnValue : value) : M unit :=
  callbacks <- the_callbacks absoluteIdentifier ;;
  let keys := dkeys callbacks in
  oldLength <- Get oldArray "length" ;;
  newLength <- Get (VRef this) "length" ;;
  (if negb (strict_eq oldLength newLength)
   then _execute m (absoluteIdentifier +:+ ".length") newLength oldLength
   else ret tt) ;;;
  for_each keys (fun key =>
    callbacks <- the_callbacks absoluteIdentifier ;;
    match dget callbacks key with
    | Some c => call_callback c (ArrayMethodInfo method returnValue oldArray (VRef this) args)
    | None => throw TypeError
    end).

Definition observedArrayFn (m : nat) (absoluteIdentifier method : string)
    (this : nat) (args : list value) : M value :=
  oldArray <- native_slice0 this ;;
  returnValue <- observedArrayFn_apply m absoluteIdentifier method this args oldArray ;;
  observedArrayFn_notify m absoluteIdentifier method this args oldArray returnValue ;;;
  ret returnValue.

(** [target.method(args)] for one of the seven methods. *)
Definition callMethod (target : value) (method : string) (args : list value) : M value :=
  match target with
  | VRef l =>
      o <- the_obj l ;;
      if bool_decide (method ∈ arrayMethods) then
        match o_instrumented o with
        | Some (m, absoluteIdentifier) => observedArrayFn m absoluteIdentifier method l args
        | None => if o_isArray o then native method l args else beyond
        end
      else beyond
  | _ => beyond
  end.

(** ** Registering and removing listeners *)

Definition _hasIdentifier (mg : Manager) (identifier : string) : bool :=
  negb (isEmptyArray (identifiers mg !! identifier)).

(** The loop of [_removeCallback], from index [n - 1] down to [0]:
    [callbacks.splice(i, 1)] where the uid matches. *)
Fixpoint removeCallback_loop (uid : string) (n : nat) (callbacks : list IListener)
    : list IListener :=
  match n with
  | O => callbacks
  | S i =>
      removeCallback_loop uid i
        match callbacks !! i with
        | Some callback =>
            if String.eqb (l_uid callback) uid then delete i callbacks else callbacks
        | None => callbacks
        end
  end.

Definition _removeCallback (m : nat) (identifier uid : string) : M unit :=
  mg <- the_manager m ;;
  match identifiers mg !! identifier with
  | None => ret tt
  | Some callbacks =>
      let callbacks := removeCallback_loop uid (length callbacks) callbacks in
      upd_manager m (fun mg =>
        let mg := set_identifiers (<[identifier := callbacks]> (identifiers mg)) mg in
        if isEmptyArray (identifiers mg !! identifier) then
          set_contextObjects (delete identifier (contextObjects mg))
            (set_identifierHash (delete identifier (identifierHash mg)) mg)
        else mg)
  end.

(** [hashValue.push(identifier)] on the array stored under [ident]. *)
Definition hash_push (ident identifier : string) (h : gmap string (list string))
    : gmap string (list string) :=
  <[ident := default [] (h !! ident) ++ [identifier]]> h.

(** The [while] loop of [__addHashValues]. *)
Fixpoint addHashValues_loop (identifier : string) (split : list string) (ident : string)
    (h : gmap string (list string)) : gmap string (list string) :=
  match split with
  | [] => h
  | s :: split' =>
      let ident := ident +:+ String dot s in
      let h := match h !! ident with None => <[ident := []]> h | Some _ => h end in
      let h := if String.eqb ident identifier then h else hash_push ident identifier h in
      addHashValues_loop identifier split' ident h
  end.

Definition __addHashValues (identifier : string) (h : gmap string (list string))
    : gmap string (list string) :=
  match split identifier with
  | [] => h
  | ident :: split =>
      match h !! ident, split with
      | None, [] => <[ident := []]> h
      | None, _ =>
          addHashValues_loop identifier split ident
            (hash_push ident identifier (<[ident := []]> h))
      | Some _, _ =>
          addHashValues_loop identifier split ident (hash_push ident identifier h)
      end
  end.

Definition __add (m : nat) (identifier : string) (observableListener : IListener) : M unit :=
  upd_manager m (fun mg =>
    let callbacks := default [] (identifiers mg !! identifier) in
    let mg := set_identifiers (<[identifier := callbacks ++ [observableListener]]> (identifiers mg)) mg in
    if isNullSlot (identifierHash mg !! identifier)
    then set_identifierHash (__addHashValues identifier (identifierHash mg)) mg
    else mg).

(** The functions [observe] hands out: [noop], the [removeObservableCallback]
    of [_addObservableListener] (which holds the uid, the identifier and
    [_removeCallback] bound to its manager), and the [removeObservableCallback]
    of [observe], which calls two of them in turn. *)
Inductive removeListener :=
  | RNoop
  | RObservable (m : nat) (uid absoluteIdentifier : string)
  | RBoth (removeAbsoluteCallback removeObservedCallback : removeListener).

Fixpoint call_remove (r : removeListener) : M unit :=
  match r with
  | RNoop => ret tt
  | RObservable m uid absoluteIdentifier =>
      ContextManager_removeIdentifier [uid] absoluteIdentifier ;;;
      _removeCallback m absoluteIdentifier uid
  | RBoth a b => call_remove a ;;; call_remove b
  end.

Definition _addObservableListener (m : nat) (absoluteIdentifier : string)
    (observableListener : IListener) : M removeListener :=
  let uid := l_uid observableListener in
  __add m absoluteIdentifier observableListener ;;;
  ContextManager_pushRemoveListener absoluteIdentifier uid m ;;;
  ret (RObservable m uid absoluteIdentifier).

(** ** Observing *)

(** The [do ... while] walk of [_getImmediateContext]. *)
Fixpoint immediateContext_walk (context : value) (key : string) (split : list string)
    : M value :=
  context <- Get context key ;;
  match split with
  | [] => ret context
  | key' :: split' =>
      if isNull context then ret context
      else immediateContext_walk context key' split'
  end.

(** [_getImmediateContext]; [observe_identifier] is the call
    [this.observe(identifier, null)] it makes. *)
Definition _getImmediateContext (observe_identifier : M (option removeListener))
    (m : nat) (identifier : string) : M value :=
  mg <- the_manager m ;;
  (if isNullSlot (identifiers mg !! identifier)
   then observe_identifier ;;; ret tt
   else ret tt) ;;;
  mg <- the_manager m ;;
  match split identifier with
  | [] => beyond
  | key :: split => immediateContext_walk (context mg) key split
  end.

Definition cache (m : nat) (k : string) (v : value) : M unit :=
  upd_manager m (fun mg => set_contextObjects (<[k := v]> (contextObjects mg)) mg).

(** [observe] in parts.  First the immediate context: the context of the
    manager when the identifier has one segment, else what is cached under
    [join] or, failing that, what [_getImmediateContext] finds.
    [observe_join] is the call [this.observe(join, null)]. *)
Definition observe_context (observe_join : M (option removeListener)) (m : nat)
    (mg : Manager) (split : list string) : M value :=
  if Nat.ltb 0 (length split) then
    let join := join split in
    if isNull (cached mg join) then
      context <- _getImmediateContext observe_join m join ;;
      cache m join context ;;;
      ret context
    else ret (cached mg join)
  else ret (context mg).

(** The registration of the listener, under the identifier and under the
    identifier the getter reported when it is another one; the answer is the
    function [observe] returns. *)
Definition observe_listen (m : nat) (absoluteIdentifier : string)
    (observableListener : option IListener) (observedIdentifier : option string)
    : M removeListener :=
  match observableListener with
  | Some l =>
      removeAbsoluteCallback <- _addObservableListener m absoluteIdentifier l ;;
      removeObservedCallback <-
        match observedIdentifier with
        | Some observed =>
            if String.eqb absoluteIdentifier observed then ret RNoop
            else _addObservableListener m observed l
        | None => ret RNoop
        end ;;
      ret (RBoth removeAbsoluteCallback removeObservedCallback)
  | None => ret RNoop
  end.

(** What is done for an identifier the manager has not seen: the array is
    observed when the identifier is the [length] of an array, else the
    accessor is installed.  [observe_join l] is the call
    [this.observe(join, l)]; [join] is [undefined] when the identifier has
    one segment. *)
Definition observe_define (observe_join : IListener -> M (option removeListener))
    (m : nat) (absoluteIdentifier : string) (context : value) (key : string)
    (split : list string) (isArr : bool) (observableListener : option IListener) : M unit :=
  if isArr && String.eqb key "length" then
    match observableListener with
    | None => throw TypeError
    | Some l =>
        let join := if Nat.ltb 0 (length split) then join split else "undefined" in
        observe_join (Listener (l_uid l) (LArrayLength m (l_uid l) join)) ;;;
        observeArray m (l_uid l) CNoop join context VNull
    end
  else _define m absoluteIdentifier context key.

(** [observe], with the depth of its recursion bounded by [fuel]: it calls
    itself on [join], the identifier without its last segment. *)
Fixpoint observe_ (fuel : nat) (m : nat) (absoluteIdentifier : string)
    (observableListener : option IListener) : M (option removeListener) :=
  match fuel with
  | O => beyond
  | S fuel =>
      if isEmptyString absoluteIdentifier then ret None
      else
        match pop (split absoluteIdentifier) with
        | None => beyond
        | Some (key, split) =>
            mg <- the_manager m ;;
            let hasIdentifier := _hasIdentifier mg absoluteIdentifier in
            let joined := if Nat.ltb 0 (length split) then join split else EmptyString in
            context <- observe_context (observe_ fuel m joined None) m mg split ;;
            isArr <- isArray context ;;
            if negb (isObject context || isArr) then
              emit (Warned absoluteIdentifier) ;;;
              match observableListener with
              | Some l => r <- _addObservableListener m absoluteIdentifier l ;; ret (Some r)
              | None => ret None
              end
            else
              upd_manager m (set_observedIdentifier None) ;;;
              v <- Get context key ;;
              cache m absoluteIdentifier v ;;;
              mg <- the_manager m ;;
              let observedIdentifier := observedIdentifier mg in
              let hasIdentifier := hasIdentifier || bool_decide (is_Some observedIdentifier) in
              removeCallback <- observe_listen m absoluteIdentifier observableListener
                                  observedIdentifier ;;
              (if hasIdentifier then ret tt
               else observe_define (fun l => observe_ fuel m joined (Some l))
                      m absoluteIdentifier context key split isArr observableListener) ;;;
              ret (Some removeCallback)
        end
  end.

(** The number of segments bounds the depth of the recursion. *)
Definition observe (m : nat) (absoluteIdentifier : string)
    (observableListener : option IListener) : M (option removeListener) :=
  observe_ (S (length (split absoluteIdentifier))) m absoluteIdentifier observableListener.

(** The instance method [getContext]. *)
Definition getContext (m : nat) (split : list string) : M value :=
  mg <- the_manager m ;;
  let join := join split in
  if isNull (cached mg join) then
    r <- ContextManager_getContext (context mg) split ;;
    cache m join (fst r) ;;;
    ret (fst r)
  else ret (cached mg join).

(** The instance method [dispose]. *)
Definition dispose (m : nat) : M unit :=
  upd_manager m (fun mg => Mgr VNull ∅ ∅ ∅ (isArrayFunction mg) (observedIdentifier mg)).

(** ** The static registry *)

(** [control.uid], a string. *)
Definition uid_of (control : value) : M string :=
  v <- Get control "uid" ;;
  match v with
  | VStr s => ret s
  | _ => beyond
  end.

Definition ContextManager_getManager (control : value) : M nat :=
  uid <- uid_of control ;;
  st <- get_state ;;
  match s_managers st !! uid with
  | Some manager => ret manager
  | None =>
      let contextManager := length (managers st) in
      modify (fun st =>
        set_s_managers (<[uid := contextManager]> (s_managers st))
          (set_managers (managers st ++ [Mgr control ∅ ∅ ∅ false None]) st)) ;;;
      ret contextManager
  end.

(** The static [dispose].  [deepExtend] is the framework utility of that
    name, which is not among the sources; it is called as
    [deepExtend({}, control.context)]. *)
Definition ContextManager_dispose (deepExtend : value -> value -> M value)
    (control : value) (persist : bool) : M unit :=
  if isNull control then ret tt
  else
    uid <- uid_of control ;;
    st <- get_state ;;
    let identifiers := s_controls st !! uid in
    match s_managers st !! uid with
    | Some manager =>
        dispose manager ;;;
        modify (fun st => set_s_managers (delete uid (s_managers st)) st)
    | None => ret tt
    end ;;;
    match identifiers with
    | None => ret tt
    | Some identifiers =>
        for_each identifiers (fun il =>
          for_each il.2 (fun listener => _removeCallback listener il.1 uid)) ;;;
        st <- get_state ;;
        for_each (dkeys (observedArrayListeners st))
                 (fun key => ContextManager_removeArrayListeners key uid) ;;;
        modify (fun st => set_s_controls (delete uid (s_controls st)) st) ;;;
        context <- Get control "context" ;;
        if isNull context then ret tt
        else
          v <- (if persist then
                  target <- alloc (Obj false ∅ 0 None) ;;
                  source <- Get control "context" ;;
                  deepExtend target source
                else ret VNull) ;;
          ContextManager_defineProperty control "context" v true true
    end.

(** ** Relations between the state before and after a computation *)

(** A computation preserves a relation between the state it starts in and
    the state it leaves, whatever its result. *)
Definition preserves (R : State -> State -> Prop) {A} (c : M A) : Prop :=
  forall st r st', c st = (r, st') -> R st st'.



(** ** Specifications used by the theorems *)

(** The value a read of [v[k]] answers, without the effect of the getter. *)
Definition peek (h : list obj) (v : value) (k : string) : value :=
  match v with
  | VStr s =>
      if String.eqb k "length" then VNum (Z.of_nat (String.length s))
      else match index_of_key k with
           | Some i => match String.get i s with
                       | Some c => VStr (String c EmptyString)
                       | None => VUndef
                       end
           | None => VUndef
           end
  | VRef l =>
      match h !! l with
      | Some o =>
          if o_isArray o && String.eqb k "length" then VNum (Z.of_nat (o_length o))
          else match o_props o !! k with
               | Some p => match p_slot p with
                           | Data x _ => x
                           | Accessor a => a_value a
                           end
               | None => VUndef
               end
      | None => VUndef
      end
  | _ => VUndef
  end.

(** The path resolver in the words of the specification: walk
    [root[split[0]][split[1]]...], answering the null sentinel as soon as the
    root or an intermediate value is null or undefined. *)
Fixpoint resolve (h : list obj) (root : value) (split : list string) : value :=
  if isNull root then VNull
  else match split with
       | [] => root
       | k :: split' => resolve h (peek h root k) split'
       end.

(** References point into the heap, accessors to an existing manager. *)
Definition valid (st : State) (v : value) : Prop :=
  match v with
  | VRef l => l < length (heap st)
  | _ => True
  end.

Definition slot_valid (st : State) (s : slot) : Prop :=
  match s with
  | Data v _ => valid st v
  | Accessor a => valid st (a_value a) /\ a_manager a < length (managers st)
  end.

Definition closed (st : State) : Prop :=
  forall l o k p, heap st !! l = Some o -> o_props o !! k = Some p -> slot_valid st (p_slot p).

(** Two managers that differ at most in [__observedIdentifier]. *)
Definition same_but_observed (a b : Manager) : Prop :=
  set_observedIdentifier None a = set_observedIdentifier None b.

(** What reading properties may change: [__observedIdentifier] of managers,
    and nothing else. *)
Definition get_rel (st st' : State) : Prop :=
  Forall2 same_but_observed (managers st) (managers st')
  /\ st' = set_managers (managers st') st.

(** Listener [l] is in the list manager [m] keeps for [ident]. *)
Definition reg_at (st : State) (m : nat) (ident : string) (l : IListener) : Prop :=
  exists mg ls,
    managers st !! m = Some mg /\ identifiers mg !! ident = Some ls /\ l ∈ ls.

(** [l] wraps the application listener [id]. *)
Definition is_app (id : nat) (l : IListener) : Prop :=
  exists thr, l_listener l = LApp id thr.

(** Application listener [id] is registered, with some manager under some
    identifier. *)
Definition registered (id : nat) (st : State) : Prop :=
  exists m ident l, reg_at st m ident l /\ is_app id l.

Definition allowed (st : State) (e : entry) : Prop :=
  match e with
  | Notified id _ _ => registered id st
  | ArrayNotified _ _ => True
  | Warned _ => False
  end.

(** What the manager's work on the heap and on its caches may change:
    [__identifiers] and [__isArrayFunction] of every manager stay as they
    are, and no listener is called. *)
Definition silent_rel (st st' : State) : Prop :=
  identifiers <$> managers st' = identifiers <$> managers st
  /\ isArrayFunction <$> managers st' = isArrayFunction <$> managers st
  /\ log st' = log st.

(** What an assignment may change: it leaves [__identifiers] and
    [__isArrayFunction] of every manager as they are, and the only listeners
    it notifies are registered ones. *)
Definition put_rel (st st' : State) : Prop :=
  identifiers <$> managers st' = identifiers <$> managers st
  /\ isArrayFunction <$> managers st' = isArrayFunction <$> managers st
  /\ exists new, log st' = log st ++ new /\ Forall (allowed st) new.

(** The notification an application listener records when called with
    [(v, oldValue)]. *)
Definition notification (v oldValue : value) (l : IListener) : option entry :=
  match l_listener l with
  | LApp id _ => Some (Notified id v oldValue)
  | LArrayLength _ _ _ => None
  end.

(** An application listener that returns normally. *)
Definition returns (l : IListener) : Prop :=
  exists id, l_listener l = LApp id false.

(** [__contextObjects] after [_execute] has stored [v] under [identifier]. *)
Definition cache_after (identifier : string) (v : value) (c : gmap string value)
    : gmap string value :=
  if isUndefined v then delete identifier c else <[identifier := v]> c.

Definition isWarned (e : entry) : Prop :=
  match e with Warned _ => True | _ => False end.

(** What an [observe] that does not register listener [id] may change: no
    registration of [id] is new, and nothing but warnings is logged. *)
Definition obs_rel (id : nat) (st st' : State) : Prop :=
  (forall m ident l, is_app id l -> reg_at st' m ident l -> reg_at st m ident l)
  /\ exists new, log st' = log st ++ new /\ Forall isWarned new.

(** The registrations a function handed out by [observe] removes: manager,
    uid, identifier. *)
Fixpoint removals (r : removeListener) : list (nat * string * string) :=
  match r with
  | RNoop => []
  | RObservable m uid absoluteIdentifier => [(m, uid, absoluteIdentifier)]
  | RBoth a b => removals a ++ removals b
  end.

(** [__isArrayFunction] of manager [m]. *)
Definition guard (st : State) (m : nat) : option bool :=
  isArrayFunction <$> managers st !! m.

(** The state in which manager [m] has just set [__isArrayFunction]. *)
Definition guarded (st : State) (m : nat) (mg : Manager) : State :=
  set_managers (<[m := set_isArrayFunction true mg]> (managers st)) st.

(** The event a callback of the global table records. *)
Definition event_of (ev : IArrayMethodInfo) (kc : string * arrayCallback) : option entry :=
  match kc.2 with
  | CApp id _ => Some (ArrayNotified id ev)
  | CNoop => None
  end.

(** A callback that returns normally. *)
Definition callback_returns (c : arrayCallback) : Prop :=
  match c with
  | CApp _ throws => throws = false
  | CNoop => True
  end.

(** What leaves the heap as it is. *)
Definition heap_rel (st st' : State) : Prop := heap st' = heap st.

(** A segment: a string with no dot in it. *)
Fixpoint no_dot (s : string) : bool :=
  match s with
  | EmptyString => true
  | String c s' => negb (Ascii.eqb c dot) && no_dot s'
  end.

(** ** A small application, for the examples *)

Definition data (v : value) : prop := Prop_ (Data v true) true true.

Definition object (fields : list (string * value)) : obj :=
  Obj false (list_to_map (map (fun kv => (kv.1, data kv.2)) fields)) 0 None.

Definition array (elements : list value) : obj :=
  Obj true (list_to_map (imap (fun i v => (string_of_nat i, data v)) elements))
      (length elements) None.

(** The control [{uid: 'u1', context: {items: [1, 2, 3], a: null, n: 5,
    o: {x: 1}}}]. *)
Definition demo_heap : list obj :=
  [ object [("uid", VStr "u1"); ("context", VRef 1)];
    object [("items", VRef 2); ("a", VNull); ("n", VNum 5); ("o", VRef 3)];
    array [VNum 1; VNum 2; VNum 3];
    object [("x", VNum 1)] ].

(** The state after [ContextManager.getManager] of the control. *)
Definition demo : State :=
  St demo_heap [Mgr (VRef 0) ∅ ∅ ∅ false None] {["u1" := 0]} ∅ [] true true (fun l => l) [].

(** Two listeners on [context.n], the first of which throws; then
    [context.n = 6]. *)
Definition two_listeners : M unit :=
  observe 0 "context.n" (Some (Listener "u1" (LApp 1 true))) ;;;
  observe 0 "context.n" (Some (Listener "u2" (LApp 2 false))) ;;;
  Put (VRef 1) "n" (VNum 6).

(** One uid registers two listeners on [context.n]. *)
Definition same_uid_twice : M (option removeListener) :=
  r1 <- observe 0 "context.n" (Some (Listener "u1" (LApp 1 false))) ;;
  observe 0 "context.n" (Some (Listener "u1" (LApp 2 false))) ;;;
  ret r1.

(** ... and calls the function the first [observe] returned. *)
Definition same_uid_twice_remove_first : M unit :=
  r1 <- same_uid_twice ;;
  match r1 with
  | Some remove => call_remove remove
  | None => throw TypeError
  end.

(** One listener on [context.n], removed again. *)
Definition observe_then_remove : M unit :=
  r <- observe 0 "context.n" (Some (Listener "u1" (LApp 1 false))) ;;
  match r with
  | Some remove => call_remove remove
  | None => throw TypeError
  end.

(** Two owners listen to the array [context.items]; the callback of the
    first throws; then [context.items.push(4)]. *)
Definition two_callbacks : M value :=
  observeArray 0 "u1" (CApp 1 true) "context.items" (VRef 2) VNull ;;;
  observeArray 0 "u2" (CApp 2 false) "context.items" (VRef 2) VNull ;;;
  callMethod (VRef 2) "push" [VNum 4].

(** A listener on the length of [context.items] and a callback on the
    array; then a call of [method]. *)
Definition length_and_callback (method : string) (args : list value) : M value :=
  observe 0 "context.items.length" (Some (Listener "u1" (LApp 7 false))) ;;;
  observeArray 0 "u1" (CApp 8 false) "context.items" (VRef 2) VNull ;;;
  callMethod (VRef 2) method args.

(** A listener on the first element of [context.items], the array
    observed; then [context.items.reverse()]. *)
Definition observed_element_reverse : M value :=
  observe 0 "context.items.0" (Some (Listener "u1" (LApp 1 false))) ;;;
  observeArray 0 "u1" CNoop "context.items" (VRef 2) VNull ;;;
  callMethod (VRef 2) "reverse" [].

(** The array observed, its last element made non-configurable with
    [ContextManager.defineProperty]; then [context.items.shift()]. *)
Definition shift_that_throws : M value :=
  observeArray 0 "u1" CNoop "context.items" (VRef 2) VNull ;;;
  ContextManager_defineProperty (VRef 2) "2" (VNum 3) true false ;;;
  callMethod (VRef 2) "shift" [].

(** A shallow stand-in for [deepExtend]: it answers its target. *)
Definition keep_target (target source : value) : M value := ret target.

(** A listener on [context.n]; then the static [dispose] of the control. *)
Definition observe_then_dispose (persist : bool) : M unit :=
  observe 0 "context.n" (Some (Listener "u1" (LApp 1 false))) ;;;
  ContextManager_dispose keep_target (VRef 0) persist.

(** The state with three listeners on [context.n], the second of which
    throws, and its manager. *)
Definition demo_three : State :=
  (bind (observe 0 "context.n" (Some (Listener "u0" (LApp 0 false)))) (fun _ =>
   bind (observe 0 "context.n" (Some (Listener "u1" (LApp 1 true)))) (fun _ =>
   observe 0 "context.n" (Some (Listener "u2" (LApp 2 false))))) demo).2.

Definition three_listeners : Manager :=
  default (Mgr VUndef ∅ ∅ ∅ false None) (managers demo_three !! 0).

(** The state once [context.n] is observed, and its manager. *)
Definition demo_observed : State :=
  (observe 0 "context.n" (Some (Listener "u1" (LApp 1 false))) demo).2.

Definition demo_observed_manager : Manager :=
  default (Mgr VUndef ∅ ∅ ∅ false None) (managers demo_observed !! 0).

(** The steps of the round trip on [context.o]. *)
Definition roundtrip_observe : result (option removeListener) * State :=
  observe 0 "context.o" (Some (Listener "u1" (LApp 7 false))) demo.

Definition roundtrip_remove_fn : removeListener :=
  match roundtrip_observe.1 with
  | Ok (Some remove) => remove
  | _ => RNoop
  end.

Definition roundtrip_remove : result unit * State :=
  call_remove roundtrip_remove_fn roundtrip_observe.2.

Definition roundtrip_assign : result unit * State :=
  Put (VRef 1) "o" (VNum 6) roundtrip_remove.2.

(** The steps of a wrapped [push]. *)
Definition fan_start : State :=
  (bind (observe 0 "context.items.length" (Some (Listener "u1" (LApp 7 false))))
        (fun _ => observeArray 0 "u1" (CApp 8 false) "context.items" (VRef 2) VNull) demo).2.

Definition fan_slice : result value * State := native_slice0 2 fan_start.

Definition fan_apply : result value * State :=
  observedArrayFn_apply 0 "context.items" "push" 2 [VNum 4] (VRef 4) fan_slice.2.

(** A check of [closed] that computes. *)
Definition validb (st : State) (v : value) : bool :=
  match v with
  | VRef l => Nat.ltb l (length (heap st))
  | _ => true
  end.

Definition slot_validb (st : State) (s : slot) : bool :=
  match s with
  | Data v _ => validb st v
  | Accessor a => validb st (a_value a) && Nat.ltb (a_manager a) (length (managers st))
  end.

Definition closedb (st : State) : bool :=
  forallb (fun o => forallb (fun kp => slot_validb st (p_slot kp.2)) (map_to_list (o_props o)))
          (heap st).

(** ** Specifications for the further properties *)

(** [identifier] is filed under [k] in the index [h]. *)
Definition linked (identifier : string) (h : gmap string (list string)) (k : string) : Prop :=
  identifier ∈ default [] (h !! k).

(** The index [h'] has the entries and the links of [h]. *)
Definition grows (h h' : gmap string (list string)) : Prop :=
  forall k, (is_Some (h !! k) -> is_Some (h' !! k))
            /\ forall x, x ∈ default [] (h !! k) -> x ∈ default [] (h' !! k).

(** Every property of every object holds the value it held; the [length]
    of an array is left out, which grows when an element is defined beyond
    it. *)
Definition same_values (st st' : State) : Prop :=
  forall l k, k ≠ "length" -> peek (heap st') (VRef l) k = peek (heap st) (VRef l) k.

(** A projection of the state keeps its value. *)
Definition keeps {A} (f : State -> A) (st st' : State) : Prop := f st' = f st.

(** Nothing but the heap differs. *)
Definition heap_only (st st' : State) : Prop := st' = set_heap (heap st') st.

(** The registrations are among those there were. *)
Definition reg_shrinks (st st' : State) : Prop :=
  forall m i l, reg_at st' m i l -> reg_at st m i l.

(** ** More of the small application, for the examples *)

(** The control before [ContextManager.getManager]. *)
Definition demo_bare : State :=
  St demo_heap [] ∅ ∅ [] true true (fun l => l) [].

(** An engine with no access to the prototype of an object. *)
Definition demo_no_proto : State :=
  St demo_heap [Mgr (VRef 0) ∅ ∅ ∅ false None] {["u1" := 0]} ∅ [] false false (fun l => l) [].

(** The manager disposed. *)
Definition demo_disposed : State := (dispose 0 demo).2.

(** A listener on [context.o], and on [context.o.p.q.r], which is not
    there. *)
Definition demo_object : State := roundtrip_observe.2.

Definition demo_deep : State :=
  (observe 0 "context.o.p.q.r" (Some (Listener "u1" (LApp 1 false))) demo).2.

(** The static [dispose] of the control, once [context.n] is observed, and
    once [context.items] is. *)
Definition demo_observed_disposed : State :=
  (ContextManager_dispose keep_target (VRef 0) false demo_observed).2.

Definition fan_disposed : State :=
  (ContextManager_dispose keep_target (VRef 0) false fan_start).2.

(** * The event manager

    Source: the same file, module [plat.events], class [EventManager]: the
    registry of event listeners per control uid, and the dispatch of an event
    up the parents of its sender, down its child controls, or directly to
    every registered uid.

    - A control is what the dispatch loops read of it: [uid], [parent] and
      [controls].
    - A listener array is shared between the registry and the function [on]
      returns, so the arrays live in a store of their own and are named by
      their index in it.
    - An application listener records its call; it may clear the flag of the
      event in the public table [propagatingEvents], and it may throw.  It
      does not call back into the event manager.
    - The loops of [_dispatchUp] and [_dispatchDown] run on [fuel]; a run that
      has none left answers [Beyond].
    - [initialize] and [dispatch] work on the document and on the injector
      and are not part of the model. *)

Module Events.

#[local] Unset Elimination Schemes.

Inductive control :=
  | Control (uid : option string) (parent : option control) (controls : option (list control)).

#[local] Set Elimination Schemes.

Definition uid (c : control) : option string :=
  match c with Control u _ _ => u end.

Definition parent (c : control) : option control :=
  match c with Control _ p _ => p end.

Definition controls (c : control) : option (list control) :=
  match c with Control _ _ cs => cs end.

Record IDispatchEvent := DispatchEvent {
  name : string;
  sender : option control;
  direction : string
}.

Record handler := Handler {
  id : nat;
  stops : bool;       (* writes [false] to [propagatingEvents[ev.name]] *)
  throws : bool
}.

Record IEventsListener := EventsListener {
  listeners : gmap string nat;      (* event name to listener array *)
  context : value
}.

Inductive call :=
  | Applied (id : nat) (context : value) (ev : IDispatchEvent) (args : list value)
  | Warn (e : exn).

Record EventManager := Static {
  __eventsListeners : dict IEventsListener;
  arrays : list (list handler);
  propagatingEvents : gmap string bool;
  calls : list call
}.

Definition E (A : Type) := EventManager -> result A * EventManager.

Definition ret {A} (a : A) : E A := fun st => (Ok a, st).
Definition throw {A} (e : exn) : E A := fun st => (Throw e, st).
Definition beyond {A} : E A := fun st => (Beyond, st).

Definition bind {A B} (c : E A) (f : A -> E B) : E B :=
  fun st =>
    match c st with
    | (Ok a, st') => f a st'
    | (Throw e, st') => (Throw e, st')
    | (Beyond, st') => (Beyond, st')
    end.

Declare Scope events_scope.
Notation "x <- c ;; k" := (bind c (fun x => k))
  (at level 100, c at next level, right associativity) : events_scope.
Notation "c ;;; k" := (bind c (fun _ => k))
  (at level 100, right associativity) : events_scope.
#[local] Open Scope events_scope.

(** [try { c } catch (e) { h(e) }] *)
Definition try_catch (c : E unit) (h : exn -> E unit) : E unit :=
  fun st =>
    match c st with
    | (Throw e, st') => h e st'
    | r => r
    end.

Definition get_state : E EventManager := fun st => (Ok st, st).
Definition modify (f : EventManager -> EventManager) : E unit := fun st => (Ok tt, f st).

Definition set_eventsListeners (x : dict IEventsListener) (st : EventManager) : EventManager :=
  Static x (arrays st) (propagatingEvents st) (calls st).

Definition set_arrays (x : list (list handler)) (st : EventManager) : EventManager :=
  Static (__eventsListeners st) x (propagatingEvents st) (calls st).

Definition set_propagatingEvents (x : gmap string bool) (st : EventManager) : EventManager :=
  Static (__eventsListeners st) (arrays st) x (calls st).

Definition set_listeners (x : gmap string nat) (eventsListener : IEventsListener)
    : IEventsListener :=
  EventsListener x (context eventsListener).

Definition set_calls (x : list call) (st : EventManager) : EventManager :=
  Static (__eventsListeners st) (arrays st) (propagatingEvents st) x.

Definition emit (c : call) : E unit := modify (fun st => set_calls (calls st ++ [c]) st).

(** [EventManager.propagatingEvents[name]] as a condition. *)
Definition propagating (st : EventManager) (name : string) : bool :=
  default false (propagatingEvents st !! name).

(** [listener.apply(context, [ev].concat(args))] *)
Definition apply (listener : handler) (context : value) (ev : IDispatchEvent)
    (args : list value) : E unit :=
  emit (Applied (id listener) context ev args) ;;;
  (if stops listener
   then modify (fun st => set_propagatingEvents (<[name ev := false]> (propagatingEvents st)) st)
   else ret tt) ;;;
  if throws listener then throw (ListenerError (id listener)) else ret tt.

(** [$ExceptionStatic.warn(e, Exception.EVENT)] *)
Definition warn (e : exn) : E unit := emit (Warn e).

(** The function [on] returns: it holds the listener array and the index
    the listener had when it was pushed. *)
Inductive IRemoveListener :=
  | Splice (eventListeners : nat) (index : nat).

(** [eventListeners.splice(index, 1)] *)
Definition call_remove (r : IRemoveListener) : E unit :=
  match r with
  | Splice eventListeners index =>
      modify (fun st =>
        match arrays st !! eventListeners with
        | Some ls => set_arrays (<[eventListeners := delete index ls]> (arrays st)) st
        | None => st
        end)
  end.

Definition dispose (uid : string) : E unit :=
  modify (fun st => set_eventsListeners (ddel (__eventsListeners st) uid) st).

Definition on (uid eventName : string) (listener : handler) (context : value)
    : E IRemoveListener :=
  st <- get_state ;;
  eventsListener <-
    match dget (__eventsListeners st) uid with
    | Some eventsListener => ret eventsListener
    | None =>
        let eventsListener := EventsListener ∅ context in
        modify (set_eventsListeners (dset (__eventsListeners st) uid eventsListener)) ;;;
        ret eventsListener
    end ;;
  eventListeners <-
    match listeners eventsListener !! eventName with
    | Some eventListeners => ret eventListeners
    | None =>
        st <- get_state ;;
        let eventListeners := length (arrays st) in
        modify (fun st =>
          set_arrays (arrays st ++ [[]])
            (set_eventsListeners
               (dset (__eventsListeners st) uid
                  (set_listeners (<[eventName := eventListeners]> (listeners eventsListener))
                                 eventsListener)) st)) ;;;
        ret eventListeners
    end ;;
  st <- get_state ;;
  match arrays st !! eventListeners with
  | None => beyond
  | Some ls =>
      modify (set_arrays (<[eventListeners := ls ++ [listener]]> (arrays st))) ;;;
      let index := length (ls ++ [listener]) - 1 in
      ret (Splice eventListeners index)
  end.

Definition hasDirection (direction : string) : bool :=
  String.eqb direction "up" || String.eqb direction "down" || String.eqb direction "direct".

(** The [while] loop of [__callListeners]: [index] is the index of the next
    listener, [n] what is left of the [length] read before the loop. *)
Fixpoint callListeners_loop (context : value) (ev : IDispatchEvent) (listeners : nat)
    (args : list value) (index n : nat) : E unit :=
  match n with
  | O => ret tt
  | S n' =>
      st <- get_state ;;
      if propagating st (name ev) then
        try_catch
          match arrays st !! listeners ≫= (fun ls => ls !! index) with
          | Some listener => apply listener context ev args
          | None => throw TypeError
          end
          warn ;;;
        callListeners_loop context ev listeners args (S index) n'
      else ret tt
  end.

Definition __callListeners (context : value) (ev : IDispatchEvent) (listeners : nat)
    (args : list value) : E unit :=
  st <- get_state ;;
  match arrays st !! listeners with
  | None => beyond
  | Some ls => callListeners_loop context ev listeners args 0 (length ls)
  end.

Definition __executeEvent (uid : string) (ev : IDispatchEvent) (args : list value) : E unit :=
  st <- get_state ;;
  match dget (__eventsListeners st) uid with
  | None => ret tt
  | Some eventsListener =>
      match listeners eventsListener !! name ev with
      | None => ret tt
      | Some listeners => __callListeners (context eventsListener) ev listeners args
      end
  end.

(** The loop of [_dispatchUp]; the [continue] of a control with no uid
    leaves [parent] as it is. *)
Fixpoint dispatchUp_loop (fuel : nat) (event : IDispatchEvent) (args : list value)
    (parent_ : option control) : E unit :=
  match fuel with
  | O => beyond
  | S fuel =>
      st <- get_state ;;
      match parent_ with
      | None => ret tt
      | Some p =>
          if propagating st (name event) then
            match uid p with
            | None => dispatchUp_loop fuel event args parent_
            | Some u =>
                __executeEvent u event args ;;;
                dispatchUp_loop fuel event args (parent p)
            end
          else ret tt
      end
  end.

Definition _dispatchUp (fuel : nat) (event : IDispatchEvent) (args : list value) : E unit :=
  dispatchUp_loop fuel event args (sender event).

(** The loop of [_dispatchDown]; [controls_] is the array of controls still
    to visit, [pop] takes its last element. *)
Fixpoint dispatchDown_loop (fuel : nat) (event : IDispatchEvent) (args : list value)
    (controls_ : list (option control)) : E unit :=
  match fuel with
  | O => beyond
  | S fuel =>
      st <- get_state ;;
      match pop controls_ with
      | None => ret tt
      | Some (control, controls_) =>
          if propagating st (name event) then
            match control with
            | None => throw TypeError
            | Some c =>
                match uid c with
                | None => dispatchDown_loop fuel event args controls_
                | Some u =>
                    __executeEvent u event args ;;;
                    match controls c with
                    | None => dispatchDown_loop fuel event args controls_
                    | Some cs => dispatchDown_loop fuel event args (controls_ ++ (Some <$> cs))
                    end
                end
            end
          else ret tt
      end
  end.

Definition _dispatchDown (fuel : nat) (event : IDispatchEvent) (args : list value) : E unit :=
  dispatchDown_loop fuel event args [sender event].

(** The [for] loop of [_dispatchDirect] over the uids read before it. *)
Fixpoint dispatchDirect_loop (event : IDispatchEvent) (args : list value) (uids : list string)
    : E unit :=
  match uids with
  | [] => ret tt
  | u :: uids' =>
      st <- get_state ;;
      if negb (propagating st (name event)) then ret tt
      else
        match dget (__eventsListeners st) u with
        | None => dispatchDirect_loop event args uids'
        | Some eventsListener =>
            match listeners eventsListener !! name event with
            | None => dispatchDirect_loop event args uids'
            | Some listeners =>
                __callListeners (context eventsListener) event listeners args ;;;
                dispatchDirect_loop event args uids'
            end
        end
  end.

Definition _dispatchDirect (event : IDispatchEvent) (args : list value) : E unit :=
  st <- get_state ;;
  dispatchDirect_loop event args (dkeys (__eventsListeners st)).

Definition sendEvent (fuel : nat) (event : IDispatchEvent) (args : list value) : E unit :=
  let name := name event in
  let direction := direction event in
  modify (fun st => set_propagatingEvents (<[name := true]> (propagatingEvents st)) st) ;;;
  (if String.eqb direction "up" then _dispatchUp fuel event args
   else if String.eqb direction "down" then _dispatchDown fuel event args
   else if String.eqb direction "direct" then _dispatchDirect event args
   else ret tt) ;;;
  modify (fun st => set_propagatingEvents (delete name (propagatingEvents st)) st).

(** ** Specifications for the event manager *)

(** The listener array registered for [uid] and [eventName]. *)
Definition array_of (st : EventManager) (uid eventName : string) : option nat :=
  dget (__eventsListeners st) uid ≫= fun eventsListener => listeners eventsListener !! eventName.

(** The listeners registered for [uid] and [eventName], in the order of the
    array. *)
Definition handlers_of (st : EventManager) (uid eventName : string) : list handler :=
  default [] (array_of st uid eventName ≫= fun a => arrays st !! a).

(** The context the listeners of [uid] are applied to. *)
Definition context_of (st : EventManager) (uid : string) : value :=
  default VUndef (context <$> dget (__eventsListeners st) uid).

(** The registry is well formed: a uid is a key once, every listener array
    it names is in the store, and no array is named twice. *)
Definition wf (st : EventManager) : Prop :=
  NoDup (dkeys (__eventsListeners st))
  /\ (forall u e a, array_of st u e = Some a -> a < length (arrays st))
  /\ (forall u e u' e' a,
        array_of st u e = Some a -> array_of st u' e' = Some a -> u = u' /\ e = e').

(** Two states with the same registry and the same listener arrays. *)
Definition same_registry (st st' : EventManager) : Prop :=
  __eventsListeners st' = __eventsListeners st /\ arrays st' = arrays st.

(** What a call of a listener records: the call, and the warning when the
    listener throws. *)
Definition applied (context : value) (ev : IDispatchEvent) (args : list value)
    (listener : handler) : list call :=
  Applied (id listener) context ev args ::
  if throws listener then [Warn (ListenerError (id listener))] else [].

(** The listeners up to the first one that stops the event, that one
    included. *)
Fixpoint until_stop (ls : list handler) : list handler :=
  match ls with
  | [] => []
  | l :: ls' => if stops l then [l] else l :: until_stop ls'
  end.

(** The state after the listeners [ls] have been offered the event. *)
Definition offered (context : value) (ev : IDispatchEvent) (args : list value)
    (ls : list handler) (st : EventManager) : EventManager :=
  if propagating st (name ev) then
    set_calls (calls st ++ flat_map (applied context ev args) (until_stop ls))
      (if existsb stops ls
       then set_propagatingEvents (<[name ev := false]> (propagatingEvents st)) st
       else st)
  else st.

(** The state after the event has been delivered to [uid]. *)
Definition delivered (ev : IDispatchEvent) (args : list value) (st : EventManager)
    (uid : string) : EventManager :=
  offered (context_of st uid) ev args (handlers_of st uid (name ev)) st.

(** What the listeners of [uid] record when none of them stops the event. *)
Definition calls_of (st : EventManager) (ev : IDispatchEvent) (args : list value)
    (uid : string) : list call :=
  flat_map (applied (context_of st uid) ev args) (handlers_of st uid (name ev)).

(** No listener registered for the event stops it. *)
Definition unstopped (st : EventManager) (eventName : string) : Prop :=
  forall u l, l ∈ handlers_of st u eventName -> stops l = false.

(** A control and its parents, from the control up. *)
Fixpoint ancestors (c : control) : list control :=
  match c with
  | Control _ p _ => c :: match p with Some p' => ancestors p' | None => [] end
  end.

(** The uids in the order [_dispatchDown] visits a control and the controls
    below it: the control, then its children from the last to the first,
    each with what is below it; a control with no uid is passed over with
    everything below it. *)
Fixpoint descent (c : control) : list string :=
  match c with
  | Control None _ _ => []
  | Control (Some u) _ None => [u]
  | Control (Some u) _ (Some cs) =>
      u :: (fix below (cs : list control) : list string :=
              match cs with
              | [] => []
              | c' :: cs' => below cs' ++ descent c'
              end) cs
  end.

(** The number of controls [_dispatchDown] may visit from [c]. *)
Fixpoint size (c : control) : nat :=
  match c with
  | Control _ _ None => 1
  | Control _ _ (Some cs) =>
      S ((fix sizes (cs : list control) : nat :=
            match cs with
            | [] => 0
            | c' :: cs' => size c' + sizes cs'
            end) cs)
  end.

(** ** A small registry, for the examples *)

Definition no_events : EventManager := Static [] [] ∅ [].

(** A listener that returns, one that throws, one that stops the event. *)
Definition quiet (id : nat) : handler := Handler id false false.
Definition thrower (id : nat) : handler := Handler id false true.
Definition stopper (id : nat) : handler := Handler id true false.

(** The state after a call of [on], and the function it returns. *)
Definition registered (uid eventName : string) (listener : handler) (context : value)
    (st : EventManager) : EventManager :=
  (on uid eventName listener context st).2.

Definition remover (uid eventName : string) (listener : handler) (context : value)
    (st : EventManager) : IRemoveListener :=
  match (on uid eventName listener context st).1 with
  | Ok remove => remove
  | _ => Splice 0 0
  end.

(** The state after a call of [dispose], and after a call of a function
    [on] returned. *)
Definition disposed (uid : string) (st : EventManager) : EventManager := (dispose uid st).2.

Definition removed (remove : IRemoveListener) (st : EventManager) : EventManager :=
  (call_remove remove st).2.

(** The state in which [sendEvent] has set the flag of the event. *)
Definition in_flight (eventName : string) (st : EventManager) : EventManager :=
  set_propagatingEvents (<[eventName := true]> (propagatingEvents st)) st.

(** The page and the view listen to [ready]; the first listener of the view
    throws. *)
Definition bus : EventManager :=
  registered "view" "ready" (quiet 3) (VStr "view")
    (registered "view" "ready" (thrower 2) (VStr "view")
       (registered "page" "ready" (quiet 1) (VStr "page") no_events)).

(** ... and the view gets a listener that stops the event, and one after
    it. *)
Definition bus_stopper : EventManager :=
  registered "view" "ready" (quiet 5) VNull
    (registered "view" "ready" (stopper 4) VNull bus).

(** The view in the page; a view whose parent has no uid; the page with a
    menu and the view below it. *)
Definition page : control := Control (Some "page") None None.

Definition view : control := Control (Some "view") (Some page) None.

Definition loose_view : control :=
  Control (Some "view") (Some (Control None (Some page) None)) None.

Definition page_tree : control :=
  Control (Some "page") None (Some [Control (Some "menu") None None; view]).

Definition ready (sender : control) (direction : string) : IDispatchEvent :=
  DispatchEvent "ready" (Some sender) direction.

(** Three listeners of the view registered in a row, and the functions
    [on] returned for the first two. *)
Definition row_1 : EventManager := registered "view" "ready" (quiet 1) VNull no_events.

Definition row_2 : EventManager := registered "view" "ready" (quiet 2) VNull row_1.

Definition row_3 : EventManager := registered "view" "ready" (quiet 3) VNull row_2.

Definition remove_1 : IRemoveListener := remover "view" "ready" (quiet 1) VNull no_events.

Definition remove_2 : IRemoveListener := remover "view" "ready" (quiet 2) VNull row_1.

(** The view disposed after its first registration, and registered
    again. *)
Definition row_again : EventManager :=
  registered "view" "ready" (quiet 8) (VStr "new") (disposed "view" row_1).

End Events.
(** * Proofs *)

(** ** Stepping through computations *)

Lemma bind_eq {A B} (c : M A) (f : A -> M B) st r st' :
  bind c f st = (r, st') ->
  match c st with
  | (Ok a, s1) => f a s1 = (r, st')
  | (Throw e, s1) => r = Throw e /\ st' = s1
  | (Beyond, s1) => r = Beyond /\ st' = s1
  end.
Proof.
  unfold bind. destruct (c st) as [[a|e|] s1]; intros H; [done | by inversion H | by inversion H].
Qed.

Lemma bind_ok {A B} (c : M A) (f : A -> M B) st a s1 :
  c st = (Ok a, s1) -> bind c f st = f a s1.
Proof. unfold bind. by intros ->. Qed.

Lemma bind_throw {A B} (c : M A) (f : A -> M B) st e s1 :
  c st = (Throw e, s1) -> bind c f st = (Throw e, s1).
Proof. unfold bind. by intros ->. Qed.

Section Preserves.
Context (R : State -> State -> Prop) `{!PreOrder R}.

Lemma preserves_ret {A} (a : A) : preserves R (ret a).
Proof. intros st r st' H. inversion H. reflexivity. Qed.

Lemma preserves_throw {A} e : preserves R (@throw A e).
Proof. intros st r st' H. inversion H. reflexivity. Qed.

Lemma preserves_beyond {A} : preserves R (@beyond A).
Proof. intros st r st' H. inversion H. reflexivity. Qed.

Lemma preserves_get_state : preserves R get_state.
Proof. intros st r st' H. inversion H. reflexivity. Qed.

Lemma preserves_isArray v : preserves R (isArray v).
Proof. intros st r st' H. inversion H. reflexivity. Qed.

Lemma preserves_the_obj l : preserves R (the_obj l).
Proof. intros st r st'. unfold the_obj. destruct (heap st !! l); intros H; inversion H; reflexivity. Qed.

Lemma preserves_the_manager m : preserves R (the_manager m).
Proof. intros st r st'. unfold the_manager. destruct (managers st !! m); intros H; inversion H; reflexivity. Qed.

Lemma preserves_bind {A B} (c : M A) (f : A -> M B) :
  preserves R c -> (forall a, preserves R (f a)) -> preserves R (bind c f).
Proof.
  intros Hc Hf st r st' H. apply bind_eq in H.
  destruct (c st) as [[a|e|] s1] eqn:E.
  - etransitivity; [exact (Hc _ _ _ E) | exact (Hf _ _ _ _ H)].
  - destruct H as [_ ->]. exact (Hc _ _ _ E).
  - destruct H as [_ ->]. exact (Hc _ _ _ E).
Qed.

Lemma preserves_for_each {A} (l : list A) (body : A -> M unit) :
  (forall x, preserves R (body x)) -> preserves R (for_each l body).
Proof.
  intros Hb. induction l as [|x l IH]; simpl.
  - apply preserves_ret.
  - apply preserves_bind; [apply Hb | intros _; exact IH].
Qed.
End Preserves.

Lemma preserves_weaken (R R' : State -> State -> Prop) {A} (c : M A) :
  (forall st st', R st st' -> R' st st') -> preserves R c -> preserves R' c.
Proof. intros HR Hc st r st' H. apply HR. exact (Hc _ _ _ H). Qed.


Create HintDb pres.

Ltac pres_step :=
  first
    [ apply preserves_ret; solve [typeclasses eauto]
    | apply preserves_throw; solve [typeclasses eauto]
    | apply preserves_beyond; solve [typeclasses eauto]
    | apply preserves_get_state; solve [typeclasses eauto]
    | apply preserves_isArray; solve [typeclasses eauto]
    | apply preserves_the_obj; solve [typeclasses eauto]
    | apply preserves_the_manager; solve [typeclasses eauto]
    | solve [eauto 2 with pres]
    | apply preserves_bind; [typeclasses eauto | | intros ]
    | apply preserves_for_each; [typeclasses eauto | intros ]
    | match goal with
      | |- preserves _ (if ?b then _ else _) => destruct b
      | |- preserves _ (match ?x with _ => _ end) => destruct x
      | |- preserves _ (let _ := _ in _) => cbv zeta
      end ].

Ltac pres := repeat pres_step.

(** ** Reading properties *)

#[local] Instance same_but_observed_equiv : Equivalence same_but_observed.
Proof.
  unfold same_but_observed. split.
  - by intros a.
  - by intros a b.
  - intros a b c H1 H2. by rewrite H1.
Qed.

#[local] Instance get_rel_preorder : PreOrder get_rel.
Proof.
  split.
  - intros st. split; [reflexivity | by destruct st].
  - intros a b c [F1 E1] [F2 E2]. split; [by etransitivity |].
    rewrite E2, E1. by destruct a.
Qed.

Lemma get_rel_heap st st' : get_rel st st' -> heap st' = heap st.
Proof. intros [_ ->]. done. Qed.

Lemma get_rel_length st st' : get_rel st st' -> length (managers st') = length (managers st).
Proof. intros [F _]. symmetry. by eapply Forall2_length. Qed.

Lemma get_rel_observed st m mg x :
  managers st !! m = Some mg ->
  get_rel st (set_managers (<[m := set_observedIdentifier x mg]> (managers st)) st).
Proof.
  intros Hm. split; [|done]. simpl.
  apply Forall2_same_length_lookup_2; [by rewrite length_insert |].
  intros i a b Ha Hb. destruct (decide (i = m)) as [->|Hne].
  - rewrite list_lookup_insert_eq in Hb by (by eapply lookup_lt_Some).
    assert (a = mg) by congruence. subst. by inversion Hb.
  - rewrite list_lookup_insert_ne in Hb by done. assert (a = b) by congruence. by subst.
Qed.

Lemma Get_get_rel v k : preserves get_rel (Get v k).
Proof.
  intros st r st' H. destruct v; simpl in H;
    try (unfold throw, ret in H; inversion H; subst; reflexivity).
  - destruct (String.eqb k "length"); [|destruct (index_of_key k); [destruct (String.get n s)|]];
      inversion H; reflexivity.
  - apply bind_eq in H. unfold the_obj in H.
    destruct (heap st !! l) as [o|]; [|destruct H as [_ ->]; reflexivity].
    destruct (o_isArray o && String.eqb k "length"); [inversion H; reflexivity|].
    destruct (o_props o !! k) as [p|]; [|inversion H; reflexivity].
    destruct (p_slot p) as [x w|a]; [inversion H; reflexivity|].
    apply bind_eq in H. unfold upd_manager in H.
    destruct (managers st !! a_manager a) as [mg|] eqn:Hm;
      [|destruct H as [_ ->]; reflexivity].
    inversion H; subst. by apply get_rel_observed.
Qed.

Lemma closed_get_rel st st' : get_rel st st' -> closed st -> closed st'.
Proof.
  intros HR Hc l o k p Ho Hp. pose proof (get_rel_heap _ _ HR) as Hh.
  pose proof (get_rel_length _ _ HR) as Hl. rewrite Hh in Ho.
  specialize (Hc l o k p Ho Hp). unfold slot_valid, valid in *.
  destruct (p_slot p) as [x w|a].
  - destruct x; try done. by rewrite Hh.
  - rewrite Hl. destruct (a_value a); try done. by rewrite Hh.
Qed.

Lemma valid_get_rel st st' v : get_rel st st' -> valid st v -> valid st' v.
Proof. intros HR. destruct v; try done. simpl. by rewrite (get_rel_heap _ _ HR). Qed.

(** On a closed state a read of a value that is not null answers what
    [peek] says. *)
Lemma Get_peek v k st :
  closed st -> valid st v -> isNull v = false ->
  exists st', Get v k st = (Ok (peek (heap st) v k), st')
              /\ get_rel st st' /\ valid st (peek (heap st) v k).
Proof.
  intros Hc Hv Hn. destruct v; try done; simpl.
  - eexists; split; [done|]. split; [reflexivity | done].
  - eexists; split; [done|]. split; [reflexivity | done].
  - eexists; split; [done|]. split; [reflexivity | done].
  - destruct (String.eqb k "length"); [|destruct (index_of_key k); [destruct (String.get n s)|]];
      (eexists; split; [done|]; split; [reflexivity | done]).
  - simpl in Hv. apply lookup_lt_is_Some_2 in Hv as [o Ho].
    unfold bind, the_obj. rewrite Ho.
    destruct (o_isArray o && String.eqb k "length").
    { eexists; split; [done|]. split; [reflexivity | done]. }
    destruct (o_props o !! k) as [p|] eqn:Hp.
    2:{ eexists; split; [done|]. split; [reflexivity | done]. }
    specialize (Hc l o k p Ho Hp). destruct (p_slot p) as [x w|a]; simpl in Hc.
    { eexists; split; [done|]. split; [reflexivity | done]. }
    destruct Hc as [Hva Hm]. apply lookup_lt_is_Some_2 in Hm as [mg Hm].
    unfold upd_manager. rewrite Hm. simpl.
    eexists; split; [done|]. split; [by apply get_rel_observed | done].
Qed.

Lemma getContext_loop_resolves split : forall root st,
  closed st -> valid st root -> isNull root = false ->
  exists st', getContext_loop root split st = (Ok (resolve (heap st) root split), st')
              /\ get_rel st st'.
Proof.
  induction split as [|k split IH]; intros root st Hc Hv Hn; simpl.
  - rewrite Hn. eexists; split; [done | reflexivity].
  - rewrite Hn. destruct (Get_peek root k st Hc Hv Hn) as (s1 & HG & HR & Hv1).
    rewrite (bind_ok _ _ _ _ _ HG).
    destruct (isNull (peek (heap st) root k)) eqn:Hn1.
    + exists s1. split; [|done]. destruct split; simpl; by rewrite Hn1.
    + destruct (IH (peek (heap st) root k) s1) as (s2 & HL & HR2).
      * by eapply closed_get_rel.
      * by eapply valid_get_rel.
      * done.
      * exists s2. rewrite HL, (get_rel_heap _ _ HR). split; [done | by etransitivity].
Qed.

(** C8. The static path resolver [ContextManager.getContext] on a
    well-formed state: it does not throw; its answer is the one of the
    resolver the specification describes, so the null sentinel as soon as
    the root or an intermediate value is null or undefined; the segment list
    of the caller is as it was; the heap (the root object and everything it
    reaches) and the registries are as they were: the state differs at most
    in the [__observedIdentifier] the getters on the path have set. *)
Theorem getContext_resolves (rootContext : value) (split : list string) (st : State) :
  closed st -> valid st rootContext ->
  exists st',
    ContextManager_getContext rootContext split st
      = (Ok (resolve (heap st) rootContext split, split), st')
    /\ heap st' = heap st
    /\ get_rel st st'.
Proof.
  intros Hc Hv. unfold ContextManager_getContext.
  destruct (isNull rootContext) eqn:Hn.
  - exists st. split; [|split; [done | reflexivity]].
    unfold ret. do 2 f_equal. destruct split; simpl; by rewrite Hn.
  - destruct (getContext_loop_resolves split rootContext st Hc Hv Hn) as (st' & HL & HR).
    exists st'. rewrite (bind_ok _ _ _ _ _ HL). split; [done|].
    split; [by apply get_rel_heap | done].
Qed.

(** ** What assignments and the manager's bookkeeping may change *)

Lemma reg_at_same st st' m ident l :
  identifiers <$> managers st' = identifiers <$> managers st ->
  reg_at st' m ident l -> reg_at st m ident l.
Proof.
  intros E (mg & ls & Hm & Hi & Hl).
  assert ((identifiers <$> managers st) !! m = Some (identifiers mg)) as H.
  { rewrite <- E, list_lookup_fmap, Hm. done. }
  rewrite list_lookup_fmap in H. destruct (managers st !! m) as [mg0|] eqn:Hm0; [|done].
  simpl in H. inversion H as [H1]. exists mg0, ls. by rewrite H1.
Qed.

Lemma registered_same st st' id :
  identifiers <$> managers st' = identifiers <$> managers st ->
  registered id st' -> registered id st.
Proof.
  intros E (m & ident & l & Hr & Ha). exists m, ident, l. split; [|done].
  by eapply reg_at_same.
Qed.

#[local] Instance silent_rel_preorder : PreOrder silent_rel.
Proof.
  split.
  - intros st. by repeat split.
  - intros a b c (I1 & G1 & L1) (I2 & G2 & L2). repeat split; congruence.
Qed.

#[local] Instance put_rel_preorder : PreOrder put_rel.
Proof.
  split.
  - intros st. repeat split; try done. exists []. by rewrite app_nil_r.
  - intros a b c (I1 & G1 & n1 & L1 & F1) (I2 & G2 & n2 & L2 & F2).
    split; [congruence|]. split; [congruence|].
    exists (n1 ++ n2). split; [by rewrite L2, L1, app_assoc|].
    apply Forall_app. split; [done|].
    eapply Forall_impl; [exact F2|]. intros [id nv ov|id ev|w]; simpl; try done.
    by apply registered_same.
Qed.

Lemma get_rel_silent st st' : get_rel st st' -> silent_rel st st'.
Proof.
  intros [F E]. split; [|split].
  - symmetry. apply list_eq_Forall2, Forall2_fmap.
    eapply Forall2_impl; [exact F|]. intros a b H. unfold same_but_observed in H.
    by inversion H.
  - symmetry. apply list_eq_Forall2, Forall2_fmap.
    eapply Forall2_impl; [exact F|]. intros a b H. unfold same_but_observed in H.
    by inversion H.
  - rewrite E. done.
Qed.

Lemma silent_put st st' : silent_rel st st' -> put_rel st st'.
Proof.
  intros (I & G & L). repeat split; try done. exists []. by rewrite app_nil_r.
Qed.

Lemma silent_heap st h : silent_rel st (set_heap h st).
Proof. by repeat split. Qed.

Lemma silent_static st f :
  managers (f st) = managers st -> log (f st) = log st -> silent_rel st (f st).
Proof. intros Hm Hl. unfold silent_rel. by rewrite Hm, Hl. Qed.

Lemma silent_manager st m mg f :
  managers st !! m = Some mg ->
  identifiers (f mg) = identifiers mg -> isArrayFunction (f mg) = isArrayFunction mg ->
  silent_rel st (set_managers (<[m := f mg]> (managers st)) st).
Proof.
  intros Hm Hi Hg. split; [|split]; simpl.
  - rewrite list_fmap_insert, Hi. apply list_insert_id. by rewrite list_lookup_fmap, Hm.
  - rewrite list_fmap_insert, Hg. apply list_insert_id. by rewrite list_lookup_fmap, Hm.
  - done.
Qed.

Lemma upd_obj_silent l f : preserves silent_rel (upd_obj l f).
Proof.
  intros st r st'. unfold upd_obj. destruct (heap st !! l); intros H; inversion H.
  - apply silent_heap.
  - reflexivity.
Qed.

Lemma alloc_silent o : preserves silent_rel (alloc o).
Proof. intros st r st' H. inversion H. apply silent_heap. Qed.

Lemma upd_manager_silent m f :
  (forall mg, identifiers (f mg) = identifiers mg) ->
  (forall mg, isArrayFunction (f mg) = isArrayFunction mg) ->
  preserves silent_rel (upd_manager m f).
Proof.
  intros Hi Hg st r st'. unfold upd_manager.
  destruct (managers st !! m) eqn:Hm; intros H; inversion H.
  - by apply silent_manager.
  - reflexivity.
Qed.

Lemma modify_silent f :
  (forall st, managers (f st) = managers st) -> (forall st, log (f st) = log st) ->
  preserves silent_rel (modify f).
Proof. intros Hm Hl st r st' H. inversion H. by apply silent_static. Qed.

Lemma Get_silent v k : preserves silent_rel (Get v k).
Proof. eapply preserves_weaken; [apply get_rel_silent | apply Get_get_rel]. Qed.

#[local] Hint Resolve upd_obj_silent alloc_silent Get_silent : pres.
#[local] Hint Extern 1 (preserves silent_rel (upd_manager _ _)) =>
  apply upd_manager_silent; intros; reflexivity : pres.
#[local] Hint Extern 1 (preserves silent_rel (modify _)) =>
  apply modify_silent; intros; reflexivity : pres.
#[local] Hint Extern 1 (preserves silent_rel (cache _ _ _)) =>
  apply upd_manager_silent; intros; reflexivity : pres.

Lemma defineData_silent t k v e c : preserves silent_rel (defineData t k v e c).
Proof. unfold defineData. pres. Qed.

Lemma defineAccessor_silent t k a : preserves silent_rel (defineAccessor t k a).
Proof. unfold defineAccessor. pres. Qed.

#[local] Hint Resolve defineData_silent defineAccessor_silent : pres.

Lemma __defineObject_silent m i c k : preserves silent_rel (__defineObject m i c k).
Proof. unfold __defineObject. pres. Qed.

Lemma __definePrimitive_silent m i c k : preserves silent_rel (__definePrimitive m i c k).
Proof. unfold __definePrimitive. pres. Qed.

#[local] Hint Resolve __defineObject_silent __definePrimitive_silent : pres.

Lemma _define_silent m i c k : preserves silent_rel (_define m i c k).
Proof. unfold _define. pres. Qed.

Lemma observeArray_silent m u c a x y : preserves silent_rel (observeArray m u c a x y).
Proof.
  unfold observeArray, observeArray_restore, observeArray_install, clear_instrumented. pres.
Qed.

Lemma store_value_silent l k a v : preserves silent_rel (store_value l k a v).
Proof. unfold store_value. pres. Qed.

Lemma Delete_silent l k : preserves silent_rel (Delete l k).
Proof. unfold Delete. pres. Qed.

Lemma HasProperty_silent l k : preserves silent_rel (HasProperty l k).
Proof. unfold HasProperty. pres. Qed.

#[local] Hint Resolve _define_silent observeArray_silent store_value_silent
  Delete_silent HasProperty_silent : pres.

(** What is silent is in particular what an assignment may do. *)
#[local] Hint Extern 5 (preserves put_rel _) =>
  (eapply preserves_weaken; [exact silent_put | solve [eauto 2 with pres]]) : pres.

Lemma emit_notified_put id v o st :
  registered id st -> put_rel st (set_log (log st ++ [Notified id v o]) st).
Proof.
  intros H. repeat split; try done. exists [Notified id v o]. split; [done|].
  by apply Forall_singleton.
Qed.

Lemma call_listener_put l v o st r st' :
  match l with LApp id _ => registered id st | _ => True end ->
  call_listener l v o st = (r, st') -> put_rel st st'.
Proof.
  intros Hr H. destruct l as [id thr|m u j]; simpl in H.
  - apply bind_eq in H. unfold emit, modify in H.
    destruct thr; inversion H; subst; by apply emit_notified_put.
  - apply silent_put. by eapply observeArray_silent.
Qed.

Lemma execute_loop_put ls v o : forall st r st',
  (forall l, l ∈ ls -> match l_listener l with LApp id _ => registered id st | _ => True end) ->
  execute_loop ls v o st = (r, st') -> put_rel st st'.
Proof.
  induction ls as [|l ls IH]; intros st r st' Hr H; simpl in H.
  - inversion H. reflexivity.
  - apply bind_eq in H.
    destruct (call_listener (l_listener l) v o st) as [[[]|e|] s1] eqn:E.
    + assert (put_rel st s1) as H1.
      { eapply call_listener_put; [|exact E]. apply Hr. by left. }
      etransitivity; [exact H1|]. eapply IH; [|exact H].
      intros l' Hl'. specialize (Hr l' (list_elem_of_further _ _ _ Hl')).
      destruct (l_listener l'); [|done].
      eapply registered_same; [|exact Hr]. symmetry. apply H1.
    + destruct H as [_ ->]. eapply call_listener_put; [|exact E]. apply Hr. by left.
    + destruct H as [_ ->]. eapply call_listener_put; [|exact E]. apply Hr. by left.
Qed.

Lemma _execute_put m i v o : preserves put_rel (_execute m i v o).
Proof.
  intros st r st' H. unfold _execute in H. apply bind_eq in H. unfold the_manager in H.
  destruct (managers st !! m) as [mg|] eqn:Hm; [|destruct H as [_ ->]; reflexivity].
  apply bind_eq in H.
  match type of H with context [upd_manager m ?f st] =>
    destruct (upd_manager m f st) as [[[]|e|] s1] eqn:E;
    assert (put_rel st s1) as H1 by (apply silent_put; eapply (upd_manager_silent m f); [done | done | exact E])
  end.
  - etransitivity; [exact H1|].
    destruct (identifiers mg !! i) as [ls|] eqn:Hi; [|inversion H; reflexivity].
    eapply execute_loop_put; [|exact H].
    intros l Hl. destruct (l_listener l) as [id thr|] eqn:Hf; [|done].
    eapply registered_same; [symmetry; apply H1|].
    exists m, i, l. split; [by exists mg, ls | by exists thr].
  - by destruct H as [_ ->].
  - by destruct H as [_ ->].
Qed.

#[local] Hint Resolve _execute_put : pres.

Lemma getValues_loop_put split : forall n o dn do_,
  preserves put_rel (getValues_loop split n o dn do_).
Proof.
  induction split as [|p split IH]; intros n o dn do_.
  - simpl. pres.
  - destruct split as [|q split].
    + simpl. pres.
    + change (getValues_loop (p :: q :: split) n o dn do_) with
        (newRootContext <- (if dn then Get n p else ret n) ;;
         let doNew := dn && negb (isNull newRootContext) in
         oldRootContext <- (if do_ then Get o p else ret o) ;;
         let doOld := do_ && negb (isNull oldRootContext) in
         if negb (doNew || doOld) then ret None
         else getValues_loop (q :: split) newRootContext oldRootContext doNew doOld).
      pres.
Qed.

Lemma _getValues_put split n o : preserves put_rel (_getValues split n o).
Proof. apply getValues_loop_put. Qed.

#[local] Hint Resolve _getValues_put : pres.

Lemma notifyChild_step_put m start n o values b :
  preserves put_rel (notifyChild_step m start n o values b).
Proof. unfold notifyChild_step. pres. Qed.

Lemma notifyChild_loop_put m start n o mappings : forall values,
  preserves put_rel (notifyChild_loop m start n o values mappings).
Proof.
  induction mappings as [|b mappings IH]; intros values; simpl.
  - pres.
  - apply preserves_bind; [typeclasses eauto | apply notifyChild_step_put | intros; apply IH].
Qed.

#[local] Hint Resolve notifyChild_loop_put : pres.

Lemma _notifyChildProperties_put m i n o : preserves put_rel (_notifyChildProperties m i n o).
Proof. unfold _notifyChildProperties. pres. Qed.

#[local] Hint Resolve _notifyChildProperties_put : pres.

Lemma setter_put l k a v : preserves put_rel (setter l k a v).
Proof. unfold setter. pres. Qed.

#[local] Hint Resolve setter_put : pres.

Lemma Put_put t k v : preserves put_rel (Put t k v).
Proof. unfold Put. pres. Qed.

#[local] Hint Resolve Put_put : pres.

(** ** The methods of [Array.prototype] change what assignments change *)

Lemma array_length_put this : preserves put_rel (array_length this).
Proof. unfold array_length. pres. Qed.

Lemma move_put this a b : preserves put_rel (move this a b).
Proof. unfold move. pres. Qed.

Lemma put_items_put this items : forall n, preserves put_rel (put_items this n items).
Proof. induction items as [|x items IH]; intros n; simpl; pres. Qed.

Lemma read_elements_put this ks : preserves put_rel (read_elements this ks).
Proof. induction ks as [|k ks IH]; simpl; pres. Qed.

Lemma copy_elements_put this ks : forall n acc, preserves put_rel (copy_elements this ks n acc).
Proof. induction ks as [|k ks IH]; intros n acc; simpl; pres. Qed.

Lemma toInteger_put v : preserves put_rel (toInteger v).
Proof. unfold toInteger. pres. Qed.

#[local] Hint Resolve array_length_put move_put put_items_put read_elements_put
  copy_elements_put toInteger_put : pres.

Lemma native_slice0_put this : preserves put_rel (native_slice0 this).
Proof. unfold native_slice0. pres. Qed.

Lemma native_put method this args : preserves put_rel (native method this args).
Proof.
  unfold native, native_push, native_pop, native_reverse, native_shift, native_sort,
    native_splice, native_unshift.
  pres.
Qed.

(** ** Removing listeners *)

Lemma removeCallback_loop_spec uid : forall n ls,
  n <= length ls ->
  removeCallback_loop uid n ls
  = filter (fun l => l_uid l ≠ uid) (take n ls) ++ drop n ls.
Proof.
  induction n as [|i IH]; intros ls Hn; simpl.
  - done.
  - destruct (lookup_lt_is_Some_2 ls i) as [c Hc]; [lia|]. rewrite Hc.
    rewrite (take_S_r _ _ _ Hc), filter_app.
    destruct (String.eqb (l_uid c) uid) eqn:Heq.
    + apply String.eqb_eq in Heq.
      rewrite IH by (rewrite length_delete by eauto; lia).
      rewrite delete_take_drop.
      rewrite take_app_length' by (rewrite length_take; lia).
      rewrite drop_app_length' by (rewrite length_take; lia).
      rewrite filter_cons_False by (simpl; intros H; by apply H).
      rewrite filter_nil. by rewrite app_nil_r.
    + apply String.eqb_neq in Heq.
      rewrite IH by lia. rewrite (drop_S _ _ _ Hc).
      rewrite filter_cons_True by done. rewrite filter_nil.
      by rewrite <- app_assoc.
Qed.

Lemma removeCallback_loop_filter uid ls :
  removeCallback_loop uid (length ls) ls = filter (fun l => l_uid l ≠ uid) ls.
Proof.
  rewrite removeCallback_loop_spec by lia.
  by rewrite firstn_all, drop_all, app_nil_r.
Qed.

(** What [_removeCallback] makes of a manager. *)
Lemma _removeCallback_manager m identifier uid st mg :
  managers st !! m = Some mg ->
  exists mg',
    _removeCallback m identifier uid st
      = (Ok tt, set_managers (<[m := mg']> (managers st)) st)
    /\ (forall i, i ≠ identifier -> identifiers mg' !! i = identifiers mg !! i)
    /\ identifiers mg' !! identifier
       = filter (fun l => l_uid l ≠ uid) <$> identifiers mg !! identifier
    /\ (identifiers mg' !! identifier = Some [] ->
        identifierHash mg' !! identifier = None /\ contextObjects mg' !! identifier = None).
Proof.
  intros Hm. unfold _removeCallback, bind, the_manager. rewrite Hm.
  destruct (identifiers mg !! identifier) as [ls|] eqn:Hi.
  - unfold upd_manager. rewrite Hm. eexists. split; [reflexivity|].
    rewrite removeCallback_loop_filter. simpl. rewrite lookup_insert_eq.
    destruct (filter (fun l => l_uid l ≠ uid) ls) as [|x ls'] eqn:Hf; simpl.
    + split; [intros i Hne; by rewrite lookup_insert_ne|].
      split; [by rewrite lookup_insert_eq|].
      intros _. by rewrite !lookup_delete_eq.
    + split; [intros i Hne; by rewrite lookup_insert_ne|].
      split; [by rewrite lookup_insert_eq|].
      rewrite lookup_insert_eq. done.
  - exists mg. split.
    + unfold ret. do 2 f_equal. rewrite list_insert_id by done. by destruct st.
    + split; [done|]. rewrite Hi. split; done.
Qed.

(** ** What observing may change *)

#[local] Instance obs_rel_preorder id : PreOrder (obs_rel id).
Proof.
  split.
  - intros st. split; [done|]. exists []. by rewrite app_nil_r.
  - intros a b c (R1 & n1 & L1 & F1) (R2 & n2 & L2 & F2). split; [by eauto|].
    exists (n1 ++ n2). split; [by rewrite L2, L1, app_assoc | by apply Forall_app].
Qed.

Lemma silent_obs id st st' : silent_rel st st' -> obs_rel id st st'.
Proof.
  intros (I & G & L). split.
  - intros m ident l _. by apply reg_at_same.
  - exists []. by rewrite app_nil_r.
Qed.

#[local] Hint Extern 5 (preserves (obs_rel _) _) =>
  (eapply preserves_weaken; [apply silent_obs | solve [eauto 2 with pres]]) : pres.

Lemma emit_warned_obs id w : preserves (obs_rel id) (emit (Warned w)).
Proof.
  intros st r st' H. inversion H. split; [done|]. exists [Warned w]. split; [done|].
  by apply Forall_singleton.
Qed.

Lemma pushRemoveListener_silent i u m :
  preserves silent_rel (ContextManager_pushRemoveListener i u m).
Proof. unfold ContextManager_pushRemoveListener. pres. Qed.

Lemma removeIdentifier_silent us i :
  preserves silent_rel (ContextManager_removeIdentifier us i).
Proof. unfold ContextManager_removeIdentifier. pres. Qed.

#[local] Hint Resolve emit_warned_obs pushRemoveListener_silent removeIdentifier_silent : pres.

(** [__add] registers [l] with manager [m] under [i], and nothing else. *)
Lemma __add_reg m i l st r st' :
  __add m i l st = (r, st') ->
  log st' = log st
  /\ forall m' ident l', reg_at st' m' ident l' ->
       reg_at st m' ident l' \/ (m' = m /\ ident = i /\ l' = l).
Proof.
  unfold __add, upd_manager. destruct (managers st !! m) as [mg|] eqn:Hm; intros H;
    inversion H; subst; clear H; [|by split; [|left]].
  split; [done|]. intros m' ident l' (mg' & ls & Hm' & Hi & Hl). simpl in Hm'.
  destruct (decide (m' = m)) as [->|Hne].
  2:{ rewrite list_lookup_insert_ne in Hm' by done. left. by exists mg', ls. }
  rewrite list_lookup_insert_eq in Hm' by (by eapply lookup_lt_Some).
  inversion Hm' as [Hmg]. clear Hm'.
  assert (identifiers mg' = <[i := default [] (identifiers mg !! i) ++ [l]]> (identifiers mg))
    as Hids.
  { rewrite <- Hmg. by destruct (isNullSlot _). }
  rewrite Hids in Hi. destruct (decide (ident = i)) as [->|Hni].
  - rewrite lookup_insert_eq in Hi. inversion Hi; subst ls.
    apply elem_of_app in Hl as [Hl|Hl].
    + left. destruct (identifiers mg !! i) as [ls0|] eqn:Hi0; [|by apply elem_of_nil in Hl].
      by exists mg, ls0.
    + apply list_elem_of_singleton in Hl. by right.
  - rewrite lookup_insert_ne in Hi by done. left. by exists mg, ls.
Qed.

Lemma __add_obs id m i l : ~ is_app id l -> preserves (obs_rel id) (__add m i l).
Proof.
  intros Hn st r st' H. destruct (__add_reg _ _ _ _ _ _ H) as [HL HR]. split.
  - intros m' ident l' Ha Hr. destruct (HR _ _ _ Hr) as [?|(_ & _ & ->)]; done.
  - exists []. by rewrite app_nil_r.
Qed.

Lemma _addObservableListener_reg m i l st r st' :
  _addObservableListener m i l st = (r, st') ->
  (r = Ok (RObservable m (l_uid l) i) \/ r = Beyond)
  /\ log st' = log st
  /\ forall m' ident l', reg_at st' m' ident l' ->
       reg_at st m' ident l' \/ (m' = m /\ ident = i /\ l' = l).
Proof.
  unfold _addObservableListener. intros H. apply bind_eq in H.
  destruct (__add m i l st) as [[[]|e|] s1] eqn:E;
    destruct (__add_reg _ _ _ _ _ _ E) as [HL HR].
  - unfold bind, ContextManager_pushRemoveListener, modify, ret in H.
    inversion H; subst; clear H. split; [by left|]. split; [done|].
    intros m' ident l' Hr. apply HR. destruct Hr as (mg & ls & ? & ? & ?). by exists mg, ls.
  - unfold __add, upd_manager in E. destruct (managers st !! m); inversion E.
  - destruct H as [-> ->]. split; [by right|]. by split.
Qed.

Lemma _addObservableListener_obs id m i l :
  ~ is_app id l -> preserves (obs_rel id) (_addObservableListener m i l).
Proof.
  intros Hn st r st' H. destruct (_addObservableListener_reg _ _ _ _ _ _ H) as (_ & HL & HR).
  split.
  - intros m' ident l' Ha Hr. destruct (HR _ _ _ Hr) as [?|(_ & _ & ->)]; done.
  - exists []. by rewrite app_nil_r.
Qed.

Lemma immediateContext_walk_silent split : forall c k,
  preserves silent_rel (immediateContext_walk c k split).
Proof. induction split as [|k' split IH]; intros c k; simpl; pres. Qed.

#[local] Hint Resolve immediateContext_walk_silent : pres.

Lemma _getImmediateContext_obs id c m i :
  preserves (obs_rel id) c -> preserves (obs_rel id) (_getImmediateContext c m i).
Proof. intros Hc. unfold _getImmediateContext. pres. Qed.

Lemma observe_context_obs id c m mg split :
  preserves (obs_rel id) c -> preserves (obs_rel id) (observe_context c m mg split).
Proof.
  intros Hc. unfold observe_context. pose proof (_getImmediateContext_obs id c m) as H.
  pres.
Qed.

Lemma observe_listen_obs id m i o observed :
  (forall l, o = Some l -> ~ is_app id l) ->
  preserves (obs_rel id) (observe_listen m i o observed).
Proof.
  intros Hn. unfold observe_listen. destruct o as [l|]; [|pres].
  specialize (Hn l eq_refl). pose proof (_addObservableListener_obs id m) as H. pres.
Qed.

Lemma observe_define_obs id c m i x k split isArr o :
  (forall l, preserves (obs_rel id) (c (Listener (l_uid l) (LArrayLength m (l_uid l)
     (if Nat.ltb 0 (length split) then join split else "undefined"))))) ->
  preserves (obs_rel id) (observe_define c m i x k split isArr o).
Proof. intros Hc. unfold observe_define. pres. Qed.

(** An [observe] whose listener is not [id] registers no [id]. *)
Lemma observe__obs id : forall fuel m i o,
  (forall l, o = Some l -> ~ is_app id l) ->
  preserves (obs_rel id) (observe_ fuel m i o).
Proof.
  induction fuel as [|fuel IH]; intros m i o Hn; cbn [observe_]; [pres|].
  destruct (isEmptyString i); [pres|].
  destruct (pop (split i)) as [[key split]|]; [|pres].
  apply preserves_bind; [typeclasses eauto | pres | intros mg].
  apply preserves_bind; [typeclasses eauto | | intros x].
  { apply observe_context_obs. apply IH. by intros. }
  apply preserves_bind; [typeclasses eauto | pres | intros isArr].
  destruct (negb (isObject x || isArr)).
  { apply preserves_bind; [typeclasses eauto | pres | intros _].
    destruct o as [l|]; [|pres].
    apply preserves_bind; [typeclasses eauto | | intros; pres].
    apply _addObservableListener_obs. by apply Hn. }
  apply preserves_bind; [typeclasses eauto | pres | intros _].
  apply preserves_bind; [typeclasses eauto | pres | intros v].
  apply preserves_bind; [typeclasses eauto | pres | intros _].
  apply preserves_bind; [typeclasses eauto | pres | intros mg'].
  apply preserves_bind; [typeclasses eauto | by apply observe_listen_obs | intros rc].
  apply preserves_bind; [typeclasses eauto | | intros; pres].
  destruct (_ || _); [pres|].
  apply observe_define_obs. intros l. apply IH. intros l' Hl'. inversion Hl'; subst.
  intros [thr Ht]. done.
Qed.

Lemma bind_ok_inv {A B} (c : M A) (f : A -> M B) st b st' :
  bind c f st = (Ok b, st') ->
  exists a s1, c st = (Ok a, s1) /\ f a s1 = (Ok b, st').
Proof.
  intros H. apply bind_eq in H. destruct (c st) as [[a|e|] s1].
  - by exists a, s1.
  - by destruct H.
  - by destruct H.
Qed.

Ltac ok_step H a s E :=
  apply bind_ok_inv in H as (a & s & E & H).

(** What [observe] with a listener for [id] leaves behind when it returns:
    the function it returns removes, first, the registration under the
    identifier, then at most one more for the same manager and uid under
    another identifier; a registration of [id] that is new is the
    listener's, at a place the function removes; nothing but warnings is
    logged. *)
Lemma observe_registers id fuel m i u thr st rm st1 :
  observe_ fuel m i (Some (Listener u (LApp id thr))) st = (Ok (Some rm), st1) ->
  (exists rest, removals rm = (m, u, i) :: rest
                /\ forall x, x ∈ rest -> x.1 = (m, u) /\ x.2 ≠ i)
  /\ (forall m' ident l, is_app id l -> reg_at st1 m' ident l ->
        reg_at st m' ident l
        \/ (l = Listener u (LApp id thr) /\ (m', u, ident) ∈ removals rm))
  /\ exists new, log st1 = log st ++ new /\ Forall isWarned new.
Proof.
  destruct fuel as [|fuel]; [done|]. cbn [observe_]. intros H.
  destruct (isEmptyString i); [done|].
  destruct (pop (split i)) as [[key split]|]; [|done].
  ok_step H mg s1 E1. ok_step H x s2 E2. ok_step H isArr s3 E3.
  assert (obs_rel id st s3) as R3.
  { etransitivity; [|etransitivity].
    - eapply (preserves_the_manager (obs_rel id)), E1.
    - eapply observe_context_obs, E2. apply observe__obs. by intros.
    - eapply (preserves_isArray (obs_rel id)), E3. }
  clear E1 E2 E3.
  destruct (negb (isObject x || isArr)).
  - ok_step H t s4 E4. ok_step H r s5 E5. inversion H; subst; clear H.
    pose proof (emit_warned_obs id _ _ _ _ E4) as R4.
    destruct (_addObservableListener_reg _ _ _ _ _ _ E5) as ([Hr|Hr] & HL & HR); [|done].
    inversion Hr; subst; clear Hr. simpl.
    assert (obs_rel id st s4) as R by (by etransitivity). destruct R as (RR & new & Hl & Hw).
    split; [|split].
    + exists []. split; [done|]. intros x0 Hx. by apply elem_of_nil in Hx.
    + intros m' ident l Ha Hreg. destruct (HR _ _ _ Hreg) as [?|(-> & -> & ->)].
      * left. by apply RR.
      * right. split; [done|]. by apply list_elem_of_singleton.
    + exists new. by rewrite HL.
  - ok_step H t4 s4 E4. ok_step H v s5 E5. ok_step H t6 s6 E6. ok_step H mg' s7 E7.
    ok_step H rc s8 E8. ok_step H t9 s9 E9. inversion H; subst; clear H.
    assert (obs_rel id st s7) as R7.
    { etransitivity; [exact R3|]. etransitivity; [|etransitivity; [|etransitivity]].
      - eapply silent_obs, upd_manager_silent, E4; done.
      - eapply silent_obs, Get_silent, E5.
      - eapply silent_obs, upd_manager_silent, E6; done.
      - eapply (preserves_the_manager (obs_rel id)), E7. }
    assert (obs_rel id s8 st1) as R9.
    { destruct (_ || _).
      - inversion E9. reflexivity.
      - eapply observe_define_obs, E9. intros l. apply observe__obs.
        intros l' Hl'. inversion Hl'; subst. by intros [? ?]. }
    clear R3 E4 E5 E6 E7 E9.
    unfold observe_listen in E8. ok_step E8 r1 sa Ea. ok_step E8 r2 sb Eb.
    inversion E8; subst; clear E8.
    destruct (_addObservableListener_reg _ _ _ _ _ _ Ea) as ([Hr|Hr] & HLa & HRa); [|done].
    inversion Hr; subst; clear Hr. simpl.
    destruct R7 as (RR7 & n7 & Hl7 & Hw7). destruct R9 as (RR9 & n9 & Hl9 & Hw9).
    assert ((r2 = RNoop /\ s8 = sa)
            \/ (exists observed, observed ≠ i /\ r2 = RObservable m u observed
                /\ log s8 = log sa
                /\ forall m' ident l', reg_at s8 m' ident l' ->
                     reg_at sa m' ident l'
                     \/ (m' = m /\ ident = observed /\ l' = Listener u (LApp id thr))))
      as Hb.
    { destruct (observedIdentifier mg') as [observed|]; [|left; by inversion Eb].
      destruct (String.eqb i observed) eqn:Heq; [left; by inversion Eb|].
      apply String.eqb_neq in Heq. right. exists observed.
      destruct (_addObservableListener_reg _ _ _ _ _ _ Eb) as ([Hr|Hr] & HLb & HRb); [|done].
      inversion Hr; subst. by repeat split. }
    destruct Hb as [[-> ->]|(observed & Hne & -> & HLb & HRb)]; simpl.
    + split; [|split].
      * exists []. split; [done|]. intros x0 Hx. by apply elem_of_nil in Hx.
      * intros m' ident l Ha Hreg. apply RR9 in Hreg; [|done].
        destruct (HRa _ _ _ Hreg) as [?|(-> & -> & ->)].
        -- left. by apply RR7.
        -- right. split; [done|]. by apply list_elem_of_singleton.
      * exists (n7 ++ n9). split; [|by apply Forall_app].
        by rewrite Hl9, HLa, Hl7, app_assoc.
    + split; [|split].
      * exists [(m, u, observed)]. split; [done|]. intros x0 Hx.
        apply list_elem_of_singleton in Hx. subst. split; [done|]. simpl. done.
      * intros m' ident l Ha Hreg. apply RR9 in Hreg; [|done].
        destruct (HRb _ _ _ Hreg) as [Hreg'|(-> & -> & ->)].
        -- destruct (HRa _ _ _ Hreg') as [?|(-> & -> & ->)].
           ++ left. by apply RR7.
           ++ right. split; [done|]. by left.
        -- right. split; [done|]. right. by left.
      * exists (n7 ++ n9). split; [|by apply Forall_app].
        by rewrite Hl9, HLb, HLa, Hl7, app_assoc.
Qed.

(** ** Calling the function [observe] returns *)

Lemma remove_one m u i st mg :
  managers st !! m = Some mg ->
  exists st' mg',
    call_remove (RObservable m u i) st = (Ok tt, st')
    /\ managers st' = <[m := mg']> (managers st)
    /\ log st' = log st
    /\ (forall j, j ≠ i -> identifiers mg' !! j = identifiers mg !! j)
    /\ identifiers mg' !! i = filter (fun l => l_uid l ≠ u) <$> identifiers mg !! i
    /\ (identifiers mg' !! i = Some [] ->
        identifierHash mg' !! i = None /\ contextObjects mg' !! i = None).
Proof.
  intros Hm. cbn [call_remove]. unfold bind at 1.
  unfold ContextManager_removeIdentifier, modify.
  match goal with |- context [_removeCallback m i u ?s] => set (s0 := s) end.
  destruct (_removeCallback_manager m i u s0 mg Hm) as (mg' & HR & H1 & H2 & H3).
  eexists _, mg'. split; [exact HR|]. split; [done|]. split; [done|].
  split; [exact H1|]. split; [exact H2 | exact H3].
Qed.

Lemma remove_one_none m u i st :
  managers st !! m = None ->
  exists s, call_remove (RObservable m u i) st = (Beyond, s).
Proof.
  intros Hm. cbn [call_remove]. unfold bind at 1.
  unfold ContextManager_removeIdentifier, modify.
  match goal with |- context [_removeCallback m i u ?s] => set (s0 := s) end.
  exists s0. unfold _removeCallback, bind, the_manager.
  change (managers s0) with (managers st). by rewrite Hm.
Qed.

Lemma bind_ret_r (c : M unit) st : bind c (fun _ => ret tt) st = c st.
Proof. unfold bind, ret. destruct (c st) as [[[]|e|] s1]; done. Qed.

Lemma for_each_app {A} (l1 l2 : list A) (body : A -> M unit) st :
  for_each (l1 ++ l2) body st = bind (for_each l1 body) (fun _ => for_each l2 body) st.
Proof.
  revert st. induction l1 as [|x l1 IH]; intros st; simpl.
  - done.
  - unfold bind in *. destruct (body x st) as [[[]|e|] s1]; [apply IH | done | done].
Qed.

(** The function runs the removals it holds, in their order. *)
Lemma call_remove_flat rm : forall st,
  call_remove rm st
  = for_each (removals rm) (fun x => call_remove (RObservable x.1.1 x.1.2 x.2)) st.
Proof.
  induction rm as [|m u i|a IHa b IHb]; intros st.
  - done.
  - cbn [removals for_each]. by rewrite bind_ret_r.
  - cbn [removals call_remove]. rewrite for_each_app. unfold bind.
    rewrite IHa. destruct (for_each _ _ st) as [[[]|e|] s1]; [apply IHb | done | done].
Qed.

Lemma reg_at_remove_one m u i st mg st' mg' :
  managers st !! m = Some mg ->
  managers st' = <[m := mg']> (managers st) ->
  (forall j, j ≠ i -> identifiers mg' !! j = identifiers mg !! j) ->
  identifiers mg' !! i = filter (fun l => l_uid l ≠ u) <$> identifiers mg !! i ->
  forall m' ident l, reg_at st' m' ident l ->
    reg_at st m' ident l /\ (m', l_uid l, ident) ≠ (m, u, i).
Proof.
  intros Hm Hms Hj Hi m' ident l (mg0 & ls & Hm0 & Hi0 & Hl). rewrite Hms in Hm0.
  destruct (decide (m' = m)) as [->|Hne].
  2:{ rewrite list_lookup_insert_ne in Hm0 by done. split; [by exists mg0, ls | congruence]. }
  rewrite list_lookup_insert_eq in Hm0 by (by eapply lookup_lt_Some).
  inversion Hm0; subst mg0. destruct (decide (ident = i)) as [->|Hni].
  - rewrite Hi in Hi0. destruct (identifiers mg !! i) as [ls0|] eqn:E; [|done].
    inversion Hi0; subst ls. apply list_elem_of_filter in Hl as [Hu Hl].
    split; [by exists mg, ls0 | congruence].
  - rewrite Hj in Hi0 by done. split; [by exists mg, ls | congruence].
Qed.

(** Running removals that are all for manager [m]. *)
Lemma removals_run m xs : forall st mg,
  managers st !! m = Some mg ->
  (forall x, x ∈ xs -> x.1.1 = m) ->
  exists st' mg',
    for_each xs (fun x => call_remove (RObservable x.1.1 x.1.2 x.2)) st = (Ok tt, st')
    /\ managers st' !! m = Some mg'
    /\ log st' = log st
    /\ (forall i, (forall x, x ∈ xs -> x.2 ≠ i) -> identifiers mg' !! i = identifiers mg !! i)
    /\ (forall m' ident l, reg_at st' m' ident l ->
          reg_at st m' ident l /\ (m', l_uid l, ident) ∉ xs).
Proof.
  induction xs as [|[[m0 u] i] xs IH]; intros st mg Hm Hx.
  - exists st, mg. repeat split; try done. by apply not_elem_of_nil.
  - assert (m0 = m) as -> by (apply (Hx (m0, u, i)); by left).
    destruct (remove_one m u i st mg Hm) as (s1 & mg1 & HR & Hms & HL & Hj & Hi & _).
    assert (managers s1 !! m = Some mg1) as Hm1.
    { rewrite Hms. apply list_lookup_insert_eq. by eapply lookup_lt_Some. }
    destruct (IH s1 mg1 Hm1) as (s2 & mg2 & HR2 & Hm2 & HL2 & Hj2 & Hreg2).
    { intros x Hin. apply Hx. by right. }
    exists s2, mg2. cbn [for_each fst snd]. rewrite (bind_ok _ _ _ _ _ HR).
    split; [exact HR2|]. split; [done|]. split; [congruence|]. split.
    + intros j Hall. rewrite Hj2 by (intros x Hin; apply Hall; by right).
      apply Hj. intros ->. by apply (Hall (m, u, i)); [left|].
    + intros m' ident l Hreg. apply Hreg2 in Hreg as [Hreg Hnot].
      destruct (reg_at_remove_one m u i st mg s1 mg1 Hm Hms Hj Hi _ _ _ Hreg) as [Hr Hne].
      split; [done|]. intros Hin. apply elem_of_cons in Hin as [Heq|Hin]; done.
Qed.

(** C3 (as amended). Calling the remove function of a registration never
    takes the identifier's key out of [__identifiers]: the set of keys is
    what it was, and when the listeners removed were all there was the key
    stays, bound to the empty list.  What is deleted then, and at once, is
    the identifier's entry in the cascade index and in the value cache, and
    [_hasIdentifier] answers false. *)
Theorem remove_keeps_identifier_key m u i st mg :
  managers st !! m = Some mg ->
  exists st' mg',
    call_remove (RObservable m u i) st = (Ok tt, st')
    /\ managers st' !! m = Some mg'
    /\ dom (identifiers mg') = dom (identifiers mg)
    /\ (forall ls, identifiers mg !! i = Some ls -> Forall (fun l => l_uid l = u) ls ->
          identifiers mg' !! i = Some [])
    /\ (identifiers mg' !! i = Some [] ->
          identifierHash mg' !! i = None /\ contextObjects mg' !! i = None
          /\ _hasIdentifier mg' i = false).
Proof.
  intros Hm. destruct (remove_one m u i st mg Hm) as (st' & mg' & HR & Hms & _ & Hj & Hi & He).
  exists st', mg'. split; [exact HR|]. split; [|split; [|split]].
  - rewrite Hms. apply list_lookup_insert_eq. by eapply lookup_lt_Some.
  - apply set_eq. intros j. rewrite !elem_of_dom. destruct (decide (j = i)) as [->|Hne].
    + rewrite Hi. by rewrite fmap_is_Some.
    + by rewrite Hj.
  - intros ls Hls Hall. rewrite Hi, Hls. simpl. f_equal.
    clear Hls. induction Hall as [|l ls Hl _ IH]; [done|].
    rewrite filter_cons_False by (intros Hn; by apply Hn). exact IH.
  - intros Hnil. destruct (He Hnil) as [H1 H2]. split; [done|]. split; [done|].
    unfold _hasIdentifier. by rewrite Hnil.
Qed.


(** C4. Round trip: after [observe(i, L)] for a listener [L] that is not
    registered elsewhere, and a call of the function it returned, no
    assignment to a property notifies [L]: not the assignment of a value to
    the property [i] names, nor any other.  Nothing notifies it on the way
    either. *)
Theorem observe_remove_then_assign_is_silent
    m i u id thr st rm st1 st2 target k v r st3 :
  ~ registered id st ->
  observe m i (Some (Listener u (LApp id thr))) st = (Ok (Some rm), st1) ->
  call_remove rm st1 = (Ok tt, st2) ->
  Put target k v st2 = (r, st3) ->
  exists new, log st3 = log st ++ new /\ forall nv ov, Notified id nv ov ∉ new.
Proof.
  intros Hfresh Ho Hrm HP.
  destruct (observe_registers _ _ _ _ _ _ _ _ _ Ho)
    as ((rest & Hrems & Hrest) & Hreg & w & Hlog1 & Hw).
  assert (forall x, x ∈ removals rm -> x.1.1 = m) as Hall.
  { intros x Hx. rewrite Hrems in Hx. apply elem_of_cons in Hx as [->|Hx]; [done|].
    destruct (Hrest x Hx) as [Hx1 _]. by rewrite Hx1. }
  assert (log st2 = log st1 /\ ~ registered id st2) as [Hlog2 Hnone].
  { rewrite call_remove_flat in Hrm.
    destruct (managers st1 !! m) as [mg|] eqn:Hm.
    - destruct (removals_run m (removals rm) st1 mg Hm Hall)
        as (s2 & mg2 & HR2 & _ & HL & _ & Hr2).
      rewrite HR2 in Hrm. inversion Hrm; subst s2. split; [done|].
      intros (m' & ident & l & Hr & Ha). destruct (Hr2 _ _ _ Hr) as [Hr1 Hnot].
      destruct (Hreg _ _ _ Ha Hr1) as [Hr0|[-> Hin]].
      + apply Hfresh. by exists m', ident, l.
      + by apply Hnot.
    - rewrite Hrems in Hrm. cbn [for_each fst snd] in Hrm.
      destruct (remove_one_none m u i st1 Hm) as [s Hs].
      apply bind_eq in Hrm. rewrite Hs in Hrm. by destruct Hrm. }
  destruct (Put_put _ _ _ _ _ _ HP) as (_ & _ & n & Hlog3 & Hn).
  exists (w ++ n). split; [by rewrite Hlog3, Hlog2, Hlog1, app_assoc|].
  intros nv ov Hin. apply elem_of_app in Hin as [Hin|Hin].
  - rewrite Forall_forall in Hw. by apply Hw in Hin.
  - rewrite Forall_forall in Hn. apply Hn in Hin. simpl in Hin. done.
Qed.

(** ** Dispatch to the listeners *)

Lemma set_log_set_log x y st : set_log x (set_log y st) = set_log x st.
Proof. done. Qed.

Lemma execute_loop_returns pre v o : forall st,
  Forall returns pre ->
  execute_loop pre v o st = (Ok tt, set_log (log st ++ omap (notification v o) pre) st).
Proof.
  induction pre as [|l pre IH]; intros st Hpre.
  - simpl. unfold ret. rewrite app_nil_r. by destruct st.
  - inversion Hpre as [|? ? [id Hl] Hpre']; subst.
    cbn [execute_loop omap list_omap]. unfold notification at 1. rewrite Hl.
    unfold bind at 1. simpl. rewrite IH by done. simpl.
    by rewrite set_log_set_log, <- app_assoc.
Qed.

Lemma execute_loop_throws pre u id post v o st :
  Forall returns pre ->
  execute_loop (pre ++ Listener u (LApp id true) :: post) v o st
  = (Throw (ListenerError id),
     set_log (log st ++ omap (notification v o) pre ++ [Notified id v o]) st).
Proof.
  revert st. induction pre as [|l pre IH]; intros st Hpre.
  - done.
  - inversion Hpre as [|? ? [id' Hl] Hpre']; subst.
    cbn [app execute_loop omap list_omap]. unfold notification at 1. rewrite Hl.
    unfold bind at 1. simpl. rewrite IH by done. simpl.
    by rewrite set_log_set_log, <- !app_assoc.
Qed.

Lemma _execute_throws m identifier v o st mg pre u id post :
  managers st !! m = Some mg ->
  identifiers mg !! identifier = Some (pre ++ Listener u (LApp id true) :: post) ->
  Forall returns pre ->
  _execute m identifier v o st
  = (Throw (ListenerError id),
     set_log (log st ++ omap (notification v o) pre ++ [Notified id v o])
       (set_managers
          (<[m := set_contextObjects (cache_after identifier v (contextObjects mg)) mg]>
             (managers st)) st)).
Proof.
  intros Hm Hi Hpre. unfold _execute.
  erewrite bind_ok by (unfold the_manager; rewrite Hm; reflexivity).
  rewrite Hi.
  erewrite bind_ok by (unfold upd_manager; rewrite Hm; reflexivity).
  by rewrite execute_loop_throws.
Qed.

(** C1 (as amended). [_execute] stores the value in the cache and calls the
    listeners of the identifier in registration order; when one throws,
    nothing catches the exception: the listeners before it have been
    called, the ones after it are not called, and the exception leaves
    [_execute].  It then leaves the setter of an intercepted property and
    the assignment that triggered the notification. *)
Theorem execute_stops_at_first_throw m identifier v st mg pre u id post :
  managers st !! m = Some mg ->
  identifiers mg !! identifier = Some (pre ++ Listener u (LApp id true) :: post) ->
  Forall returns pre ->
  (forall o,
     _execute m identifier v o st
     = (Throw (ListenerError id),
        set_log (log st ++ omap (notification v o) pre ++ [Notified id v o])
          (set_managers
             (<[m := set_contextObjects (cache_after identifier v (contextObjects mg)) mg]>
                (managers st)) st)))
  /\ (forall l ob k p a,
        heap st !! l = Some ob -> o_isArray ob && String.eqb k "length" = false ->
        o_props ob !! k = Some p -> p_slot p = Accessor a ->
        a_manager a = m -> a_identifier a = identifier ->
        strict_eq (a_value a) v = false ->
        isArrayFunction mg = false -> is_Some (identifierHash mg !! identifier) ->
        exists st',
          Put (VRef l) k v st = (Throw (ListenerError id), st')
          /\ log st' = log st ++ omap (notification v (a_value a)) pre
                         ++ [Notified id v (a_value a)]).
Proof.
  intros Hm Hi Hpre. split; [intros o; by eapply _execute_throws|].
  intros l ob k p a Hl Hlen Hp Hs <- <- Hne Hg [mappings Hh].
  unfold Put, bind at 1, the_obj. rewrite Hl, Hlen, Hp, Hs.
  unfold setter. rewrite Hne. unfold bind at 1, store_value, upd_obj. rewrite Hl.
  match goal with |- context [set_heap ?h st] => set (s1 := set_heap h st) end.
  assert (managers s1 !! a_manager a = Some mg) as Hm1 by done.
  pose proof (fun o => _execute_throws _ _ v o s1 mg pre u id post Hm1 Hi Hpre) as HE.
  unfold bind at 1, the_manager. rewrite Hm1, Hg, Hh. simpl.
  destruct (a_kind a).
  - unfold bind. rewrite HE. eexists. split; [reflexivity | done].
  - unfold bind at 1. simpl. destruct (a_isDefined a).
    + rewrite HE. eexists. split; [reflexivity | done].
    + unfold bind at 1. simpl. destruct (isObject v || _).
      * unfold bind. rewrite HE. eexists. split; [reflexivity | done].
      * unfold bind. rewrite HE. eexists. split; [reflexivity | done].
Qed.

(** C9. Assigning to an intercepted property a value that is [===] to the
    one it holds does nothing at all: the answer is a normal return and the
    state is the state before, with its heap (the stored value), the value
    caches, the registries and the log of notifications. *)
Theorem assign_identical_is_noop l k v st ob p a :
  heap st !! l = Some ob ->
  o_isArray ob && String.eqb k "length" = false ->
  o_props ob !! k = Some p ->
  p_slot p = Accessor a ->
  strict_eq (a_value a) v = true ->
  Put (VRef l) k v st = (Ok tt, st).
Proof.
  intros Hl Hlen Hp Hs He. unfold Put, bind, the_obj. rewrite Hl, Hlen, Hp, Hs.
  unfold setter. by rewrite He.
Qed.

(** C10. The static [dispose] of an owner that is [null] or [undefined]
    returns at once: no exception, and the state (the manager registry, the
    index from owners to identifiers, the table of array listeners, and all
    the rest) is the state before. *)
Theorem dispose_null_owner deepExtend control persist st :
  isNull control = true ->
  ContextManager_dispose deepExtend control persist st = (Ok tt, st).
Proof. intros Hn. unfold ContextManager_dispose. by rewrite Hn. Qed.

(** ** The guard of the array wrappers *)

Lemma guard_put_rel st st' m : put_rel st st' -> guard st' m = guard st m.
Proof.
  intros (_ & G & _). unfold guard.
  assert ((isArrayFunction <$> managers st') !! m = (isArrayFunction <$> managers st) !! m)
    as H by (by rewrite G).
  by rewrite !list_lookup_fmap in H.
Qed.

Lemma guard_insert st m mg f :
  managers st !! m = Some mg ->
  guard (set_managers (<[m := f mg]> (managers st)) st) m = Some (isArrayFunction (f mg)).
Proof.
  intros Hm. unfold guard. simpl.
  rewrite list_lookup_insert_eq by (by eapply lookup_lt_Some). done.
Qed.

(** C6 (as amended). Of the seven wrappers only the ones of [shift] and
    [unshift] touch the guard [__isArrayFunction].  They set it, call the
    method of [Array.prototype] with the guard set, and clear it when that
    call has returned; when that call throws, the exception leaves the
    wrapper with the guard still set.  The wrappers of [push], [pop],
    [reverse], [sort] and [splice] call the method with the guard as it
    is. *)
Theorem guard_only_around_shift m absoluteIdentifier method this args oldArray st :
  filter (fun method => indexOf method "shift" ≠ None) arrayMethods = ["shift"; "unshift"]
  /\ (indexOf method "shift" = None ->
      observedArrayFn_apply m absoluteIdentifier method this args oldArray st
      = native method this args st)
  /\ (indexOf method "shift" ≠ None ->
      forall mg, managers st !! m = Some mg ->
        guard (guarded st m mg) m = Some true
        /\ (forall returnValue s1,
              native method this args (guarded st m mg) = (Ok returnValue, s1) ->
              exists r s2,
                observedArrayFn_apply m absoluteIdentifier method this args oldArray st = (r, s2)
                /\ guard s2 m = Some false)
        /\ (forall e s1,
              native method this args (guarded st m mg) = (Throw e, s1) ->
              observedArrayFn_apply m absoluteIdentifier method this args oldArray st
              = (Throw e, s1)
              /\ guard s1 m = Some true)).
Proof.
  split; [by vm_compute|]. split.
  - intros Hn. unfold observedArrayFn_apply. by rewrite bool_decide_eq_false_2 by (by rewrite Hn; intros H).
  - intros Hs mg Hm.
    assert (guard (guarded st m mg) m = Some true) as Hg by (by apply guard_insert).
    split; [done|].
    assert (upd_manager m (set_isArrayFunction true) st = (Ok tt, guarded st m mg)) as Hset.
    { unfold upd_manager. by rewrite Hm. }
    unfold observedArrayFn_apply. rewrite bool_decide_eq_true_2 by done.
    rewrite (bind_ok _ _ _ _ _ Hset). split.
    + intros rv s1 Hnat. rewrite (bind_ok _ _ _ _ _ Hnat).
      pose proof (guard_put_rel _ _ m (native_put _ _ _ _ _ _ Hnat)) as Hg1.
      rewrite Hg in Hg1. unfold guard in Hg1.
      destruct (managers s1 !! m) as [mg1|] eqn:Hm1; [|done].
      assert (upd_manager m (set_isArrayFunction false) s1
              = (Ok tt, set_managers (<[m := set_isArrayFunction false mg1]> (managers s1)) s1))
        as Hclr by (unfold upd_manager; by rewrite Hm1).
      rewrite (bind_ok _ _ _ _ _ Hclr).
      match goal with |- context [bind ?c ?f ?s] => destruct (bind c f s) as [r s2] eqn:E end.
      exists r, s2. split; [done|].
      assert (put_rel (set_managers (<[m := set_isArrayFunction false mg1]> (managers s1)) s1) s2)
        as HR.
      { revert E. apply preserves_bind; [typeclasses eauto | | intros; apply preserves_ret; typeclasses eauto].
        apply _notifyChildProperties_put. }
      rewrite (guard_put_rel _ _ m HR). by apply guard_insert.
    + intros e s1 Hnat. rewrite (bind_throw _ _ _ _ _ Hnat). split; [done|].
      by rewrite (guard_put_rel _ _ m (native_put _ _ _ _ _ _ Hnat)).
Qed.

(** ** The notifications of the array wrappers *)

Lemma dget_elem {A} (d : dict A) k (c : A) :
  NoDup (dkeys d) -> (k, c) ∈ d -> dget d k = Some c.
Proof.
  induction d as [|[k' c'] d IH]; intros Hnd Hin; [by apply elem_of_nil in Hin|].
  simpl in *. apply NoDup_cons in Hnd as [Hk Hnd].
  apply elem_of_cons in Hin as [Heq|Hin].
  - inversion Heq; subst. by rewrite String.eqb_refl.
  - destruct (String.eqb k' k) eqn:E; [|by apply IH].
    apply String.eqb_eq in E. subst. exfalso. apply Hk.
    apply list_elem_of_fmap. by exists (k, c).
Qed.

Lemma Get_array_length l o st :
  heap st !! l = Some o -> o_isArray o = true ->
  Get (VRef l) "length" st = (Ok (num (o_length o)), st).
Proof. intros Hl Ha. unfold Get, bind, the_obj. by rewrite Hl, Ha. Qed.

Lemma _execute_returns m i v o st mg :
  managers st !! m = Some mg ->
  Forall returns (default [] (identifiers mg !! i)) ->
  _execute m i v o st
  = (Ok tt,
     set_log (log st ++ omap (notification v o) (default [] (identifiers mg !! i)))
       (set_managers
          (<[m := set_contextObjects (cache_after i v (contextObjects mg)) mg]> (managers st))
          st)).
Proof.
  intros Hm Hr. unfold _execute.
  erewrite bind_ok by (unfold the_manager; rewrite Hm; reflexivity).
  erewrite bind_ok by (unfold upd_manager; rewrite Hm; reflexivity).
  destruct (identifiers mg !! i) as [ls|]; simpl in *.
  - by rewrite execute_loop_returns.
  - unfold ret. by rewrite app_nil_r.
Qed.

Lemma the_callbacks_ok a cbs st :
  dget (observedArrayListeners st) a = Some cbs -> the_callbacks a st = (Ok cbs, st).
Proof. intros H. unfold the_callbacks, bind, get_state. by rewrite H. Qed.

Lemma callbacks_loop absoluteIdentifier ev cbs : forall todo st,
  dget (observedArrayListeners st) absoluteIdentifier = Some cbs ->
  (forall k c, (k, c) ∈ todo -> dget cbs k = Some c) ->
  Forall (fun kc => callback_returns kc.2) todo ->
  for_each (dkeys todo) (fun key =>
    callbacks <- the_callbacks absoluteIdentifier ;;
    match dget callbacks key with
    | Some c => call_callback c ev
    | None => throw TypeError
    end) st
  = (Ok tt, set_log (log st ++ omap (event_of ev) todo) st).
Proof.
  induction todo as [|[k c] todo IH]; intros st Ht Hin Hr.
  - simpl. unfold ret. rewrite app_nil_r. by destruct st.
  - inversion Hr as [|? ? Hc Hr']; subst. simpl in Hc.
    assert (forall k' c', (k', c') ∈ todo -> dget cbs k' = Some c') as Hin'.
    { intros k' c' H'. apply Hin. by right. }
    change (dkeys ((k, c) :: todo)) with (k :: dkeys todo). cbn [for_each].
    destruct c as [|id thr].
    + erewrite bind_ok.
      2:{ rewrite (bind_ok _ _ _ _ _ (the_callbacks_ok _ _ _ Ht)).
          rewrite (Hin k CNoop) by (by left). reflexivity. }
      rewrite IH by done. done.
    + simpl in Hc. subst thr. erewrite bind_ok.
      2:{ rewrite (bind_ok _ _ _ _ _ (the_callbacks_ok _ _ _ Ht)).
          rewrite (Hin k (CApp id false)) by (by left). reflexivity. }
      rewrite IH by done. simpl. by rewrite set_log_set_log, <- app_assoc.
Qed.


(** ** The static [dispose] *)

#[local] Instance heap_rel_preorder : PreOrder heap_rel.
Proof. split; unfold heap_rel; [done | intros a b c; congruence]. Qed.

Lemma Get_heap v k : preserves heap_rel (Get v k).
Proof. intros st r st' H. by apply get_rel_heap, (Get_get_rel v k st r st'). Qed.

Lemma upd_manager_heap m f : preserves heap_rel (upd_manager m f).
Proof.
  intros st r st'. unfold upd_manager. destruct (managers st !! m); intros H; by inversion H.
Qed.

Lemma modify_heap f : (forall st, heap (f st) = heap st) -> preserves heap_rel (modify f).
Proof. intros Hf st r st' H. inversion H. apply Hf. Qed.

#[local] Hint Resolve Get_heap upd_manager_heap : pres.
#[local] Hint Extern 1 (preserves heap_rel (modify _)) =>
  apply modify_heap; intros; reflexivity : pres.

Lemma _removeCallback_heap m i u : preserves heap_rel (_removeCallback m i u).
Proof. unfold _removeCallback. pres. Qed.

Lemma removeArrayListeners_heap a u : preserves heap_rel (ContextManager_removeArrayListeners a u).
Proof. unfold ContextManager_removeArrayListeners. pres. Qed.

Lemma dispose_heap m : preserves heap_rel (dispose m).
Proof. unfold dispose. pres. Qed.

#[local] Hint Resolve _removeCallback_heap removeArrayListeners_heap dispose_heap : pres.

(** A read that returns answers what [peek] says. *)
Lemma Get_value v k st x st' : Get v k st = (Ok x, st') -> x = peek (heap st) v k.
Proof.
  destruct v; simpl; try (intros H; by inversion H).
  - destruct (String.eqb k "length"); [|destruct (index_of_key k); [destruct (String.get n s)|]];
      intros H; by inversion H.
  - intros H. apply bind_ok_inv in H as (o & s1 & E & H). unfold the_obj in E.
    destruct (heap st !! l) as [o'|]; [|done]. inversion E; subst.
    destruct (o_isArray o && String.eqb k "length"); [by inversion H|].
    destruct (o_props o !! k) as [p|]; [|by inversion H].
    destruct (p_slot p) as [y w|a]; [by inversion H|].
    apply bind_ok_inv in H as (t & s2 & _ & H). by inversion H.
Qed.

Lemma uid_of_data c ob pu u w st :
  heap st !! c = Some ob -> o_props ob !! "uid" = Some pu -> p_slot pu = Data (VStr u) w ->
  uid_of (VRef c) st = (Ok u, st).
Proof.
  intros Hc Hp Hs. unfold uid_of, Get, bind, the_obj. rewrite Hc.
  replace (o_isArray ob && String.eqb "uid" "length") with false by (by destruct (o_isArray ob)).
  by rewrite Hp, Hs.
Qed.

Lemma defineData_ok l k v e c st st' :
  defineData (VRef l) k v e c st = (Ok tt, st') ->
  exists ob' w, heap st' !! l = Some ob' /\ o_props ob' !! k = Some (Prop_ (Data v w) e c).
Proof.
  unfold defineData. intros H. apply bind_ok_inv in H as (o & s1 & E & H).
  unfold the_obj in E. destruct (heap st !! l) as [o'|] eqn:Hl; [|done].
  inversion E; subst o' s1. clear E.
  destruct (o_isArray o && String.eqb k "length"); [done|].
  assert (l < length (heap st)) as Hlt by (by eapply lookup_lt_Some).
  destruct (o_props o !! k) as [p|].
  - destruct (negb (p_configurable p) && _); [done|].
    unfold upd_obj in H. rewrite Hl in H. inversion H; subst. simpl.
    eexists _, _. rewrite list_lookup_insert_eq by done. split; [done|].
    simpl. by rewrite lookup_insert_eq.
  - unfold upd_obj in H. rewrite Hl in H. inversion H; subst. simpl.
    eexists _, _. rewrite list_lookup_insert_eq by done. split; [done|].
    simpl. by rewrite lookup_insert_eq.
Qed.


(** ** The fuel of [observe] is enough *)

Lemma split_nonempty s : split s ≠ [].
Proof.
  induction s as [|c s IH]; simpl; [done|].
  destruct (Ascii.eqb c dot); [done|]. by destruct (split s).
Qed.

Lemma split_no_dot s : Forall (fun x => no_dot x = true) (split s).
Proof.
  induction s as [|c s IH]; simpl.
  - by repeat constructor.
  - destruct (Ascii.eqb c dot) eqn:E; [by constructor|].
    destruct (split s) as [|x r].
    + repeat constructor. simpl. by rewrite E.
    + inversion IH; subst. constructor; [|done]. simpl. by rewrite E.
Qed.

Lemma split_segment x : no_dot x = true -> split x = [x].
Proof.
  induction x as [|c x IH]; simpl; [done|].
  intros H. apply andb_true_iff in H as [Hc Hx]. apply negb_true_iff in Hc.
  by rewrite Hc, IH.
Qed.

Lemma split_segment_dot x s : no_dot x = true -> split (x +:+ String dot s) = x :: split s.
Proof.
  induction x as [|c x IH].
  - intros _. change (EmptyString +:+ String dot s) with (String dot s).
    cbn [split]. by rewrite Ascii.eqb_refl.
  - intros H. cbn [no_dot] in H. apply andb_true_iff in H as [Hc Hx].
    apply negb_true_iff in Hc.
    change (String c x +:+ String dot s) with (String c (x +:+ String dot s)).
    cbn [split]. by rewrite Hc, IH.
Qed.

Lemma split_join l :
  l ≠ [] -> Forall (fun x => no_dot x = true) l -> split (join l) = l.
Proof.
  induction l as [|x l IH]; [done|]. intros _ H. inversion H as [|? ? Hx Hl]; subst.
  destruct l as [|y l].
  - simpl. by apply split_segment.
  - change (join (x :: y :: l)) with (x +:+ String dot (join (y :: l))).
    rewrite split_segment_dot by done. by rewrite IH.
Qed.

Lemma pop_app {A} (l : list A) k sp : pop l = Some (k, sp) -> l = sp ++ [k].
Proof.
  unfold pop. destruct (reverse l) as [|x r] eqn:E; [done|].
  intros H. inversion H; subst. rewrite <- (reverse_involutive l), E.
  by rewrite reverse_cons.
Qed.

(** The identifier without its last segment has one segment less. *)
Lemma split_join_pop i key sp :
  pop (split i) = Some (key, sp) -> sp ≠ [] ->
  S (length (split (join sp))) = length (split i).
Proof.
  intros Hp Hne. apply pop_app in Hp. pose proof (split_no_dot i) as Hd.
  rewrite Hp in Hd. apply Forall_app in Hd as [Hd _].
  rewrite split_join by done. rewrite Hp, length_app. simpl. lia.
Qed.

Lemma bind_ext {A B} (c1 c2 : M A) (f1 f2 : A -> M B) st :
  (forall s, c1 s = c2 s) -> (forall a s, f1 a s = f2 a s) -> bind c1 f1 st = bind c2 f2 st.
Proof.
  intros Hc Hf. unfold bind. rewrite Hc. destruct (c2 st) as [[a|e|] s1]; [apply Hf | done | done].
Qed.

Lemma observe_context_ext c1 c2 m mg sp st :
  (0 < length sp -> forall s, c1 s = c2 s) ->
  observe_context c1 m mg sp st = observe_context c2 m mg sp st.
Proof.
  intros Hc. unfold observe_context. destruct (Nat.ltb 0 (length sp)) eqn:E; [|done].
  apply Nat.ltb_lt in E. specialize (Hc E). cbv zeta.
  destruct (isNull _); [|done]. apply bind_ext; [|done].
  intros s. unfold _getImmediateContext. apply bind_ext; [done|]. intros mg' s'.
  apply bind_ext; [|done]. intros s''. destruct (isNullSlot _); [|done].
  apply bind_ext; [exact Hc | done].
Qed.

Lemma observe_define_ext c1 c2 m i x k sp isArr o st :
  (forall l s, c1 l s = c2 l s) ->
  observe_define c1 m i x k sp isArr o st = observe_define c2 m i x k sp isArr o st.
Proof.
  intros Hc. unfold observe_define. destruct (isArr && _); [|done].
  destruct o as [l|]; [|done]. apply bind_ext; [intros s; apply Hc | done].
Qed.

Lemma observe__fuel : forall f1 f2 m i o st,
  0 < f1 -> 0 < f2 ->
  (isEmptyString i = true \/ (length (split i) < f1 /\ length (split i) < f2)) ->
  observe_ f1 m i o st = observe_ f2 m i o st.
Proof.
  induction f1 as [|f1 IH]; intros f2 m i o st H1 H2 Hi; [lia|].
  destruct f2 as [|f2]; [lia|]. cbn [observe_].
  destruct (isEmptyString i) eqn:Ei; [done|].
  destruct Hi as [Hi|[Hl1 Hl2]]; [done|].
  destruct (pop (split i)) as [[key sp]|] eqn:Hp; [|done].
  assert (0 < length (split i)) as Hpos.
  { pose proof (split_nonempty i). destruct (split i); [done | simpl; lia]. }
  assert (forall o' s,
    observe_ f1 m (if Nat.ltb 0 (length sp) then join sp else EmptyString) o' s
    = observe_ f2 m (if Nat.ltb 0 (length sp) then join sp else EmptyString) o' s) as Hrec.
  { intros o' s. apply IH; [lia | lia |].
    destruct (Nat.ltb 0 (length sp)) eqn:E; [|by left].
    apply Nat.ltb_lt in E. right.
    assert (sp ≠ []) as Hne by (intros ->; simpl in E; lia).
    pose proof (split_join_pop _ _ _ Hp Hne). lia. }
  apply bind_ext; [done|]. intros mg s.
  apply bind_ext; [intros s'; apply observe_context_ext; intros _ s''; apply Hrec|].
  intros x s'. apply bind_ext; [done|]. intros isArr s''.
  destruct (negb _); [done|].
  apply bind_ext; [done|]. intros ? ?. apply bind_ext; [done|]. intros ? ?.
  apply bind_ext; [done|]. intros ? ?. apply bind_ext; [done|]. intros ? ?.
  apply bind_ext; [done|]. intros ? ?. apply bind_ext; [|done].
  intros ?. destruct (_ || _); [done|]. apply observe_define_ext. intros l sz. apply Hrec.
Qed.

(** More fuel than [observe] hands to [observe_] changes nothing: the
    recursion never runs out of it. *)
Lemma observe_fuel_enough fuel m i o st :
  length (split i) < fuel -> observe_ fuel m i o st = observe m i o st.
Proof.
  intros H. unfold observe. apply observe__fuel; [lia | lia |]. right. split; [done | lia].
Qed.

(** ** The claims on the small application *)

Lemma closedb_closed st : closedb st = true -> closed st.
Proof.
  unfold closedb, closed. rewrite forallb_forall. intros H l o k p Hl Hp.
  assert (In o (heap st)) as Hin.
  { apply list_elem_of_In, list_elem_of_lookup. by exists l. }
  specialize (H o Hin). rewrite forallb_forall in H.
  assert (In (k, p) (map_to_list (o_props o))) as Hkp.
  { by apply list_elem_of_In, elem_of_map_to_list. }
  specialize (H _ Hkp). simpl in H. unfold slot_valid, slot_validb, valid, validb in *.
  destruct (p_slot p) as [v w|a].
  - destruct v; try done. by apply Nat.ltb_lt.
  - apply andb_true_iff in H as [H1 H2]. split; [|by apply Nat.ltb_lt].
    destruct (a_value a); try done. by apply Nat.ltb_lt.
Qed.

(** C1, counterexample. Two listeners on one identifier, the first throws:
    the assignment that triggered the notification ends with the exception
    of the listener, and the second listener has not been called. *)
Lemma throwing_listener_stops_dispatch :
  (two_listeners demo).1 = Throw (ListenerError 1)
  /\ log (two_listeners demo).2 = [Notified 1 (VNum 6) (VNum 5)].
Proof. split; by vm_compute. Qed.


(** C3, counterexample. After the only listener of an identifier has been
    removed, the identifier is still a key of [__identifiers], bound to the
    empty list. *)
Lemma removed_identifier_keeps_empty_list :
  (observe_then_remove demo).1 = Ok tt
  /\ (identifiers <$> managers (observe_then_remove demo).2 !! 0) ≫= (.!! "context.n")
     = Some [].
Proof. split; by vm_compute. Qed.


(** The length listener is notified once by a wrapped [push], and twice by
    a wrapped [shift]: once by the cascade to the child properties, once by
    the wrapper itself. *)
Lemma shift_notifies_length_twice :
  log (length_and_callback "push" [VNum 4] demo).2
  = [Notified 7 (VNum 4) (VNum 3);
     ArrayNotified 8 (ArrayMethodInfo "push" (VNum 4) (VRef 4) (VRef 2) [VNum 4])]
  /\ log (length_and_callback "shift" [] demo).2
     = [Notified 7 (VNum 2) (VNum 3); Notified 7 (VNum 2) (VNum 3);
        ArrayNotified 8 (ArrayMethodInfo "shift" (VNum 1) (VRef 4) (VRef 2) [])].
Proof. split; by vm_compute. Qed.

(** C6, counterexample. A wrapped [reverse] runs with the guard not set:
    the setter of an observed element notifies its listener from inside the
    call.  A wrapped [shift] that throws leaves the guard set. *)
Lemma guard_not_set_or_left_set :
  ((observed_element_reverse demo).1 = Ok (VRef 2)
   /\ log (observed_element_reverse demo).2 = [Notified 1 (VNum 3) (VNum 1)])
  /\ ((shift_that_throws demo).1 = Throw TypeError
      /\ guard (shift_that_throws demo).2 0 = Some true).
Proof. repeat split; by vm_compute. Qed.


(** C1, witness: three listeners on [context.n], the second throws. *)
Lemma execute_stops_at_first_throw_witness :
  _execute 0 "context.n" (VNum 6) (VNum 5) demo_three
  = (Throw (ListenerError 1),
     set_log [Notified 0 (VNum 6) (VNum 5); Notified 1 (VNum 6) (VNum 5)]
       (set_managers
          [set_contextObjects
             (cache_after "context.n" (VNum 6) (contextObjects three_listeners))
             three_listeners] demo_three))
  /\ exists st', Put (VRef 1) "n" (VNum 6) demo_three = (Throw (ListenerError 1), st')
                 /\ log st' = [Notified 0 (VNum 6) (VNum 5); Notified 1 (VNum 6) (VNum 5)].
Proof.
  destruct (execute_stops_at_first_throw 0 "context.n" (VNum 6) demo_three three_listeners
              [Listener "u0" (LApp 0 false)] "u1" 1 [Listener "u2" (LApp 2 false)])
    as [H1 H2].
  - by vm_compute.
  - by vm_compute.
  - constructor; [by exists 0 | constructor].
  - split; [exact (H1 (VNum 5))|].
    edestruct H2 with (l := 1) (k := "n") as (st' & HP & HL).
    + by vm_compute.
    + by vm_compute.
    + by vm_compute.
    + by vm_compute.
    + by vm_compute.
    + by vm_compute.
    + by vm_compute.
    + by vm_compute.
    + vm_compute. by eexists.
    + exists st'. split; [exact HP | exact HL].
Defined.


(** C3, witness: the only listener of [context.n] is removed. *)
Lemma remove_keeps_identifier_key_witness :
  exists st' mg',
    call_remove (RObservable 0 "u1" "context.n") demo_observed = (Ok tt, st')
    /\ managers st' !! 0 = Some mg'
    /\ dom (identifiers mg') = dom (identifiers demo_observed_manager)
    /\ (forall ls, identifiers demo_observed_manager !! "context.n" = Some ls ->
          Forall (fun l => l_uid l = "u1") ls -> identifiers mg' !! "context.n" = Some [])
    /\ (identifiers mg' !! "context.n" = Some [] ->
          identifierHash mg' !! "context.n" = None /\ contextObjects mg' !! "context.n" = None
          /\ _hasIdentifier mg' "context.n" = false).
Proof.
  apply (remove_keeps_identifier_key 0 "u1" "context.n" demo_observed demo_observed_manager).
  by vm_compute.
Defined.

(** C4, witness: [context.o] is observed, the listener removed, a number
    assigned. *)
Lemma observe_remove_then_assign_is_silent_witness :
  exists new,
    log roundtrip_assign.2 = log demo ++ new /\ forall nv ov, Notified 7 nv ov ∉ new.
Proof.
  apply (observe_remove_then_assign_is_silent 0 "context.o" "u1" 7 false demo
           roundtrip_remove_fn roundtrip_observe.2 roundtrip_remove.2
           (VRef 1) "o" (VNum 6) roundtrip_assign.1 roundtrip_assign.2).
  - intros (m & ident & l & (mg & ls & Hm & Hi & Hl) & _).
    destruct m as [|m]; [|done]. simpl in Hm. injection Hm as <-. done.
  - by vm_compute.
  - by vm_compute.
  - unfold roundtrip_assign. by destruct (Put _ _ _ _).
Defined.


(** C6, witness: a wrapped [shift] on [context.items] that returns. *)
Lemma guard_only_around_shift_witness :
  exists r s2,
    observedArrayFn_apply 0 "context.items" "shift" 2 [] (VRef 4) fan_slice.2 = (r, s2)
    /\ guard s2 0 = Some false.
Proof.
  destruct (guard_only_around_shift 0 "context.items" "shift" 2 [] (VRef 4) fan_slice.2)
    as (_ & _ & H).
  edestruct H as (_ & Hok & _).
  - by vm_compute.
  - by vm_compute.
  - eapply Hok. by vm_compute.
Defined.


(** C8, witness: the path [o.x] and the path [a.b] of the context. *)
Lemma getContext_resolves_witness :
  (exists st', ContextManager_getContext (VRef 1) ["o"; "x"] demo
               = (Ok (VNum 1, ["o"; "x"]), st')
               /\ heap st' = heap demo /\ get_rel demo st')
  /\ (exists st', ContextManager_getContext (VRef 1) ["a"; "b"] demo
                  = (Ok (VNull, ["a"; "b"]), st')
                  /\ heap st' = heap demo /\ get_rel demo st').
Proof.
  split.
  - apply (getContext_resolves (VRef 1) ["o"; "x"] demo).
    + apply closedb_closed. by vm_compute.
    + simpl. lia.
  - apply (getContext_resolves (VRef 1) ["a"; "b"] demo).
    + apply closedb_closed. by vm_compute.
    + simpl. lia.
Defined.

(** C9, witness: [context.n = 5] when [context.n] is observed and holds 5. *)
Lemma assign_identical_is_noop_witness :
  Put (VRef 1) "n" (VNum 5) demo_observed = (Ok tt, demo_observed).
Proof.
  eapply (assign_identical_is_noop 1 "n" (VNum 5) demo_observed).
  - by vm_compute.
  - by vm_compute.
  - by vm_compute.
  - by vm_compute.
  - by vm_compute.
Defined.

(** C10, witness: [dispose(null)] and [dispose(undefined)]. *)
Lemma dispose_null_owner_witness :
  ContextManager_dispose keep_target VNull true demo_observed = (Ok tt, demo_observed)
  /\ ContextManager_dispose keep_target VUndef false demo_observed = (Ok tt, demo_observed).
Proof.
  split; apply dispose_null_owner; reflexivity.
Defined.

(** ** Lists and dictionaries *)

Lemma pop_snoc {A} (l : list A) x : pop (l ++ [x]) = Some (x, l).
Proof. unfold pop. rewrite reverse_snoc. by rewrite reverse_involutive. Qed.


Lemma dget_dset_eq {A} (d : dict A) k a : dget (dset d k a) k = Some a.
Proof.
  induction d as [|[k' a'] d IH]; simpl.
  - by rewrite String.eqb_refl.
  - destruct (String.eqb k' k) eqn:E; simpl; rewrite E; [done | exact IH].
Qed.

Lemma dget_dset_ne {A} (d : dict A) k k' a : k ≠ k' -> dget (dset d k a) k' = dget d k'.
Proof.
  intros Hne. induction d as [|[k0 a0] d IH]; simpl.
  - by apply String.eqb_neq in Hne as ->.
  - destruct (String.eqb k0 k) eqn:E; simpl; [|by rewrite IH].
    apply String.eqb_eq in E as ->. by apply String.eqb_neq in Hne as ->.
Qed.

Lemma dget_dset {A} (d : dict A) k k' a :
  dget (dset d k a) k' = if decide (k = k') then Some a else dget d k'.
Proof.
  destruct (decide (k = k')) as [->|Hne]; [apply dget_dset_eq | by apply dget_dset_ne].
Qed.

Lemma dget_None {A} (d : dict A) k : dget d k = None <-> k ∉ dkeys d.
Proof.
  unfold dkeys. induction d as [|[k' a'] d IH]; simpl.
  - split; [intros _; apply not_elem_of_nil | done].
  - rewrite not_elem_of_cons. destruct (String.eqb_spec k' k) as [->|Hne].
    + split; [done | by intros [? _]].
    + rewrite IH. split; [by intros ? | by intros [_ ?]].
Qed.

Lemma dget_Some_keys {A} (d : dict A) k a : dget d k = Some a -> k ∈ dkeys d.
Proof.
  intros H. destruct (decide (k ∈ dkeys d)) as [|Hn]; [done|].
  apply dget_None in Hn. congruence.
Qed.

Lemma dkeys_dset {A} (d : dict A) k a :
  dkeys (dset d k a) = match dget d k with Some _ => dkeys d | None => dkeys d ++ [k] end.
Proof.
  unfold dkeys. induction d as [|[k' a'] d IH]; simpl; [done|].
  destruct (String.eqb k' k); simpl; [done|]. rewrite IH. by destruct (dget d k).
Qed.

Lemma NoDup_dset {A} (d : dict A) k a : NoDup (dkeys d) -> NoDup (dkeys (dset d k a)).
Proof.
  intros H. rewrite dkeys_dset. destruct (dget d k) eqn:E; [done|].
  apply NoDup_app. split; [done|]. split; [|apply NoDup_singleton].
  intros x Hx Hk. apply list_elem_of_singleton in Hk as ->. by apply dget_None in E.
Qed.

Lemma dkeys_ddel_subseteq {A} (d : dict A) k : dkeys (ddel d k) ⊆ dkeys d.
Proof.
  unfold dkeys. induction d as [|[k' a'] d IH]; simpl; [done|].
  destruct (String.eqb k' k); simpl.
  - intros x Hx. by apply elem_of_cons; right.
  - intros x. rewrite !elem_of_cons. intros [->|Hx]; [by left | right; by apply IH].
Qed.

Lemma NoDup_ddel {A} (d : dict A) k : NoDup (dkeys d) -> NoDup (dkeys (ddel d k)).
Proof.
  unfold dkeys. induction d as [|[k' a'] d IH]; simpl; [done|].
  intros H. apply NoDup_cons in H as [Hn H]. destruct (String.eqb k' k); simpl; [done|].
  apply NoDup_cons. split; [|by apply IH].
  intros Hin. apply Hn. by apply (dkeys_ddel_subseteq d k).
Qed.

Lemma dget_ddel_ne {A} (d : dict A) k k' : k ≠ k' -> dget (ddel d k) k' = dget d k'.
Proof.
  intros Hne. induction d as [|[k0 a0] d IH]; simpl; [done|].
  destruct (String.eqb_spec k0 k) as [->|Hk]; simpl.
  - by apply String.eqb_neq in Hne as ->.
  - by rewrite IH.
Qed.

Lemma dget_ddel_eq {A} (d : dict A) k : NoDup (dkeys d) -> dget (ddel d k) k = None.
Proof.
  unfold dkeys. induction d as [|[k0 a0] d IH]; simpl; [done|].
  intros H. apply NoDup_cons in H as [Hn H].
  destruct (String.eqb_spec k0 k) as [->|Hk]; simpl.
  - by apply dget_None.
  - apply String.eqb_neq in Hk as ->. by apply IH.
Qed.

Lemma ddel_absent {A} (d : dict A) k : dget d k = None -> ddel d k = d.
Proof.
  induction d as [|[k0 a0] d IH]; simpl; [done|].
  destruct (String.eqb k0 k); [done|]. intros H. by rewrite IH.
Qed.

(** ** The event manager: offering an event to listeners *)

Section EventManager.
Import Events.
#[local] Open Scope events_scope.

Lemma events_bind_ok {A B} (c : E A) (f : A -> E B) st a s1 :
  c st = (Ok a, s1) -> bind c f st = f a s1.
Proof. unfold bind. by intros ->. Qed.

Lemma set_calls_id st : set_calls (calls st) st = st.
Proof. by destruct st. Qed.

Lemma offered_nil ctx ev args st : offered ctx ev args [] st = st.
Proof.
  unfold offered. destruct (propagating st (name ev)); [|done].
  simpl. rewrite app_nil_r. apply set_calls_id.
Qed.

Lemma offered_stopped ctx ev args ls st :
  propagating st (name ev) = false -> offered ctx ev args ls st = st.
Proof. unfold offered. by intros ->. Qed.

Lemma apply_run l ctx ev args st :
  apply l ctx ev args st
  = (if throws l then Throw (ListenerError (id l)) else Ok tt,
     set_calls (calls st ++ [Applied (id l) ctx ev args])
       (if stops l
        then set_propagatingEvents (<[name ev := false]> (propagatingEvents st)) st
        else st)).
Proof. unfold apply, bind, emit, modify. by destruct (stops l), (throws l). Qed.

(** One listener: the call, the warning when it throws, the flag when it
    stops the event. *)
Lemma try_apply_run l ctx ev args st :
  try_catch (apply l ctx ev args) warn st
  = (Ok tt,
     set_calls (calls st ++ applied ctx ev args l)
       (if stops l
        then set_propagatingEvents (<[name ev := false]> (propagatingEvents st)) st
        else st)).
Proof.
  unfold try_catch. rewrite apply_run. unfold applied, warn, emit, modify.
  destruct (throws l), (stops l); simpl; by rewrite <- ?app_assoc, ?app_nil_r.
Qed.

Lemma propagating_insert_false st n :
  propagating (set_propagatingEvents (<[n := false]> (propagatingEvents st)) st) n = false.
Proof. unfold propagating. simpl. by rewrite lookup_insert_eq. Qed.

Lemma callListeners_loop_run ctx ev a args : forall n index st ls,
  arrays st !! a = Some ls -> n = length ls - index ->
  callListeners_loop ctx ev a args index n st
  = (Ok tt, offered ctx ev args (drop index ls) st).
Proof.
  induction n as [|n IH]; intros index st ls Ha Hn; simpl.
  - rewrite drop_ge by lia. by rewrite offered_nil.
  - assert (index < length ls) as Hlt by lia.
    apply lookup_lt_is_Some_2 in Hlt as [l Hl].
    rewrite (drop_S _ _ _ Hl).
    unfold bind at 1, get_state at 1.
    destruct (propagating st (name ev)) eqn:Hp; [|by rewrite offered_stopped].
    rewrite Ha. simpl. rewrite Hl.
    rewrite (events_bind_ok _ _ _ _ _ (try_apply_run l ctx ev args st)).
    rewrite (IH (S index) _ ls); [|by destruct (stops l)|lia].
    f_equal. unfold offered at 2. rewrite Hp. simpl.
    destruct (stops l) eqn:Hs.
    + rewrite offered_stopped; [simpl; by rewrite app_nil_r|].
      apply propagating_insert_false.
    + unfold offered. replace (propagating _ (name ev)) with true.
      destruct (existsb stops (drop (S index) ls)); simpl; by rewrite <- app_assoc.
Qed.

Lemma __callListeners_run ctx ev a args st ls :
  arrays st !! a = Some ls ->
  __callListeners ctx ev a args st = (Ok tt, offered ctx ev args ls st).
Proof.
  intros Ha. unfold __callListeners, bind, get_state. rewrite Ha.
  rewrite (callListeners_loop_run ctx ev a args _ 0 st ls Ha); [done | lia].
Qed.

Lemma until_stop_unstopped ls :
  Forall (fun l => stops l = false) ls -> until_stop ls = ls /\ existsb stops ls = false.
Proof.
  induction 1 as [|l ls Hl _ [IH1 IH2]]; [done|]. simpl. by rewrite Hl, IH1, IH2.
Qed.

Lemma until_stop_at pre s post :
  Forall (fun l => stops l = false) pre -> stops s = true ->
  until_stop (pre ++ s :: post) = pre ++ [s] /\ existsb stops (pre ++ s :: post) = true.
Proof.
  intros Hpre Hs. induction Hpre as [|l ls Hl _ [IH1 IH2]]; simpl.
  - by rewrite Hs.
  - by rewrite Hl, IH1, IH2.
Qed.

(** X1. [__callListeners] isolates the listeners from one another: as long
    as none of them stops the event, every listener of the array is applied
    once, in the order of the array, to the context and the arguments given;
    an exception a listener throws is caught and logged as a warning, the
    listeners after it are applied all the same, and the call returns
    normally.  Nothing but the record of the calls changes. *)
Theorem callListeners_isolates_exceptions ctx ev a args st ls :
  arrays st !! a = Some ls ->
  propagating st (name ev) = true ->
  Forall (fun l => stops l = false) ls ->
  __callListeners ctx ev a args st
  = (Ok tt, set_calls (calls st ++ flat_map (applied ctx ev args) ls) st).
Proof.
  intros Ha Hp Hls. rewrite (__callListeners_run _ _ _ _ _ _ Ha).
  unfold offered. rewrite Hp.
  by destruct (until_stop_unstopped ls Hls) as [-> ->].
Qed.

(** X2. A listener that clears the flag of the event ends the round: the
    listeners before it and the listener itself are applied, the listeners
    after it in the array are not, and the flag is off when
    [__callListeners] returns. *)
Theorem callListeners_stops_at_cleared_flag ctx ev a args st pre s post :
  arrays st !! a = Some (pre ++ s :: post) ->
  propagating st (name ev) = true ->
  Forall (fun l => stops l = false) pre ->
  stops s = true ->
  exists st',
    __callListeners ctx ev a args st = (Ok tt, st')
    /\ calls st' = calls st ++ flat_map (applied ctx ev args) (pre ++ [s])
    /\ propagating st' (name ev) = false
    /\ arrays st' = arrays st.
Proof.
  intros Ha Hp Hpre Hs. rewrite (__callListeners_run _ _ _ _ _ _ Ha).
  eexists. split; [done|]. unfold offered. rewrite Hp.
  destruct (until_stop_at pre s post Hpre Hs) as [-> ->].
  split; [done|]. split; [apply propagating_insert_false | done].
Qed.

(** ** The event manager: delivering an event to the listeners of a uid *)

Lemma wf_array st u e a : wf st -> array_of st u e = Some a -> is_Some (arrays st !! a).
Proof. intros (_ & Hv & _) Ha. apply lookup_lt_is_Some_2. by eapply Hv. Qed.

Lemma __executeEvent_run u ev args st :
  wf st -> __executeEvent u ev args st = (Ok tt, delivered ev args st u).
Proof.
  intros Hwf. pose proof (wf_array st u (name ev)) as Hv.
  unfold __executeEvent, delivered, handlers_of, context_of, bind, get_state.
  unfold array_of in *.
  destruct (dget (__eventsListeners st) u) as [el|]; simpl in *; [|by rewrite offered_nil].
  destruct (listeners el !! name ev) as [a|]; simpl; [|by rewrite offered_nil].
  destruct (Hv a Hwf eq_refl) as [ls Hls]. rewrite Hls. simpl.
  by apply __callListeners_run.
Qed.

#[local] Instance same_registry_equiv : Equivalence same_registry.
Proof.
  unfold same_registry. split.
  - by intros st.
  - intros a b [H1 H2]. by rewrite H1, H2.
  - intros a b c [H1 H2] [H3 H4]. by rewrite H3, H4, H1, H2.
Qed.

Lemma offered_same ctx ev args ls st : same_registry st (offered ctx ev args ls st).
Proof.
  unfold offered. destruct (propagating st (name ev)); [|reflexivity].
  by destruct (existsb stops ls).
Qed.

Lemma delivered_same ev args st u : same_registry st (delivered ev args st u).
Proof. apply offered_same. Qed.

Lemma foldl_delivered_same ev args us : forall st,
  same_registry st (foldl (delivered ev args) st us).
Proof.
  induction us as [|u us IH]; intros st; simpl; [reflexivity|].
  etransitivity; [apply delivered_same | apply IH].
Qed.

Lemma same_array_of st st' u e : same_registry st st' -> array_of st' u e = array_of st u e.
Proof. intros [H _]. unfold array_of. by rewrite H. Qed.

Lemma same_handlers_of st st' u e :
  same_registry st st' -> handlers_of st' u e = handlers_of st u e.
Proof.
  intros H. unfold handlers_of. rewrite (same_array_of _ _ _ _ H). destruct H as [_ ->]. done.
Qed.

Lemma same_context_of st st' u : same_registry st st' -> context_of st' u = context_of st u.
Proof. intros [H _]. unfold context_of. by rewrite H. Qed.

Lemma same_calls_of st st' ev args u :
  same_registry st st' -> calls_of st' ev args u = calls_of st ev args u.
Proof.
  intros H. unfold calls_of. by rewrite (same_handlers_of _ _ _ _ H), (same_context_of _ _ _ H).
Qed.

Lemma same_wf st st' : same_registry st st' -> wf st -> wf st'.
Proof.
  intros H (H1 & H2 & H3). pose proof (fun u e => same_array_of st st' u e H) as Ha.
  destruct H as [Hr Hs]. unfold wf. rewrite Hr, Hs.
  split; [done|]. split.
  - intros u e a. rewrite Ha. apply H2.
  - intros u e u' e' a. rewrite !Ha. apply H3.
Qed.

Lemma same_unstopped st st' n : same_registry st st' -> unstopped st n -> unstopped st' n.
Proof. intros H Hu u l. rewrite (same_handlers_of _ _ _ _ H). apply Hu. Qed.

Lemma delivered_stopped ev args st u :
  propagating st (name ev) = false -> delivered ev args st u = st.
Proof. apply offered_stopped. Qed.

Lemma foldl_delivered_stopped ev args us : forall st,
  propagating st (name ev) = false -> foldl (delivered ev args) st us = st.
Proof.
  induction us as [|u us IH]; intros st Hp; simpl; [done|].
  rewrite delivered_stopped by done. by apply IH.
Qed.

(** When no listener of the uid stops the event, delivery adds the calls of
    its listeners and nothing else. *)
Lemma delivered_unstopped ev args st u :
  propagating st (name ev) = true -> unstopped st (name ev) ->
  delivered ev args st u = set_calls (calls st ++ calls_of st ev args u) st.
Proof.
  intros Hp Hu. unfold delivered, offered, calls_of. rewrite Hp.
  destruct (until_stop_unstopped (handlers_of st u (name ev))) as [-> ->]; [|done].
  apply Forall_forall. intros l Hl. by eapply Hu.
Qed.

Lemma foldl_delivered_unstopped ev args us : forall st,
  propagating st (name ev) = true -> unstopped st (name ev) ->
  foldl (delivered ev args) st us
  = set_calls (calls st ++ flat_map (calls_of st ev args) us) st.
Proof.
  induction us as [|u us IH]; intros st Hp Hu; simpl.
  - by rewrite app_nil_r, set_calls_id.
  - rewrite (delivered_unstopped _ _ _ _ Hp Hu).
    set (s1 := set_calls _ st).
    assert (same_registry st s1) as Hs by done.
    rewrite IH; [|done|by eapply same_unstopped].
    rewrite (flat_map_ext (calls_of s1 ev args) (calls_of st ev args))
      by (intros; by apply same_calls_of).
    subst s1. simpl. by rewrite <- app_assoc.
Qed.

(** ** The event manager: the three directions of dispatch *)

(** The state in which [sendEvent] has set the flag of the event. *)
Lemma started_same st n :
  same_registry st (set_propagatingEvents (<[n := true]> (propagatingEvents st)) st).
Proof. done. Qed.

Lemma started_propagating st n :
  propagating (set_propagatingEvents (<[n := true]> (propagatingEvents st)) st) n = true.
Proof. unfold propagating. simpl. by rewrite lookup_insert_eq. Qed.

Lemma ancestors_head c : exists cs, ancestors c = c :: cs.
Proof. destruct c as [u p cs]. simpl. by eexists. Qed.

Lemma ancestors_parent c :
  ancestors c = c :: match parent c with Some p => ancestors p | None => [] end.
Proof. by destruct c as [u p cs]. Qed.

Lemma dispatchUp_loop_step fuel ev args c u st :
  wf st -> propagating st (name ev) = true -> uid c = Some u ->
  dispatchUp_loop (S fuel) ev args (Some c) st
  = dispatchUp_loop fuel ev args (parent c) (delivered ev args st u).
Proof.
  intros Hwf Hp Hu. simpl. unfold bind at 1, get_state at 1. rewrite Hp, Hu.
  by rewrite (events_bind_ok _ _ _ _ _ (__executeEvent_run u ev args st Hwf)).
Qed.

Lemma dispatchUp_loop_stopped fuel ev args p st :
  propagating st (name ev) = false ->
  dispatchUp_loop (S fuel) ev args p st = (Ok tt, st).
Proof. intros Hp. simpl. unfold bind, get_state. rewrite Hp. by destruct p. Qed.

Lemma dispatchUp_loop_run ev args : forall n c fuel st,
  length (ancestors c) = n -> wf st ->
  Forall (fun c => is_Some (uid c)) (ancestors c) -> n < fuel ->
  dispatchUp_loop fuel ev args (Some c) st
  = (Ok tt, foldl (delivered ev args) st (omap uid (ancestors c))).
Proof.
  induction n as [|n IH]; intros c fuel st Hn Hwf Hall Hf.
  { destruct (ancestors_head c) as [cs Hc]. rewrite Hc in Hn. simpl in Hn. lia. }
  destruct fuel as [|fuel]; [lia|].
  rewrite ancestors_parent in Hn, Hall |- *.
  inversion Hall as [|? ? [u Hu] Hall']; subst.
  simpl. rewrite Hu. simpl. unfold bind at 1, get_state at 1.
  destruct (propagating st (name ev)) eqn:Hp.
  2:{ rewrite delivered_stopped by done. by rewrite foldl_delivered_stopped. }
  rewrite (events_bind_ok _ _ _ _ _ (__executeEvent_run u ev args st Hwf)).
  simpl in Hn. destruct (parent c) as [p|].
  - apply IH; [lia | | done | lia].
    eapply same_wf; [apply delivered_same | done].
  - destruct fuel as [|fuel]; [lia|]. done.
Qed.

Lemma dispatchUp_loop_no_uid ev args c : forall fuel st,
  uid c = None -> propagating st (name ev) = true ->
  dispatchUp_loop fuel ev args (Some c) st = (Beyond, st).
Proof.
  induction fuel as [|fuel IH]; intros st Hu Hp; [done|].
  simpl. unfold bind, get_state. rewrite Hp, Hu. by apply IH.
Qed.

Lemma delivered_unstopped_facts ev args st u :
  wf st -> propagating st (name ev) = true -> unstopped st (name ev) ->
  wf (delivered ev args st u)
  /\ propagating (delivered ev args st u) (name ev) = true
  /\ unstopped (delivered ev args st u) (name ev).
Proof.
  intros Hwf Hp Hu. split; [|split].
  - eapply same_wf; [apply delivered_same | done].
  - by rewrite delivered_unstopped.
  - eapply same_unstopped; [apply delivered_same | done].
Qed.

Lemma dispatchUp_loop_stuck ev args c' post : forall pre c fuel st,
  ancestors c = pre ++ c' :: post ->
  Forall (fun c => is_Some (uid c)) pre -> uid c' = None ->
  wf st -> propagating st (name ev) = true -> unstopped st (name ev) ->
  exists st', dispatchUp_loop fuel ev args (Some c) st = (Beyond, st')
              /\ propagating st' (name ev) = true.
Proof.
  induction pre as [|c0 pre IH]; intros c fuel st Hc Hpre Hu' Hwf Hp Hu.
  - destruct (ancestors_head c) as [cs Hcs]. rewrite Hcs in Hc. simpl in Hc.
    inversion Hc; subst. exists st. split; [by apply dispatchUp_loop_no_uid | done].
  - rewrite ancestors_parent in Hc. simpl in Hc. inversion Hc as [[E1 E2]]. subst c0.
    inversion Hpre as [|? ? [u Hcu] Hpre']; subst.
    destruct fuel as [|fuel]; [by exists st|].
    simpl. unfold bind at 1, get_state at 1. rewrite Hp, Hcu.
    rewrite (events_bind_ok _ _ _ _ _ (__executeEvent_run u ev args st Hwf)).
    destruct (delivered_unstopped_facts ev args st u Hwf Hp Hu) as (Hwf1 & Hp1 & Hu1).
    destruct (parent c) as [p|]; [|by destruct pre].
    by apply IH.
Qed.

(** [_dispatchDown]: its stack, its order, its fuel. *)

Lemma descent_children u p cs :
  descent (Control (Some u) p (Some cs)) = u :: flat_map descent (reverse cs).
Proof.
  simpl. f_equal. induction cs as [|c cs IH]; [done|].
  rewrite reverse_cons, flat_map_app, IH. simpl. by rewrite app_nil_r.
Qed.

Lemma size_children u p cs : size (Control u p (Some cs)) = S (sum_list (size <$> cs)).
Proof. simpl. f_equal. induction cs as [|c cs IH]; [done|]. simpl. by rewrite IH. Qed.

Lemma size_pos c : 0 < size c.
Proof. destruct c as [u p [cs|]]; simpl; lia. Qed.

Lemma sum_list_app l1 l2 : sum_list (l1 ++ l2) = sum_list l1 + sum_list l2.
Proof. induction l1 as [|x l1 IH]; simpl; lia. Qed.

Lemma dispatchDown_loop_run ev args : forall fuel stack st,
  wf st -> sum_list (size <$> stack) < fuel ->
  dispatchDown_loop fuel ev args (Some <$> stack) st
  = (Ok tt, foldl (delivered ev args) st (flat_map descent (reverse stack))).
Proof.
  induction fuel as [|fuel IH]; intros stack st Hwf Hf; [lia|].
  destruct stack as [|c stack _] using rev_ind; [done|].
  simpl. unfold bind at 1, get_state at 1.
  rewrite fmap_app. simpl. rewrite pop_snoc.
  rewrite reverse_snoc. simpl. rewrite foldl_app.
  rewrite fmap_app, sum_list_app in Hf. simpl in Hf.
  destruct (propagating st (name ev)) eqn:Hp.
  2:{ rewrite (foldl_delivered_stopped _ _ (descent c)) by done.
      by rewrite foldl_delivered_stopped. }
  destruct c as [[u|] p cs].
  2:{ simpl. apply IH; [done|]. destruct cs; simpl in Hf; lia. }
  assert (wf (delivered ev args st u)) as Hwf1
    by (eapply same_wf; [apply delivered_same | done]).
  destruct cs as [cs|].
  - rewrite descent_children. rewrite size_children in Hf. simpl.
    rewrite (events_bind_ok _ _ _ _ _ (__executeEvent_run u ev args st Hwf)).
    rewrite <- fmap_app, IH; [|done|rewrite fmap_app, sum_list_app; lia].
    by rewrite reverse_app, flat_map_app, foldl_app.
  - simpl. rewrite (events_bind_ok _ _ _ _ _ (__executeEvent_run u ev args st Hwf)).
    apply IH; [done | simpl in Hf; lia].
Qed.

Lemma delivered_absent ev args st u :
  array_of st u (name ev) = None -> delivered ev args st u = st.
Proof. intros H. unfold delivered, handlers_of. rewrite H. apply offered_nil. Qed.

Lemma dispatchDirect_loop_run ev args us : forall st,
  wf st -> dispatchDirect_loop ev args us st = (Ok tt, foldl (delivered ev args) st us).
Proof.
  induction us as [|u us IH]; intros st Hwf; [done|].
  simpl. unfold bind at 1, get_state at 1.
  destruct (propagating st (name ev)) eqn:Hp; simpl.
  2:{ rewrite delivered_stopped by done. by rewrite foldl_delivered_stopped. }
  destruct (dget (__eventsListeners st) u) as [el|] eqn:Hel.
  2:{ rewrite delivered_absent; [by apply IH|]. unfold array_of. by rewrite Hel. }
  destruct (listeners el !! name ev) as [a|] eqn:Ha.
  2:{ rewrite delivered_absent; [by apply IH|]. unfold array_of. by rewrite Hel. }
  assert (array_of st u (name ev) = Some a) as Harr by (unfold array_of; by rewrite Hel).
  destruct (wf_array _ _ _ _ Hwf Harr) as [ls Hls].
  rewrite (events_bind_ok _ _ _ _ _ (__callListeners_run (context el) ev a args st ls Hls)).
  assert (offered (context el) ev args ls st = delivered ev args st u) as ->.
  { unfold delivered, handlers_of, context_of. rewrite Harr, Hel. simpl. by rewrite Hls. }
  apply IH. eapply same_wf; [apply delivered_same | done].
Qed.

(** What [sendEvent] leaves when the dispatch has delivered the event to the
    uids [us] and no listener has stopped it. *)
Lemma sendEvent_finish ev args st us :
  unstopped st (name ev) ->
  let s0 := set_propagatingEvents (<[name ev := true]> (propagatingEvents st)) st in
  let st' := set_propagatingEvents
               (delete (name ev) (propagatingEvents (foldl (delivered ev args) s0 us)))
               (foldl (delivered ev args) s0 us) in
  calls st' = calls st ++ flat_map (calls_of st ev args) us
  /\ propagatingEvents st' = delete (name ev) (propagatingEvents st)
  /\ same_registry st st'.
Proof.
  intros Hu s0 st'. subst st'.
  assert (same_registry st s0) as Hs by apply started_same.
  rewrite foldl_delivered_unstopped;
    [|apply started_propagating|by eapply same_unstopped].
  simpl. split; [done|]. split; [by rewrite delete_insert_eq | done].
Qed.

(** X3. An event sent up is delivered to the sender and then to each of its
    parents in turn, when all of them have a uid: the listeners each uid
    registered for the name of the event are applied in the order of their
    registration, to the context of that uid.  When no listener stops the
    event, [sendEvent] returns normally, also when listeners throw, with the
    flag of the event removed and the registry as it was. *)
Theorem sendEvent_up_reaches_sender_then_parents fuel ev args st c :
  wf st -> unstopped st (name ev) ->
  direction ev = "up" -> sender ev = Some c ->
  Forall (fun c => is_Some (uid c)) (ancestors c) ->
  length (ancestors c) < fuel ->
  exists st',
    sendEvent fuel ev args st = (Ok tt, st')
    /\ calls st' = calls st ++ flat_map (calls_of st ev args) (omap uid (ancestors c))
    /\ propagatingEvents st' = delete (name ev) (propagatingEvents st)
    /\ same_registry st st'.
Proof.
  intros Hwf Hu Hd Hs Hall Hf. unfold sendEvent. rewrite Hd. simpl.
  unfold bind at 1, modify at 1. unfold _dispatchUp. rewrite Hs.
  erewrite events_bind_ok.
  2:{ apply (dispatchUp_loop_run ev args (length (ancestors c)) c fuel); [done| |done|done].
      eapply same_wf; [apply started_same | done]. }
  eexists. split; [done|]. by apply sendEvent_finish.
Qed.

(** X4. An event sent up never comes back from a control with no uid: when
    the sender or one of its parents has no uid, and no listener below it
    stops the event, the loop of [_dispatchUp] stays on that control, so
    [sendEvent] does not return, whatever the fuel. *)
Theorem sendEvent_up_hangs_on_control_without_uid fuel ev args st c pre c' post :
  wf st -> unstopped st (name ev) ->
  direction ev = "up" -> sender ev = Some c ->
  ancestors c = pre ++ c' :: post ->
  Forall (fun c => is_Some (uid c)) pre ->
  uid c' = None ->
  exists st', sendEvent fuel ev args st = (Beyond, st')
              /\ propagating st' (name ev) = true.
Proof.
  intros Hwf Hu Hd Hs Hc Hpre Hu'. unfold sendEvent. rewrite Hd. simpl.
  unfold bind at 1, modify at 1. unfold _dispatchUp. rewrite Hs.
  set (s0 := set_propagatingEvents _ st).
  assert (wf s0) as Hwf0 by (eapply same_wf; [apply started_same | done]).
  assert (propagating s0 (name ev) = true) as Hp0 by apply started_propagating.
  assert (unstopped s0 (name ev)) as Hu0
    by (eapply same_unstopped; [apply started_same | done]).
  destruct (dispatchUp_loop_stuck ev args c' post pre c fuel s0 Hc Hpre Hu' Hwf0 Hp0 Hu0)
    as (st' & Hrun & Hp).
  exists st'. unfold bind. by rewrite Hrun.
Qed.

(** X5. A listener of the sender that clears the flag of the event ends an
    upward dispatch: the listeners of the sender up to that one are applied,
    the ones after it and the listeners of every parent are not, whatever
    the parents are. *)
Theorem sendEvent_up_stops_at_sender fuel ev args st c u pre s post :
  wf st -> direction ev = "up" -> sender ev = Some c -> uid c = Some u ->
  handlers_of st u (name ev) = pre ++ s :: post ->
  Forall (fun l => stops l = false) pre -> stops s = true ->
  exists st',
    sendEvent (S (S fuel)) ev args st = (Ok tt, st')
    /\ calls st' = calls st ++ flat_map (applied (context_of st u) ev args) (pre ++ [s])
    /\ propagatingEvents st' = delete (name ev) (propagatingEvents st)
    /\ same_registry st st'.
Proof.
  intros Hwf Hd Hs Hcu Hh Hpre Hstop. unfold sendEvent. rewrite Hd. simpl.
  unfold bind at 1, modify at 1. unfold _dispatchUp. rewrite Hs.
  set (s0 := set_propagatingEvents _ st).
  assert (same_registry st s0) as Hsame by apply started_same.
  assert (wf s0) as Hwf0 by (eapply same_wf; done).
  assert (propagating s0 (name ev) = true) as Hp0 by apply started_propagating.
  unfold bind, modify.
  rewrite (dispatchUp_loop_step _ _ _ _ _ _ Hwf0 Hp0 Hcu).
  assert (delivered ev args s0 u
          = set_calls (calls st ++ flat_map (applied (context_of st u) ev args) (pre ++ [s]))
              (set_propagatingEvents (<[name ev := false]> (propagatingEvents s0)) s0)) as ->.
  { unfold delivered, offered. rewrite Hp0.
    rewrite (same_handlers_of _ _ _ _ Hsame), (same_context_of _ _ _ Hsame), Hh.
    by destruct (until_stop_at pre s post Hpre Hstop) as [-> ->]. }
  rewrite dispatchUp_loop_stopped by apply propagating_insert_false.
  eexists. split; [done|]. subst s0. simpl. split; [done|]. split; [|done].
  by rewrite delete_insert_eq, delete_insert_eq.
Qed.

(** X6. An event sent down is delivered to the sender and to the controls
    below it in the order of [descent]: a control before its children, the
    children from the last to the first, each child with everything below
    it before the child before it; a control with no uid is passed over
    together with everything below it.  When no listener stops the event,
    [sendEvent] returns normally with the flag of the event removed and the
    registry as it was; fuel above the number of controls is enough. *)
Theorem sendEvent_down_reaches_children_last_first fuel ev args st c :
  wf st -> unstopped st (name ev) ->
  direction ev = "down" -> sender ev = Some c ->
  size c < fuel ->
  exists st',
    sendEvent fuel ev args st = (Ok tt, st')
    /\ calls st' = calls st ++ flat_map (calls_of st ev args) (descent c)
    /\ propagatingEvents st' = delete (name ev) (propagatingEvents st)
    /\ same_registry st st'.
Proof.
  intros Hwf Hu Hd Hs Hf. unfold sendEvent. rewrite Hd. simpl.
  unfold bind at 1, modify at 1. unfold _dispatchDown. rewrite Hs.
  erewrite events_bind_ok.
  2:{ apply (dispatchDown_loop_run ev args fuel [c]).
      - eapply same_wf; [apply started_same | done].
      - simpl. lia. }
  eexists. split; [done|]. simpl. rewrite app_nil_r. by apply sendEvent_finish.
Qed.

(** X7. An event with no sender: sent up, it reaches nobody and
    [sendEvent] returns; sent down, the loop reads the uid of the missing
    sender, the TypeError leaves [sendEvent], and the flag of the event
    stays set. *)
Theorem sendEvent_without_sender fuel n args st :
  sendEvent (S fuel) (DispatchEvent n None "up") args st
    = (Ok tt, set_propagatingEvents (delete n (propagatingEvents st)) st)
  /\ sendEvent (S fuel) (DispatchEvent n None "down") args st
    = (Throw TypeError, set_propagatingEvents (<[n := true]> (propagatingEvents st)) st).
Proof.
  split.
  - unfold sendEvent, bind, modify. simpl. by rewrite delete_insert_eq.
  - unfold sendEvent, bind, modify. simpl. unfold _dispatchDown. simpl.
    unfold bind, get_state. by rewrite started_propagating.
Qed.


(** X9. An event whose direction is none of [up], [down] and [direct] is
    dropped: no listener is applied, and [sendEvent] returns with the flag
    of the name of the event removed. *)
Theorem sendEvent_unknown_direction_is_dropped fuel ev args st :
  hasDirection (direction ev) = false ->
  sendEvent fuel ev args st
  = (Ok tt, set_propagatingEvents (delete (name ev) (propagatingEvents st)) st).
Proof.
  unfold hasDirection. intros H.
  apply orb_false_iff in H as [H H3]. apply orb_false_iff in H as [H1 H2].
  unfold sendEvent. rewrite H1, H2, H3. unfold bind, modify. simpl.
  by rewrite delete_insert_eq.
Qed.

(** ** The event manager: registering and removing listeners *)

Lemma dset_dset {A} (d : dict A) k a b : dset (dset d k a) k b = dset d k b.
Proof.
  induction d as [|[k' a'] d IH]; simpl.
  - by rewrite String.eqb_refl.
  - destruct (String.eqb k' k) eqn:E; simpl; rewrite E; [done | by rewrite IH].
Qed.

(** [on] in one step: the listener goes to the end of the array the uid has
    for the event, or to a new array. *)
Lemma on_run u e l c st :
  wf st ->
  on u e l c st
  = match array_of st u e with
    | Some a =>
        (Ok (Splice a (length (handlers_of st u e))),
         set_arrays (<[a := handlers_of st u e ++ [l]]> (arrays st)) st)
    | None =>
        let eventsListener := default (EventsListener ∅ c) (dget (__eventsListeners st) u) in
        let a := length (arrays st) in
        (Ok (Splice a 0),
         set_arrays (arrays st ++ [[l]])
           (set_eventsListeners
              (dset (__eventsListeners st) u
                 (set_listeners (<[e := a]> (listeners eventsListener)) eventsListener)) st))
    end.
Proof.
  intros Hwf. pose proof (wf_array st u e) as Hv.
  unfold handlers_of. unfold on.
  unfold bind at 1, get_state at 1.
  assert (array_of st u e
          = dget (__eventsListeners st) u ≫= fun el => listeners el !! e) as Harr by done.
  destruct (dget (__eventsListeners st) u) as [el|] eqn:Hel; simpl in Harr; rewrite Harr; simpl.
  - unfold bind at 1, ret at 1.
    destruct (listeners el !! e) as [a|] eqn:Ha; simpl.
    + destruct (Hv a Hwf Harr) as [ls Hls].
      unfold bind, ret, get_state, modify. rewrite Hls. simpl.
      rewrite length_app. simpl. by replace (length ls + 1 - 1) with (length ls) by lia.
    + unfold bind, ret, get_state, modify. simpl.
      rewrite lookup_app_r by done. rewrite Nat.sub_diag. simpl.
      rewrite insert_app_r_alt by done. rewrite Nat.sub_diag. done.
  - unfold bind, ret, get_state, modify. simpl. rewrite lookup_empty. simpl.
    rewrite lookup_app_r by done. rewrite Nat.sub_diag. simpl.
    rewrite insert_app_r_alt by done. rewrite Nat.sub_diag. simpl. by rewrite dset_dset.
Qed.

(** The listener array of every uid and event after [on]. *)
Lemma on_array_of u e l c st r st' :
  wf st -> on u e l c st = (Ok r, st') ->
  exists a,
    array_of st' u e = Some a
    /\ (forall u' e', (u', e') ≠ (u, e) -> array_of st' u' e' = array_of st u' e')
    /\ arrays st' !! a = Some (handlers_of st u e ++ [l])
    /\ (forall a', a' ≠ a -> a' < length (arrays st) -> arrays st' !! a' = arrays st !! a')
    /\ length (arrays st) <= length (arrays st')
    /\ (array_of st u e = None -> a = length (arrays st) /\ length (arrays st') = S a)
    /\ (array_of st u e = Some a \/ array_of st u e = None)
    /\ r = Splice a (length (handlers_of st u e)).
Proof.
  intros Hwf. rewrite on_run by done. pose proof (wf_array st u e) as Hv.
  destruct (array_of st u e) as [a|] eqn:Ha.
  - intros H. inversion H; subst. clear H. exists a.
    destruct (Hv a Hwf eq_refl) as [ls Hls].
    assert (handlers_of st u e = ls) as Hh by (unfold handlers_of; by rewrite Ha; simpl; rewrite Hls).
    split; [done|]. split; [done|]. simpl. rewrite Hh.
    split; [by rewrite list_lookup_insert_eq by (by eapply lookup_lt_Some)|].
    split; [intros a' Hne _; by rewrite list_lookup_insert_ne|].
    split; [by rewrite length_insert|]. split; [done|]. split; [by left | done].
  - simpl. intros H. inversion H; subst. clear H. exists (length (arrays st)).
    assert (handlers_of st u e = []) as Hh by (unfold handlers_of; by rewrite Ha).
    rewrite Hh. unfold array_of in *. simpl.
    split; [by rewrite dget_dset_eq; simpl; rewrite lookup_insert_eq|].
    split.
    { intros u' e' Hne. rewrite dget_dset. destruct (decide (u = u')) as [<-|Hu]; [|done].
      simpl. assert (e ≠ e') as He by congruence. rewrite lookup_insert_ne by done.
      by destruct (dget (__eventsListeners st) u). }
    split; [by rewrite lookup_app_r, Nat.sub_diag|].
    split; [intros a' _ Hlt; by rewrite lookup_app_l|].
    split; [rewrite length_app; lia|].
    split; [intros _; split; [done | rewrite length_app; simpl; lia]|].
    split; [by right | done].
Qed.

Lemma on_same_rest u e l c st r st' :
  wf st -> on u e l c st = (Ok r, st') ->
  calls st' = calls st /\ propagatingEvents st' = propagatingEvents st
  /\ dkeys (__eventsListeners st')
     = match dget (__eventsListeners st) u with
       | Some _ => dkeys (__eventsListeners st)
       | None => dkeys (__eventsListeners st) ++ [u]
       end
  /\ context_of st' u
     = match dget (__eventsListeners st) u with
       | Some eventsListener => context eventsListener
       | None => c
       end
  /\ (forall u', u' ≠ u -> context_of st' u' = context_of st u').
Proof.
  intros Hwf. rewrite on_run by done. unfold context_of, array_of.
  destruct (dget (__eventsListeners st) u) as [el|] eqn:Hel; simpl.
  - destruct (listeners el !! e) as [a|]; simpl; intros H; inversion H; subst; clear H; simpl.
    + by rewrite Hel.
    + rewrite dkeys_dset, Hel, dget_dset_eq. simpl. repeat split; try done.
      intros u' Hne. by rewrite dget_dset_ne.
  - intros H; inversion H; subst; clear H; simpl.
    rewrite dkeys_dset, Hel, dget_dset_eq. simpl. repeat split; try done.
    intros u' Hne. by rewrite dget_dset_ne.
Qed.

Lemma on_wf u e l c st r st' : wf st -> on u e l c st = (Ok r, st') -> wf st'.
Proof.
  intros Hwf Hon.
  destruct (on_array_of _ _ _ _ _ _ _ Hwf Hon)
    as (a & Ha & Hoth & Harr & Hkeep & Hlen & Hnew & Hcase & _).
  destruct (on_same_rest _ _ _ _ _ _ _ Hwf Hon) as (_ & _ & Hkeys & _).
  destruct Hwf as (Hnd & Hv & Hinj). split; [|split].
  - rewrite Hkeys. destruct (dget (__eventsListeners st) u) eqn:E; [done|].
    apply NoDup_app. split; [done|]. split; [|apply NoDup_singleton].
    intros x Hx Hk. apply list_elem_of_singleton in Hk as ->. by apply dget_None in E.
  - intros u' e' a'. destruct (decide ((u', e') = (u, e))) as [E|Hne].
    + inversion E; subst. rewrite Ha. intros [= <-]. by eapply lookup_lt_Some.
    + rewrite Hoth by done. intros H. apply Hv in H. lia.
  - assert (forall u' e', (u', e') ≠ (u, e) -> array_of st u' e' ≠ Some a) as Hfresh.
    { intros u' e' Hne H. destruct Hcase as [Hc|Hc].
      - destruct (Hinj _ _ _ _ _ H Hc). congruence.
      - destruct (Hnew Hc) as [-> _]. apply Hv in H. lia. }
    intros u1 e1 u2 e2 a'.
    destruct (decide ((u1, e1) = (u, e))) as [E1|N1];
      destruct (decide ((u2, e2) = (u, e))) as [E2|N2].
    + inversion E1; inversion E2; by subst.
    + inversion E1; subst. rewrite Ha, (Hoth _ _ N2). intros [= <-] H. by destruct (Hfresh _ _ N2).
    + inversion E2; subst. rewrite Ha, (Hoth _ _ N1). intros H [= <-]. by destruct (Hfresh _ _ N1).
    + rewrite (Hoth _ _ N1), (Hoth _ _ N2). apply Hinj.
Qed.

Lemma on_handlers_of u e l c st r st' :
  wf st -> on u e l c st = (Ok r, st') ->
  handlers_of st' u e = handlers_of st u e ++ [l]
  /\ forall u' e', (u', e') ≠ (u, e) -> handlers_of st' u' e' = handlers_of st u' e'.
Proof.
  intros Hwf Hon.
  destruct (on_array_of _ _ _ _ _ _ _ Hwf Hon)
    as (a & Ha & Hoth & Harr & Hkeep & Hlen & Hnew & Hcase & _).
  split.
  - unfold handlers_of at 1. rewrite Ha. simpl. by rewrite Harr.
  - intros u' e' Hne. unfold handlers_of. rewrite Hoth by done.
    destruct (array_of st u' e') as [a'|] eqn:Ha'; [|done]. simpl.
    destruct Hwf as (_ & Hv & Hinj). rewrite Hkeep; [done| |by eapply Hv].
    intros ->. destruct Hcase as [Hc|Hc].
    + destruct (Hinj _ _ _ _ _ Ha' Hc). congruence.
    + destruct (Hnew Hc) as [-> _]. apply Hv in Ha'. lia.
Qed.


Lemma call_remove_spec a i st st' :
  wf st -> call_remove (Splice a i) st = (Ok tt, st') ->
  wf st'
  /\ (forall u e, array_of st' u e = array_of st u e)
  /\ (forall u e, handlers_of st' u e
                  = if decide (array_of st u e = Some a) then delete i (handlers_of st u e)
                    else handlers_of st u e)
  /\ (forall u, context_of st' u = context_of st u)
  /\ calls st' = calls st.
Proof.
  intros Hwf H. unfold call_remove, modify in H. inversion H as [Hst]. clear H.
  destruct (arrays st !! a) as [ls|] eqn:Hls.
  - assert (a < length (arrays st)) as Hlt by (by eapply lookup_lt_Some).
    split; [|split; [done|split; [|done]]].
    + destruct Hwf as (H1 & H2 & H3). split; [done|]. split; [|done].
      intros u e a' Ha'. simpl. rewrite length_insert. by eapply H2.
    + intros u e. unfold handlers_of.
      replace (array_of (set_arrays (<[a:=delete i ls]> (arrays st)) st) u e)
        with (array_of st u e) by done.
      case_decide as Hd.
      * rewrite Hd. simpl. by rewrite list_lookup_insert_eq, Hls.
      * destruct (array_of st u e) as [a'|]; [|done]. simpl.
        rewrite list_lookup_insert_ne; [done | congruence].
  - split; [done|]. split; [done|]. split; [|done].
    intros u e. case_decide as Hd; [|done].
    unfold handlers_of. rewrite Hd. simpl. by rewrite Hls.
Qed.

Lemma call_remove_returns r st : exists st', call_remove r st = (Ok tt, st').
Proof. destruct r. by eexists. Qed.

(** X11. A listener removed right after its registration leaves every uid
    with the listeners it had before, for every event. *)
Theorem on_then_remove_restores_listeners u e l c st r s1 s2 :
  wf st ->
  on u e l c st = (Ok r, s1) ->
  call_remove r s1 = (Ok tt, s2) ->
  forall u' e', handlers_of s2 u' e' = handlers_of st u' e'.
Proof.
  intros Hwf Hon Hrm u' e'.
  destruct (on_array_of _ _ _ _ _ _ _ Hwf Hon) as (a & Ha & Hoth & _ & _ & _ & _ & _ & ->).
  destruct (on_handlers_of _ _ _ _ _ _ _ Hwf Hon) as [H1 H2].
  pose proof (on_wf _ _ _ _ _ _ _ Hwf Hon) as Hwf1.
  destruct (call_remove_spec _ _ _ _ Hwf1 Hrm) as (_ & _ & Hh & _). rewrite Hh.
  destruct (decide ((u', e') = (u, e))) as [E|Hne].
  - inversion E; subst. rewrite decide_True by done. rewrite H1.
    rewrite (delete_middle (handlers_of st u e) [] l). by rewrite app_nil_r.
  - rewrite decide_False; [by apply H2|].
    intros Ha'. destruct Hwf1 as (_ & _ & Hinj).
    destruct (Hinj _ _ _ _ _ Ha' Ha). congruence.
Qed.

(** X12. The function [on] returns removes by position: it takes out
    whatever listener is, when it is called, at the index its own listener
    had at registration.  With three listeners registered in a row for one
    uid and event, removing the first and then the second leaves the second
    registered and takes out the third. *)
Theorem remover_takes_listener_at_old_index u e l1 l2 l3 c1 c2 c3 st r1 r2 r3
    s1 s2 s3 s4 s5 :
  wf st ->
  on u e l1 c1 st = (Ok r1, s1) ->
  on u e l2 c2 s1 = (Ok r2, s2) ->
  on u e l3 c3 s2 = (Ok r3, s3) ->
  call_remove r1 s3 = (Ok tt, s4) ->
  call_remove r2 s4 = (Ok tt, s5) ->
  handlers_of s5 u e = handlers_of st u e ++ [l2].
Proof.
  intros Hwf Hon1 Hon2 Hon3 Hrm1 Hrm2.
  pose proof (on_wf _ _ _ _ _ _ _ Hwf Hon1) as Hwf1.
  pose proof (on_wf _ _ _ _ _ _ _ Hwf1 Hon2) as Hwf2.
  pose proof (on_wf _ _ _ _ _ _ _ Hwf2 Hon3) as Hwf3.
  destruct (on_array_of _ _ _ _ _ _ _ Hwf Hon1) as (a & Ha1 & _ & _ & _ & _ & _ & _ & ->).
  destruct (on_array_of _ _ _ _ _ _ _ Hwf1 Hon2) as (a2 & Ha2 & _ & _ & _ & _ & _ & Hc2 & ->).
  destruct (on_array_of _ _ _ _ _ _ _ Hwf2 Hon3) as (a3 & Ha3 & _ & _ & _ & _ & _ & Hc3 & _).
  assert (a2 = a) as -> by (destruct Hc2; congruence).
  assert (a3 = a) as -> by (destruct Hc3; congruence).
  destruct (on_handlers_of _ _ _ _ _ _ _ Hwf Hon1) as [H1 _].
  destruct (on_handlers_of _ _ _ _ _ _ _ Hwf1 Hon2) as [H2 _].
  destruct (on_handlers_of _ _ _ _ _ _ _ Hwf2 Hon3) as [H3 _].
  destruct (call_remove_spec _ _ _ _ Hwf3 Hrm1) as (Hwf4 & Harr4 & Hh4 & _).
  destruct (call_remove_spec _ _ _ _ Hwf4 Hrm2) as (_ & _ & Hh5 & _).
  rewrite Hh5, Harr4, decide_True by done.
  rewrite Hh4, decide_True by done.
  rewrite H3, H2, H1. set (pre := handlers_of st u e).
  rewrite <- !app_assoc. simpl.
  rewrite (delete_middle pre [l2; l3] l1).
  replace (length (pre ++ [l1])) with (length (pre ++ [l2])) by (by rewrite !length_app).
  change (pre ++ [l2; l3]) with (pre ++ [l2] ++ [l3]).
  by rewrite (app_assoc pre [l2] [l3]), (delete_middle (pre ++ [l2]) [] l3), app_nil_r.
Qed.

Lemma dispose_spec u st :
  wf st ->
  let st' := set_eventsListeners (ddel (__eventsListeners st) u) st in
  dispose u st = (Ok tt, st')
  /\ wf st'
  /\ (forall e, array_of st' u e = None)
  /\ (forall u' e, u' ≠ u -> array_of st' u' e = array_of st u' e)
  /\ (forall u', u' ≠ u -> context_of st' u' = context_of st u').
Proof.
  intros (Hnd & Hv & Hinj) st'. subst st'.
  assert (forall e, array_of (set_eventsListeners (ddel (__eventsListeners st) u) st) u e = None)
    as Hu by (intros e; unfold array_of; simpl; by rewrite dget_ddel_eq).
  assert (forall u' e, u' ≠ u ->
            array_of (set_eventsListeners (ddel (__eventsListeners st) u) st) u' e
            = array_of st u' e)
    as Hoth by (intros u' e Hne; unfold array_of; simpl; by rewrite dget_ddel_ne).
  split; [done|]. split; [|split; [done|split; [done|]]].
  - split; [by apply NoDup_ddel|]. split.
    + intros u' e a. destruct (decide (u' = u)) as [->|Hne]; [by rewrite Hu|].
      rewrite Hoth by done. apply Hv.
    + intros u1 e1 u2 e2 a.
      destruct (decide (u1 = u)) as [->|N1]; [by rewrite Hu|].
      destruct (decide (u2 = u)) as [->|N2]; [by rewrite (Hu e2)|].
      rewrite !Hoth by done. apply Hinj.
  - intros u' Hne. unfold context_of. simpl. by rewrite dget_ddel_ne.
Qed.

(** X13. [dispose] forgets the uid: it has no listener left for any event,
    so an event delivered to it reaches nobody; the listeners and the
    contexts of the other uids stay as they are. *)
Theorem dispose_forgets_the_uid u st :
  wf st ->
  exists st',
    dispose u st = (Ok tt, st')
    /\ wf st'
    /\ (forall e, handlers_of st' u e = [])
    /\ (forall ev args, delivered ev args st' u = st')
    /\ (forall u' e, u' ≠ u -> handlers_of st' u' e = handlers_of st u' e)
    /\ (forall u', u' ≠ u -> context_of st' u' = context_of st u').
Proof.
  intros Hwf. destruct (dispose_spec u st Hwf) as (Hd & Hwf' & Hu & Hoth & Hctx).
  eexists. split; [exact Hd|]. split; [done|].
  split; [intros e; unfold handlers_of; by rewrite Hu|].
  split; [intros ev args; by apply delivered_absent|].
  split; [|done]. intros u' e Hne. unfold handlers_of. by rewrite Hoth.
Qed.

(** X14. After [dispose] a uid registers afresh: the next [on] starts a new
    listener array with the context it is given, and a function [on]
    returned before the [dispose] no longer reaches the listeners of the
    uid. *)
Theorem remover_from_before_dispose_is_harmless u e l c l' c' st r s1 s2 r' s3 s4 :
  wf st ->
  on u e l c st = (Ok r, s1) ->
  dispose u s1 = (Ok tt, s2) ->
  on u e l' c' s2 = (Ok r', s3) ->
  call_remove r s3 = (Ok tt, s4) ->
  handlers_of s4 u e = [l'] /\ context_of s4 u = c'.
Proof.
  intros Hwf Hon Hd Hon' Hrm.
  pose proof (on_wf _ _ _ _ _ _ _ Hwf Hon) as Hwf1.
  destruct (on_array_of _ _ _ _ _ _ _ Hwf Hon) as (a & Ha & _ & Harr & _ & _ & _ & _ & ->).
  destruct (dispose_spec u s1 Hwf1) as (Hd' & Hwf2 & Hu & _).
  rewrite Hd in Hd'. inversion Hd' as [Hs2]. rewrite <- Hs2 in Hwf2, Hu.
  assert (arrays s2 = arrays s1) as Harrs by (by rewrite Hs2).
  pose proof (on_wf _ _ _ _ _ _ _ Hwf2 Hon') as Hwf3.
  destruct (on_array_of _ _ _ _ _ _ _ Hwf2 Hon') as (a' & Ha' & _ & _ & _ & _ & Hnew & _ & _).
  destruct (on_handlers_of _ _ _ _ _ _ _ Hwf2 Hon') as [Hh _].
  destruct (on_same_rest _ _ _ _ _ _ _ Hwf2 Hon') as (_ & _ & _ & Hctx & _).
  destruct (call_remove_spec _ _ _ _ Hwf3 Hrm) as (_ & _ & Hh4 & Hc4 & _).
  destruct (Hnew (Hu e)) as [Hfresh _]. rewrite Harrs in Hfresh.
  assert (a < length (arrays s1)) as Hlt by (by eapply lookup_lt_Some).
  split.
  - rewrite Hh4, decide_False by (rewrite Ha'; intros [= ->]; lia).
    rewrite Hh. unfold handlers_of. by rewrite Hu.
  - rewrite Hc4, Hctx.
    assert (dget (__eventsListeners s2) u = None) as ->; [|done].
    rewrite Hs2. simpl. apply dget_ddel_eq. by destruct Hwf1.
Qed.

(** ** The event manager: the examples *)

Lemma wf_no_events : wf no_events.
Proof.
  split; [apply NoDup_nil_2|]. split; [done|]. intros u e u' e' a H. done.
Qed.

Lemma on_returns u e l c st : wf st -> exists r st', on u e l c st = (Ok r, st').
Proof. intros Hwf. rewrite (on_run _ _ _ _ _ Hwf). destruct (array_of st u e); by eexists _, _. Qed.

Lemma registered_on u e l c st :
  wf st -> on u e l c st = (Ok (remover u e l c st), registered u e l c st).
Proof.
  intros Hwf. unfold remover, registered.
  by destruct (on_returns u e l c st Hwf) as (r & st' & ->).
Qed.

Lemma wf_registered u e l c st : wf st -> wf (registered u e l c st).
Proof. intros Hwf. eapply on_wf; [exact Hwf | by apply registered_on]. Qed.

Lemma removed_call_remove r st : call_remove r st = (Ok tt, removed r st).
Proof. unfold removed. by destruct (call_remove_returns r st) as [st' ->]. Qed.

Lemma disposed_dispose u st : wf st -> dispose u st = (Ok tt, disposed u st).
Proof. intros Hwf. unfold disposed. by destruct (dispose_spec u st Hwf) as [-> _]. Qed.

Lemma wf_in_flight n st : wf st -> wf (in_flight n st).
Proof. apply same_wf. apply started_same. Qed.

Lemma wf_bus : wf bus.
Proof. unfold bus. do 3 apply wf_registered. apply wf_no_events. Qed.

Lemma wf_bus_stopper : wf bus_stopper.
Proof. unfold bus_stopper. do 2 apply wf_registered. apply wf_bus. Qed.

(** No listener of the store stops an event. *)
Lemma unstopped_arrays st n :
  Forall (Forall (fun l => stops l = false)) (arrays st) -> unstopped st n.
Proof.
  intros Hall u l. unfold handlers_of.
  destruct (array_of st u n) as [a|]; simpl; [|by intros ?%elem_of_nil].
  destruct (arrays st !! a) as [ls|] eqn:Ha; simpl; [|by intros ?%elem_of_nil].
  intros Hl. apply list_elem_of_lookup_2 in Ha.
  rewrite Forall_forall in Hall. specialize (Hall _ Ha).
  rewrite Forall_forall in Hall. by apply Hall.
Qed.

Lemma unstopped_bus n : unstopped bus n.
Proof. apply unstopped_arrays. vm_compute. repeat constructor. Qed.

(** X1, witness: the two listeners of the view, the first of which throws. *)
Lemma callListeners_isolates_exceptions_witness :
  __callListeners (VStr "view") (ready view "up") 1 [VNum 7] (in_flight "ready" bus)
  = (Ok tt,
     set_calls [Applied 2 (VStr "view") (ready view "up") [VNum 7];
                Warn (ListenerError 2);
                Applied 3 (VStr "view") (ready view "up") [VNum 7]]
       (in_flight "ready" bus)).
Proof.
  apply (callListeners_isolates_exceptions (VStr "view") (ready view "up") 1 [VNum 7]
           (in_flight "ready" bus) [thrower 2; quiet 3]).
  - by vm_compute.
  - by vm_compute.
  - repeat constructor.
Defined.

(** X2, witness: the four listeners of the view, the third of which stops
    the event. *)
Lemma callListeners_stops_at_cleared_flag_witness :
  exists st',
    __callListeners VNull (ready view "up") 1 [] (in_flight "ready" bus_stopper) = (Ok tt, st')
    /\ calls st'
       = calls (in_flight "ready" bus_stopper)
         ++ flat_map (applied VNull (ready view "up") []) ([thrower 2; quiet 3] ++ [stopper 4])
    /\ propagating st' "ready" = false
    /\ arrays st' = arrays (in_flight "ready" bus_stopper).
Proof.
  apply (callListeners_stops_at_cleared_flag VNull (ready view "up") 1 []
           (in_flight "ready" bus_stopper) [thrower 2; quiet 3] (stopper 4) [quiet 5]).
  - by vm_compute.
  - by vm_compute.
  - repeat constructor.
  - reflexivity.
Defined.

(** X3, witness: the view sends [ready] up to the page. *)
Lemma sendEvent_up_reaches_sender_then_parents_witness :
  exists st',
    sendEvent 3 (ready view "up") [] bus = (Ok tt, st')
    /\ calls st' = calls bus ++ flat_map (calls_of bus (ready view "up") [])
                                  (omap uid (ancestors view))
    /\ propagatingEvents st' = delete "ready" (propagatingEvents bus)
    /\ same_registry bus st'.
Proof.
  apply (sendEvent_up_reaches_sender_then_parents 3 (ready view "up") [] bus view).
  - exact wf_bus.
  - apply unstopped_bus.
  - reflexivity.
  - reflexivity.
  - repeat constructor; by eexists.
  - simpl. lia.
Defined.

(** X4, witness: the parent of the view has no uid. *)
Lemma sendEvent_up_hangs_on_control_without_uid_witness :
  exists st', sendEvent 100 (ready loose_view "up") [] bus = (Beyond, st')
              /\ propagating st' "ready" = true.
Proof.
  apply (sendEvent_up_hangs_on_control_without_uid 100 (ready loose_view "up") [] bus
           loose_view [loose_view] (Control None (Some page) None) [page]).
  - exact wf_bus.
  - apply unstopped_bus.
  - reflexivity.
  - reflexivity.
  - reflexivity.
  - repeat constructor; by eexists.
  - reflexivity.
Defined.

(** X5, witness: the third listener of the view stops [ready]. *)
Lemma sendEvent_up_stops_at_sender_witness :
  exists st',
    sendEvent 2 (ready view "up") [] bus_stopper = (Ok tt, st')
    /\ calls st'
       = calls bus_stopper
         ++ flat_map (applied (context_of bus_stopper "view") (ready view "up") [])
              ([thrower 2; quiet 3] ++ [stopper 4])
    /\ propagatingEvents st' = delete "ready" (propagatingEvents bus_stopper)
    /\ same_registry bus_stopper st'.
Proof.
  apply (sendEvent_up_stops_at_sender 0 (ready view "up") [] bus_stopper view "view"
           [thrower 2; quiet 3] (stopper 4) [quiet 5]).
  - exact wf_bus_stopper.
  - reflexivity.
  - reflexivity.
  - reflexivity.
  - by vm_compute.
  - repeat constructor.
  - reflexivity.
Defined.

(** X6, witness: the page sends [ready] down to the view and the menu. *)
Lemma sendEvent_down_reaches_children_last_first_witness :
  exists st',
    sendEvent 4 (ready page_tree "down") [] bus = (Ok tt, st')
    /\ calls st' = calls bus ++ flat_map (calls_of bus (ready page_tree "down") [])
                                  (descent page_tree)
    /\ propagatingEvents st' = delete "ready" (propagatingEvents bus)
    /\ same_registry bus st'.
Proof.
  apply (sendEvent_down_reaches_children_last_first 4 (ready page_tree "down") [] bus
           page_tree).
  - exact wf_bus.
  - apply unstopped_bus.
  - reflexivity.
  - reflexivity.
  - simpl. lia.
Defined.


(** X9, witness: the direction [sideways]. *)
Lemma sendEvent_unknown_direction_is_dropped_witness :
  sendEvent 5 (ready view "sideways") [] bus
  = (Ok tt, set_propagatingEvents (delete "ready" (propagatingEvents bus)) bus).
Proof.
  apply (sendEvent_unknown_direction_is_dropped 5 (ready view "sideways") [] bus).
  reflexivity.
Defined.


(** X11, witness: a listener of the page, removed again. *)
Lemma on_then_remove_restores_listeners_witness :
  handlers_of (removed (remover "page" "ready" (quiet 9) VNull bus)
                 (registered "page" "ready" (quiet 9) VNull bus)) "page" "ready"
  = handlers_of bus "page" "ready".
Proof.
  apply (on_then_remove_restores_listeners "page" "ready" (quiet 9) VNull bus
           (remover "page" "ready" (quiet 9) VNull bus)
           (registered "page" "ready" (quiet 9) VNull bus)).
  - exact wf_bus.
  - apply registered_on. exact wf_bus.
  - apply removed_call_remove.
Defined.

Lemma wf_row_1 : wf row_1.
Proof. apply wf_registered, wf_no_events. Qed.

Lemma wf_row_2 : wf row_2.
Proof. apply wf_registered, wf_row_1. Qed.

Lemma wf_disposed u st : wf st -> wf (disposed u st).
Proof.
  intros Hwf. destruct (dispose_spec u st Hwf) as (Hd & Hwf' & _).
  unfold disposed. by rewrite Hd.
Qed.

(** X12, witness: three listeners of the view; the first and the second are
    removed, the second stays. *)
Lemma remover_takes_listener_at_old_index_witness :
  handlers_of (removed remove_2 (removed remove_1 row_3)) "view" "ready"
  = handlers_of no_events "view" "ready" ++ [quiet 2].
Proof.
  apply (remover_takes_listener_at_old_index "view" "ready" (quiet 1) (quiet 2) (quiet 3)
           VNull VNull VNull no_events remove_1 remove_2
           (remover "view" "ready" (quiet 3) VNull row_2)
           row_1 row_2 row_3 (removed remove_1 row_3)).
  - exact wf_no_events.
  - apply registered_on, wf_no_events.
  - apply registered_on, wf_row_1.
  - apply registered_on, wf_row_2.
  - apply removed_call_remove.
  - apply removed_call_remove.
Defined.

(** X13, witness: the view is disposed. *)
Lemma dispose_forgets_the_uid_witness :
  exists st',
    dispose "view" bus = (Ok tt, st')
    /\ wf st'
    /\ (forall e, handlers_of st' "view" e = [])
    /\ (forall ev args, delivered ev args st' "view" = st')
    /\ (forall u' e, u' ≠ "view" -> handlers_of st' u' e = handlers_of bus u' e)
    /\ (forall u', u' ≠ "view" -> context_of st' u' = context_of bus u').
Proof.
  apply (dispose_forgets_the_uid "view" bus). exact wf_bus.
Defined.

(** X14, witness: the view registers, is disposed and registers again; then
    the function of the first registration is called. *)
Lemma remover_from_before_dispose_is_harmless_witness :
  handlers_of (removed remove_1 row_again) "view" "ready" = [quiet 8]
  /\ context_of (removed remove_1 row_again) "view" = VStr "new".
Proof.
  apply (remover_from_before_dispose_is_harmless "view" "ready" (quiet 1) VNull
           (quiet 8) (VStr "new") no_events remove_1 row_1 (disposed "view" row_1)
           (remover "view" "ready" (quiet 8) (VStr "new") (disposed "view" row_1))
           row_again).
  - exact wf_no_events.
  - apply registered_on, wf_no_events.
  - apply disposed_dispose, wf_row_1.
  - apply registered_on, wf_disposed, wf_row_1.
  - apply removed_call_remove.
Defined.

End EventManager.

(** * Further properties of the context manager *)

(** ** Assignments to an intercepted property *)

Lemma peek_stored (h : list obj) l k ob p a v :
  h !! l = Some ob ->
  o_isArray ob && String.eqb k "length" = false ->
  peek (<[l := set_props
               (<[k := Prop_ (Accessor (Acc (a_kind a) (a_manager a) (a_identifier a)
                                            (a_context a) (a_key a) v (a_isDefined a)))
                              (p_enumerable p) (p_configurable p)]> (o_props ob)) ob]> h)
       (VRef l) k = v.
Proof.
  intros Hl Hlen. simpl. rewrite list_lookup_insert_eq by (by eapply lookup_lt_Some).
  simpl. rewrite Hlen. by rewrite lookup_insert_eq.
Qed.

(** X15. An assignment of another value to an intercepted property stores
    the value and notifies the listeners registered for the identifier of
    the property, each once, in the order of registration, with the new and
    the old value; the value cache of the manager takes the new value.  This
    holds for a property observed while it held a defined primitive, and for
    one observed while it held an object when no identifier below it is
    observed; the listeners are assumed to return. *)
Theorem assign_notifies_in_registration_order l k v st ob p a mg :
  heap st !! l = Some ob ->
  o_isArray ob && String.eqb k "length" = false ->
  o_props ob !! k = Some p ->
  p_slot p = Accessor a ->
  managers st !! a_manager a = Some mg ->
  isArrayFunction mg = false ->
  strict_eq (a_value a) v = false ->
  match a_kind a with
  | APrimitive => a_isDefined a = true
  | AObject => identifierHash mg !! a_identifier a = Some []
  end ->
  Forall returns (default [] (identifiers mg !! a_identifier a)) ->
  exists st' mg',
    Put (VRef l) k v st = (Ok tt, st')
    /\ log st' = log st ++ omap (notification v (a_value a))
                             (default [] (identifiers mg !! a_identifier a))
    /\ peek (heap st') (VRef l) k = v
    /\ managers st' !! a_manager a = Some mg'
    /\ contextObjects mg' = cache_after (a_identifier a) v (contextObjects mg)
    /\ identifiers mg' = identifiers mg.
Proof.
  intros Hl Hlen Hp Hs Hm Hg Hne Hk Hr.
  unfold Put, bind at 1, the_obj. rewrite Hl, Hlen, Hp, Hs.
  unfold setter. rewrite Hne. unfold bind at 1, store_value, upd_obj. rewrite Hl.
  match goal with |- context [set_heap ?h st] => set (s1 := set_heap h st) end.
  assert (managers s1 !! a_manager a = Some mg) as Hm1 by done.
  pose proof (_execute_returns _ (a_identifier a) v (a_value a) s1 mg Hm1 Hr) as HE.
  assert (peek (heap s1) (VRef l) k = v) as Hpeek.
  { subst s1. simpl heap. rewrite Hp. by eapply peek_stored. }
  assert (length (managers s1) = length (managers st)) as Hlen1 by done.
  assert (a_manager a < length (managers st)) as Hlt by (by eapply lookup_lt_Some).
  unfold bind at 1, the_manager. rewrite Hm1, Hg.
  destruct (a_kind a).
  - rewrite Hk. simpl. unfold bind. rewrite HE. eexists _, _. split; [reflexivity|].
    simpl. split; [done|]. split; [exact Hpeek|].
    rewrite list_lookup_insert_eq by done. done.
  - unfold bind at 1. simpl. rewrite Hk. rewrite HE. eexists _, _. split; [reflexivity|].
    simpl. split; [done|]. split; [exact Hpeek|].
    rewrite list_lookup_insert_eq by done. done.
Qed.

(** X16. The instance method [dispose] clears the registries of the manager
    and leaves the accessors it installed on the data.  After it, assigning
    another value to a property observed while it held an object stores the
    value and throws a TypeError, the setter reading the length of a missing
    entry of [__identifierHash]; assigning to a property observed while it
    held a defined primitive stores the value and notifies nobody. *)
Theorem assign_after_dispose l k v st ob p a mg :
  heap st !! l = Some ob ->
  o_isArray ob && String.eqb k "length" = false ->
  o_props ob !! k = Some p ->
  p_slot p = Accessor a ->
  managers st !! a_manager a = Some mg ->
  isArrayFunction mg = false ->
  strict_eq (a_value a) v = false ->
  match a_kind a with APrimitive => a_isDefined a = true | AObject => True end ->
  exists s1 st',
    dispose (a_manager a) st = (Ok tt, s1)
    /\ Put (VRef l) k v s1
       = (match a_kind a with AObject => Throw TypeError | APrimitive => Ok tt end, st')
    /\ peek (heap st') (VRef l) k = v
    /\ log st' = log st.
Proof.
  intros Hl Hlen Hp Hs Hm Hg Hne Hk.
  assert (a_manager a < length (managers st)) as Hlt by (by eapply lookup_lt_Some).
  set (mg1 := Mgr VNull ∅ ∅ ∅ (isArrayFunction mg) (observedIdentifier mg)).
  set (s1 := set_managers (<[a_manager a := mg1]> (managers st)) st).
  assert (dispose (a_manager a) st = (Ok tt, s1)) as Hd
    by (unfold dispose, upd_manager; by rewrite Hm).
  assert (managers s1 !! a_manager a = Some mg1) as Hm1
    by (subst s1; simpl; by rewrite list_lookup_insert_eq).
  assert (heap s1 !! l = Some ob) as Hl1 by done.
  assert (log s1 = log st) as Hlog by done.
  clearbody s1. exists s1. rewrite <- Hlog.
  cut (exists st', Put (VRef l) k v s1
         = (match a_kind a with AObject => Throw TypeError | APrimitive => Ok tt end, st')
       /\ peek (heap st') (VRef l) k = v /\ log st' = log s1).
  { intros (st' & H1 & H2 & H3). by exists st'. }
  unfold Put, bind at 1, the_obj. rewrite Hl1, Hlen, Hp, Hs.
  unfold setter. rewrite Hne. unfold bind at 1, store_value, upd_obj. rewrite Hl1.
  match goal with |- context [set_heap ?h s1] => set (s2 := set_heap h s1) end.
  assert (managers s2 !! a_manager a = Some mg1) as Hm2 by done.
  assert (peek (heap s2) (VRef l) k = v) as Hpeek.
  { subst s2. simpl heap. rewrite Hp. by eapply peek_stored. }
  unfold bind at 1, the_manager. rewrite Hm2. simpl. rewrite Hg.
  destruct (a_kind a).
  - rewrite lookup_empty. eexists. split; [reflexivity|]. done.
  - unfold bind at 1. simpl. rewrite Hk.
    assert (Forall returns (default [] (identifiers mg1 !! a_identifier a))) as Hr
      by (simpl; rewrite lookup_empty; constructor).
    rewrite (_execute_returns _ (a_identifier a) v (a_value a) s2 mg1 Hm2 Hr).
    eexists. split; [reflexivity|]. split; [exact Hpeek|].
    simpl. rewrite lookup_empty. simpl. by rewrite app_nil_r.
Qed.

(** ** Managers and their caches *)

Lemma upd_manager_inv m f st t st' :
  upd_manager m f st = (Ok t, st') ->
  exists mg, managers st !! m = Some mg
             /\ st' = set_managers (<[m := f mg]> (managers st)) st.
Proof.
  unfold upd_manager. destruct (managers st !! m) as [mg|]; [|done].
  intros H. inversion H. by exists mg.
Qed.

Lemma the_manager_inv m st mg st' :
  the_manager m st = (Ok mg, st') -> managers st !! m = Some mg /\ st' = st.
Proof.
  unfold the_manager. destruct (managers st !! m) as [mg'|]; [|done].
  intros H. by inversion H.
Qed.


(** X18. The instance method [getContext] answers from the value cache of
    the manager: once it has answered a value that is not null for a list
    of segments, it answers that value again, without reading the data,
    whatever the heap has become in the meantime. *)
Theorem getContext_answers_from_cache m split st v st1 :
  getContext m split st = (Ok v, st1) ->
  isNull v = false ->
  forall h, getContext m split (set_heap h st1) = (Ok v, set_heap h st1).
Proof.
  intros H Hv h. unfold getContext in H.
  apply bind_ok_inv in H as (mg & s1 & E1 & H).
  apply the_manager_inv in E1 as [Hm ->].
  assert (forall mg1 s, managers s !! m = Some mg1 -> cached mg1 (join split) = v ->
            getContext m split (set_heap h s) = (Ok v, set_heap h s)) as Hcached.
  { intros mg1 s Hm1 Hc. unfold getContext, bind at 1, the_manager. simpl.
    rewrite Hm1, Hc, Hv. done. }
  destruct (isNull (cached mg (join split))) eqn:Hn.
  - apply bind_ok_inv in H as (r & s2 & E2 & H).
    apply bind_ok_inv in H as (t & s3 & E3 & H). inversion H; subst. clear H.
    apply upd_manager_inv in E3 as (mg2 & Hm2 & ->).
    eapply Hcached.
    + simpl. apply list_lookup_insert_eq. by eapply lookup_lt_Some.
    + unfold cached. simpl. by rewrite lookup_insert_eq.
  - inversion H; subst. by eapply Hcached.
Qed.

(** ** The index from an identifier to the identifiers below it *)

Lemma join_cons x y l : join (x :: y :: l) = x +:+ String dot (join (y :: l)).
Proof. done. Qed.

Lemma app_String c x y : String c x +:+ y = String c (x +:+ y).
Proof. done. Qed.

Lemma app_assoc_string (x y z : string) : (x +:+ y) +:+ z = x +:+ (y +:+ z).
Proof. induction x as [|c x IH]; [done|]. by rewrite !app_String, IH. Qed.

Lemma join_split s : join (split s) = s.
Proof.
  induction s as [|c s IH]; [done|]. cbn [split].
  pose proof (split_nonempty s) as Hne.
  destruct (Ascii.eqb_spec c dot) as [->|Hc].
  - destruct (split s) as [|x r]; [done|]. by rewrite join_cons, IH.
  - destruct (split s) as [|x r]; [done|].
    destruct r as [|y r]; [simpl in *; by rewrite IH|].
    rewrite join_cons in *. by rewrite app_String, IH.
Qed.

Lemma join_snoc l s : l ≠ [] -> join (l ++ [s]) = join l +:+ String dot s.
Proof.
  induction l as [|x l IH]; [done|]. intros _. destruct l as [|y l]; [done|].
  change ((x :: y :: l) ++ [s]) with (x :: (y :: l) ++ [s]).
  change ((y :: l) ++ [s]) with (y :: (l ++ [s])) at 1.
  rewrite join_cons. change (y :: l ++ [s]) with ((y :: l) ++ [s]).
  rewrite IH by done. rewrite join_cons.
  by rewrite app_assoc_string, app_String.
Qed.

(** A proper prefix of the segments of an identifier joins to another
    string. *)
Lemma join_take_ne s n : 0 < n < length (split s) -> join (take n (split s)) ≠ s.
Proof.
  intros Hn He. pose proof (split_no_dot s) as Hd.
  assert (split (join (take n (split s))) = take n (split s)) as Hs.
  { apply split_join; [|by apply Forall_take].
    destruct (split s); simpl in *; [lia|]. destruct n; [lia | done]. }
  rewrite He in Hs. apply (f_equal length) in Hs. rewrite length_take in Hs. lia.
Qed.

Lemma grows_refl h : grows h h.
Proof. by intros k. Qed.

Lemma grows_trans h1 h2 h3 : grows h1 h2 -> grows h2 h3 -> grows h1 h3.
Proof.
  intros H1 H2 k. destruct (H1 k) as [A1 B1]. destruct (H2 k) as [A2 B2].
  split; [by intros ?; apply A2, A1 | by intros x ?; apply B2, B1].
Qed.

Lemma grows_entry h k : grows h (match h !! k with None => <[k := []]> h | Some _ => h end).
Proof.
  destruct (h !! k) eqn:E; [apply grows_refl|]. intros k'.
  destruct (decide (k = k')) as [<-|Hne].
  - rewrite lookup_insert_eq, E. split; [done|]. simpl. intros x Hx. by apply elem_of_nil in Hx.
  - by rewrite lookup_insert_ne.
Qed.

Lemma grows_push h k x : grows h (hash_push k x h) /\ linked x (hash_push k x h) k.
Proof.
  unfold hash_push, linked. split.
  - intros k'. destruct (decide (k = k')) as [<-|Hne].
    + rewrite lookup_insert_eq. split; [done|]. simpl. intros y Hy.
      apply elem_of_app. by left.
    + by rewrite lookup_insert_ne.
  - rewrite lookup_insert_eq. simpl. apply elem_of_app. right. by apply list_elem_of_singleton.
Qed.

Lemma addHashValues_loop_spec identifier : forall rest seen ident h,
  seen ≠ [] -> ident = join seen ->
  grows h (addHashValues_loop identifier rest ident h)
  /\ forall j, 0 < j <= length rest ->
       is_Some (addHashValues_loop identifier rest ident h !! join (seen ++ take j rest))
       /\ (join (seen ++ take j rest) ≠ identifier ->
           linked identifier (addHashValues_loop identifier rest ident h)
             (join (seen ++ take j rest))).
Proof.
  induction rest as [|s rest IH]; intros seen ident h Hne ->.
  - split; [apply grows_refl|]. simpl. intros j Hj. lia.
  - cbn [addHashValues_loop]. cbv zeta. rewrite <- join_snoc by done.
    set (ident' := join (seen ++ [s])).
    set (h1 := match h !! ident' with None => <[ident' := []]> h | Some _ => h end).
    set (h2 := if String.eqb ident' identifier then h1 else hash_push ident' identifier h1).
    assert (grows h h1) as G1 by apply grows_entry.
    assert (is_Some (h1 !! ident')) as S1.
    { subst h1. destruct (h !! ident') eqn:E; [by rewrite E | by rewrite lookup_insert_eq]. }
    assert (grows h1 h2 /\ (ident' ≠ identifier -> linked identifier h2 ident')) as [G2 L2].
    { subst h2. destruct (String.eqb_spec ident' identifier) as [E|E].
      - split; [apply grows_refl | done].
      - destruct (grows_push h1 ident' identifier). by split. }
    destruct (IH (seen ++ [s]) ident' h2) as [G3 Hj]; [by destruct seen | done |].
    split; [by eapply grows_trans; [eapply grows_trans|]|].
    intros j Hlt. destruct j as [|j]; [lia|]. simpl in Hlt.
    change (take (S j) (s :: rest)) with (s :: take j rest).
    replace (seen ++ s :: take j rest) with ((seen ++ [s]) ++ take j rest)
      by (by rewrite <- app_assoc).
    destruct j as [|j].
    + rewrite take_0, app_nil_r. fold ident'. split.
      * apply (G3 ident'), (G2 ident'), S1.
      * intros Hd. apply (G3 ident'), L2, Hd.
    + apply Hj. lia.
Qed.

Lemma addHashValues_spec identifier h :
  grows h (__addHashValues identifier h)
  /\ is_Some (__addHashValues identifier h !! identifier)
  /\ forall n, 0 < n < length (split identifier) ->
       linked identifier (__addHashValues identifier h) (join (take n (split identifier))).
Proof.
  pose proof (join_split identifier) as Hjs.
  pose proof (fun n => join_take_ne identifier n) as Hne.
  unfold __addHashValues.
  destruct (split identifier) as [|s0 rest] eqn:Hs; [by destruct (split_nonempty identifier)|].
  assert (forall h1, grows h h1 -> linked identifier h1 s0 -> is_Some (h1 !! s0) ->
            grows h (addHashValues_loop identifier rest s0 h1)
            /\ is_Some (addHashValues_loop identifier rest s0 h1 !! identifier)
            /\ forall n, 0 < n < length (s0 :: rest) ->
                 linked identifier (addHashValues_loop identifier rest s0 h1)
                   (join (take n (s0 :: rest)))) as Hloop.
  { intros h1 G1 L1 S1.
    destruct (addHashValues_loop_spec identifier rest [s0] s0 h1) as [G2 Hj]; [done|done|].
    split; [by eapply grows_trans|]. split.
    - destruct rest as [|s1 rest'].
      + simpl in Hjs. subst. apply (G2 identifier), S1.
      + destruct (Hj (length (s1 :: rest'))) as [HS _]; [simpl; lia|].
        rewrite firstn_all in HS. simpl app in HS. by rewrite Hjs in HS.
    - intros n Hn. destruct n as [|n]; [lia|]. simpl in Hn.
      change (take (S n) (s0 :: rest)) with ([s0] ++ take n rest).
      destruct n as [|n].
      + rewrite take_0. simpl. apply (G2 s0), L1.
      + apply Hj; [lia|]. apply (Hne (S (S n))). simpl. lia. }
  destruct (h !! s0) as [x|] eqn:E.
  - destruct (grows_push h s0 identifier) as [G L].
    apply Hloop; [done | done |]. apply (G s0). by rewrite E.
  - destruct rest as [|s1 rest'].
    + simpl in Hjs. subst s0. split; [|split].
      * pose proof (grows_entry h identifier) as G. by rewrite E in G.
      * by rewrite lookup_insert_eq.
      * simpl. intros n Hn. lia.
    + destruct (grows_push (<[s0 := []]> h) s0 identifier) as [G L].
      pose proof (grows_entry h s0) as G0. rewrite E in G0.
      destruct (Hloop (hash_push s0 identifier (<[s0 := []]> h))) as (H1 & H2 & H3).
      * by eapply grows_trans.
      * done.
      * unfold hash_push. by rewrite lookup_insert_eq.
      * done.
Qed.


(** ** Observing a property of the context *)

Lemma bind_assoc {A B C} (c : M A) (f : A -> M B) (g : B -> M C) st :
  bind (bind c f) g st = bind c (fun x => bind (f x) g) st.
Proof. unfold bind. by destruct (c st) as [[a|e|] s1]. Qed.

Lemma isArray_run v st :
  isArray v st
  = (Ok match v with
        | VRef l => match heap st !! l with Some o => o_isArray o | None => false end
        | _ => false
        end, st).
Proof. done. Qed.

Lemma Get_data l k st ob p x w :
  heap st !! l = Some ob -> o_isArray ob && String.eqb k "length" = false ->
  o_props ob !! k = Some p -> p_slot p = Data x w ->
  Get (VRef l) k st = (Ok x, st).
Proof. intros Hl Hlen Hp Hs. unfold Get, bind, the_obj. by rewrite Hl, Hlen, Hp, Hs. Qed.

Lemma observe_segment fuel m k o st :
  no_dot k = true -> k ≠ EmptyString ->
  observe_ (S fuel) m k o st
  = bind (the_manager m) (fun mg =>
      let hasIdentifier := _hasIdentifier mg k in
      bind (observe_context (observe_ fuel m EmptyString None) m mg []) (fun context =>
      bind (isArray context) (fun isArr =>
        if negb (isObject context || isArr) then
          bind (emit (Warned k)) (fun _ =>
            match o with
            | Some l => bind (_addObservableListener m k l) (fun r => ret (Some r))
            | None => ret None
            end)
        else
          bind (upd_manager m (set_observedIdentifier None)) (fun _ =>
          bind (Get context k) (fun v =>
          bind (cache m k v) (fun _ =>
          bind (the_manager m) (fun mg =>
            let observedIdentifier := observedIdentifier mg in
            let hasIdentifier := hasIdentifier || bool_decide (is_Some observedIdentifier) in
            bind (observe_listen m k o observedIdentifier) (fun removeCallback =>
            bind (if hasIdentifier then ret tt
                  else observe_define (fun l => observe_ fuel m EmptyString (Some l))
                         m k context k [] isArr o) (fun _ =>
            ret (Some removeCallback)))))))))) st.
Proof.
  intros Hd Hne. cbn [observe_]. rewrite split_segment by done.
  destruct k; [done|]. done.
Qed.


Lemma the_manager_run m st mg :
  managers st !! m = Some mg -> the_manager m st = (Ok mg, st).
Proof. unfold the_manager. by intros ->. Qed.

Lemma upd_manager_run m f st mg :
  managers st !! m = Some mg ->
  upd_manager m f st = (Ok tt, set_managers (<[m := f mg]> (managers st)) st).
Proof. unfold upd_manager. by intros ->. Qed.

Lemma lookup_set_manager st m mg mg0 :
  managers st !! m = Some mg0 ->
  managers (set_managers (<[m := mg]> (managers st)) st) !! m = Some mg.
Proof. intros H. simpl. apply list_lookup_insert_eq. by eapply lookup_lt_Some. Qed.

Lemma _addObservableListener_run m i l st mg :
  managers st !! m = Some mg ->
  exists st' mg',
    _addObservableListener m i l st = (Ok (RObservable m (l_uid l) i), st')
    /\ heap st' = heap st
    /\ log st' = log st
    /\ managers st' !! m = Some mg'
    /\ identifiers mg' !! i = Some (default [] (identifiers mg !! i) ++ [l])
    /\ isArrayFunction mg' = isArrayFunction mg.
Proof.
  intros Hm. unfold _addObservableListener, __add.
  rewrite (bind_ok _ _ _ _ _ (upd_manager_run _ _ _ _ Hm)).
  unfold ContextManager_pushRemoveListener, bind, modify, ret.
  eexists _, _. split; [reflexivity|]. split; [done|]. split; [done|].
  split; [by eapply lookup_set_manager|]. cbv zeta.
  destruct (isNullSlot _); simpl; by rewrite lookup_insert_eq.
Qed.

(** The setter of a property observed while it held a defined primitive
    goes straight to [_execute]. *)
Lemma Put_primitive_accessor l k v st ob p a mg :
  heap st !! l = Some ob ->
  o_isArray ob = false ->
  o_props ob !! k = Some p ->
  p_slot p = Accessor a ->
  a_kind a = APrimitive -> a_isDefined a = true ->
  managers st !! a_manager a = Some mg ->
  isArrayFunction mg = false ->
  strict_eq (a_value a) v = false ->
  Put (VRef l) k v st
  = _execute (a_manager a) (a_identifier a) v (a_value a)
      (set_heap (<[l := set_props
                     (<[k := Prop_ (Accessor (Acc (a_kind a) (a_manager a) (a_identifier a)
                                                  (a_context a) (a_key a) v (a_isDefined a)))
                                    (p_enumerable p) (p_configurable p)]> (o_props ob)) ob]>
                   (heap st)) st).
Proof.
  intros Hl Ha Hp Hs Hk Hd Hm Hg Hne.
  unfold Put, bind at 1, the_obj. rewrite Hl, Ha, Hp, Hs. cbn [andb].
  unfold setter. rewrite Hne. unfold bind at 1, store_value, upd_obj. rewrite Hl, Hp.
  unfold bind at 1, the_manager. cbn [managers set_heap]. rewrite Hm, Hk, Hg.
  unfold bind at 1. rewrite isArray_run. cbn [andb]. by rewrite Hd.
Qed.


(** ** Observing an array *)

(** X22. [observeArray] on an array, with no array observed before: the
    callback is filed under the identifier and the uid in the table
    [observedArrayListeners], replacing the callback the uid had there and
    leaving those of other uids and other identifiers; the array gets the
    wrappers, so that each of the seven mutating methods called on it is the
    [observedArrayFn] of the manager and the identifier. *)
Theorem observeArray_files_callback_and_wraps_methods m uid c a l ob st :
  heap st !! l = Some ob ->
  exists st' cbs',
    observeArray m uid c a (VRef l) VNull st = (Ok tt, st')
    /\ heap st' = <[l := set_instrumented (Some (m, a)) ob]> (heap st)
    /\ dget (observedArrayListeners st') a = Some cbs'
    /\ dget cbs' uid = Some c
    /\ (forall u', u' ≠ uid ->
          dget cbs' u' = dget (default [] (dget (observedArrayListeners st) a)) u')
    /\ (forall a', a' ≠ a ->
          dget (observedArrayListeners st') a' = dget (observedArrayListeners st) a')
    /\ (forall method args, method ∈ arrayMethods ->
          callMethod (VRef l) method args st' = observedArrayFn m a method l args st').
Proof.
  intros Hl. assert (l < length (heap st)) as Hlt by (by eapply lookup_lt_Some).
  unfold observeArray. cbn [isNull negb]. unfold bind at 1, ret at 1.
  unfold bind at 1, modify at 1.
  set (s1 := set_observedArrayListeners _ st).
  assert (observeArray_install m a (VRef l) 0 s1
          = (Ok tt, set_heap (<[l := set_instrumented (Some (m, a)) ob]> (heap st)) s1)) as ->.
  { unfold observeArray_install, bind, get_state, upd_obj.
    destruct (compat_proto s1); simpl; by rewrite Hl. }
  eexists _, _. split; [reflexivity|]. split; [done|]. simpl.
  split; [apply dget_dset_eq|]. split; [apply dget_dset_eq|].
  split; [intros u' Hne; by apply dget_dset_ne|].
  split; [intros a' Hne; by apply dget_dset_ne|].
  intros method args Hin. unfold callMethod, bind at 1, the_obj. simpl.
  rewrite list_lookup_insert_eq by done. by rewrite bool_decide_eq_true_2.
Qed.


(** ** Observing leaves the values as they are *)

#[local] Instance same_values_preorder : PreOrder same_values.
Proof.
  split.
  - by intros st l k.
  - intros a b c H1 H2 l k Hk. by rewrite H2, H1.
Qed.

Lemma heap_same_values st st' : heap_rel st st' -> same_values st st'.
Proof. intros H l k _. unfold heap_rel in H. by rewrite H. Qed.

Lemma emit_heap e : preserves heap_rel (emit e).
Proof. intros st r st' H. by inversion H. Qed.

Lemma cache_heap m k v : preserves heap_rel (cache m k v).
Proof. unfold cache. pres. Qed.

Lemma __add_heap m i l : preserves heap_rel (__add m i l).
Proof. unfold __add. pres. Qed.

Lemma pushRemoveListener_heap i u m : preserves heap_rel (ContextManager_pushRemoveListener i u m).
Proof. unfold ContextManager_pushRemoveListener. pres. Qed.

#[local] Hint Resolve emit_heap cache_heap __add_heap pushRemoveListener_heap : pres.

Lemma _addObservableListener_heap m i l : preserves heap_rel (_addObservableListener m i l).
Proof. unfold _addObservableListener. pres. Qed.

#[local] Hint Resolve _addObservableListener_heap : pres.

#[local] Hint Extern 5 (preserves same_values _) =>
  (eapply preserves_weaken; [exact heap_same_values | solve [eauto 2 with pres]]) : pres.

Lemma peek_instrumented (h : list obj) l o x l' k :
  h !! l = Some o ->
  peek (<[l := set_instrumented x o]> h) (VRef l') k = peek h (VRef l') k.
Proof.
  intros Hl. simpl. destruct (decide (l' = l)) as [->|Hne].
  - rewrite list_lookup_insert_eq by (by eapply lookup_lt_Some). by rewrite Hl.
  - by rewrite list_lookup_insert_ne.
Qed.

Lemma upd_obj_instrumented_same_values l x :
  preserves same_values (upd_obj l (set_instrumented x)).
Proof.
  intros st r st'. unfold upd_obj. destruct (heap st !! l) as [o|] eqn:Hl; intros H;
    inversion H; subst; [|reflexivity].
  intros l' k _. by apply peek_instrumented.
Qed.

#[local] Hint Resolve upd_obj_instrumented_same_values : pres.

Lemma observeArray_same_values m u c a x y : preserves same_values (observeArray m u c a x y).
Proof.
  unfold observeArray, observeArray_restore, observeArray_install, clear_instrumented. pres.
Qed.

(** An accessor that captures the value the property holds leaves the
    values as they are. *)
Lemma defineAccessor_same_values t k a st r st' :
  a_value a = peek (heap st) t k ->
  defineAccessor t k a st = (r, st') -> same_values st st'.
Proof.
  intros Hv. unfold defineAccessor. destruct t; try (intros H; inversion H; reflexivity).
  intros H. apply bind_eq in H. unfold the_obj in H.
  destruct (heap st !! l) as [o|] eqn:Hl; [|destruct H as [_ ->]; reflexivity].
  destruct (o_isArray o && String.eqb k "length") eqn:Hlen; [inversion H; reflexivity|].
  simpl in Hv. rewrite Hl, Hlen in Hv.
  assert (l < length (heap st)) as Hlt by (by eapply lookup_lt_Some).
  assert (forall o', o_isArray o' = o_isArray o ->
            (forall k', k' ≠ "length" ->
               match o_props o' !! k' with
               | Some p => match p_slot p with Data x _ => x | Accessor a0 => a_value a0 end
               | None => VUndef
               end
               = match o_props o !! k' with
                 | Some p => match p_slot p with Data x _ => x | Accessor a0 => a_value a0 end
                 | None => VUndef
                 end) ->
            same_values st (set_heap (<[l := o']> (heap st)) st)) as Hsame.
  { intros o' Ha Hp l' k' Hk'. simpl. destruct (decide (l' = l)) as [->|Hne].
    - rewrite list_lookup_insert_eq by done. rewrite Hl, Ha.
      replace (String.eqb k' "length") with false by (symmetry; by apply String.eqb_neq).
      rewrite !andb_false_r. by apply Hp.
    - by rewrite list_lookup_insert_ne. }
  destruct (o_props o !! k) as [p|] eqn:Hp.
  - destruct (negb (p_configurable p)); [inversion H; reflexivity|].
    unfold upd_obj in H. rewrite Hl in H. inversion H; subst. apply Hsame; [done|].
    intros k' _. simpl. destruct (decide (k' = k)) as [->|Hne].
    + by rewrite lookup_insert_eq, Hp.
    + by rewrite lookup_insert_ne.
  - unfold upd_obj in H. rewrite Hl in H. inversion H; subst. apply Hsame; [done|].
    intros k' _. simpl. destruct (decide (k' = k)) as [->|Hne].
    + by rewrite lookup_insert_eq, Hp.
    + by rewrite lookup_insert_ne.
Qed.

Lemma __defineObject_same_values m i c k : preserves same_values (__defineObject m i c k).
Proof.
  intros st r st' H. unfold __defineObject in H. apply bind_eq in H.
  destruct (Get c k st) as [[v|e|] s1] eqn:E;
    pose proof (Get_heap _ _ _ _ _ E) as Hh; unfold heap_rel in Hh.
  - etransitivity; [by apply heap_same_values|].
    eapply defineAccessor_same_values; [|exact H]. simpl. rewrite Hh. by eapply Get_value.
  - destruct H as [_ ->]. by apply heap_same_values.
  - destruct H as [_ ->]. by apply heap_same_values.
Qed.

Lemma __definePrimitive_same_values m i c k :
  preserves same_values (__definePrimitive m i c k).
Proof.
  intros st r st' H. unfold __definePrimitive in H. apply bind_eq in H.
  destruct (Get c k st) as [[v|e|] s1] eqn:E;
    pose proof (Get_heap _ _ _ _ _ E) as Hh; unfold heap_rel in Hh.
  - etransitivity; [by apply heap_same_values|].
    unfold bind, isArray in H. destruct (_ && _).
    + inversion H. reflexivity.
    + eapply defineAccessor_same_values; [|exact H]. simpl. rewrite Hh. by eapply Get_value.
  - destruct H as [_ ->]. by apply heap_same_values.
  - destruct H as [_ ->]. by apply heap_same_values.
Qed.

#[local] Hint Resolve __defineObject_same_values __definePrimitive_same_values
  observeArray_same_values : pres.

Lemma _define_same_values m i c k : preserves same_values (_define m i c k).
Proof. unfold _define. pres. Qed.

#[local] Hint Resolve _define_same_values : pres.

Lemma immediateContext_walk_heap split : forall c k,
  preserves heap_rel (immediateContext_walk c k split).
Proof. induction split as [|k' split IH]; intros c k; simpl; pres. Qed.

#[local] Hint Resolve immediateContext_walk_heap : pres.

Lemma _getImmediateContext_same_values c m i :
  preserves same_values c -> preserves same_values (_getImmediateContext c m i).
Proof. intros Hc. unfold _getImmediateContext. pres. Qed.

Lemma observe_context_same_values c m mg split :
  preserves same_values c -> preserves same_values (observe_context c m mg split).
Proof.
  intros Hc. unfold observe_context.
  pose proof (_getImmediateContext_same_values c m) as H. pres.
Qed.

Lemma observe_listen_same_values m i o observed :
  preserves same_values (observe_listen m i o observed).
Proof. unfold observe_listen. pres. Qed.

Lemma observe_define_same_values c m i x k split isArr o :
  (forall l, preserves same_values (c l)) ->
  preserves same_values (observe_define c m i x k split isArr o).
Proof. intros Hc. unfold observe_define. pres. Qed.

Lemma observe__same_values : forall fuel m i o, preserves same_values (observe_ fuel m i o).
Proof.
  induction fuel as [|fuel IH]; intros m i o; cbn [observe_]; [pres|].
  destruct (isEmptyString i); [pres|].
  destruct (pop (split i)) as [[key split]|]; [|pres].
  apply preserves_bind; [typeclasses eauto | pres | intros mg].
  apply preserves_bind; [typeclasses eauto | | intros x].
  { apply observe_context_same_values. apply IH. }
  apply preserves_bind; [typeclasses eauto | pres | intros isArr].
  destruct (negb (isObject x || isArr)); [pres|].
  apply preserves_bind; [typeclasses eauto | pres | intros _].
  apply preserves_bind; [typeclasses eauto | pres | intros v].
  apply preserves_bind; [typeclasses eauto | pres | intros _].
  apply preserves_bind; [typeclasses eauto | pres | intros mg'].
  apply preserves_bind; [typeclasses eauto | apply observe_listen_same_values | intros rc].
  apply preserves_bind; [typeclasses eauto | | intros; pres].
  destruct (_ || _); [pres|].
  apply observe_define_same_values. intros l. apply IH.
Qed.


(** ** Assigning [null] above a deep binding *)

Lemma slice_app x y : slice (String.length x + 1) (x +:+ String dot y) = y.
Proof. induction x as [|c x IH]; [done|]. exact IH. Qed.

Lemma isEmptyString_join x y l : isEmptyString (join (x :: y :: l)) = false.
Proof. rewrite join_cons. by destruct x. Qed.

(** The first binding lies [path] and [key] below the identifier, [path]
    having two segments or more: [_getValues] reads a property of the null
    value. *)
Lemma _notifyChildProperties_null m identifier p1 p2 path key rest v old st mg :
  managers st !! m = Some mg ->
  identifierHash mg !! identifier
    = Some ((identifier +:+ String dot (join (p1 :: p2 :: path ++ [key]))) :: rest) ->
  Forall (fun x => no_dot x = true) (p1 :: p2 :: path ++ [key]) ->
  isNull v = true ->
  _notifyChildProperties m identifier v old st = (Throw TypeError, st).
Proof.
  intros Hm Hh Hd Hv. unfold _notifyChildProperties.
  rewrite (bind_ok _ _ _ _ _ (the_manager_run _ _ _ Hm)). rewrite Hh.
  cbn [notifyChild_loop]. unfold notifyChild_step. cbv zeta.
  rewrite slice_app, split_join by done.
  change (p1 :: p2 :: path ++ [key]) with ((p1 :: p2 :: path) ++ [key]).
  rewrite pop_snoc. rewrite isEmptyString_join, lookup_empty.
  unfold _getValues. cbn [getValues_loop].
  assert (Get v p1 = throw TypeError) as -> by (by destruct v).
  done.
Qed.

(** X25. Assigning [null] or [undefined] to a property observed as an
    object throws a TypeError when the first identifier observed below it
    lies three levels down or deeper ([a.b.c.d] below [a]): the value is
    stored, the listeners of the property itself are notified, and then the
    cascade to the identifiers below reads [b] of the null value. *)
Theorem assigning_null_above_deep_binding_throws l k v st ob p a mg p1 p2 path key rest :
  heap st !! l = Some ob ->
  o_isArray ob && String.eqb k "length" = false ->
  o_props ob !! k = Some p ->
  p_slot p = Accessor a ->
  a_kind a = AObject ->
  managers st !! a_manager a = Some mg ->
  isArrayFunction mg = false ->
  isNull v = true ->
  strict_eq (a_value a) v = false ->
  identifierHash mg !! a_identifier a
    = Some ((a_identifier a +:+ String dot (join (p1 :: p2 :: path ++ [key]))) :: rest) ->
  Forall (fun x => no_dot x = true) (p1 :: p2 :: path ++ [key]) ->
  Forall returns (default [] (identifiers mg !! a_identifier a)) ->
  exists st',
    Put (VRef l) k v st = (Throw TypeError, st')
    /\ peek (heap st') (VRef l) k = v
    /\ log st' = log st ++ omap (notification v (a_value a))
                             (default [] (identifiers mg !! a_identifier a)).
Proof.
  intros Hl Hlen Hp Hs Hk Hm Hg Hv Hne Hh Hd Hr.
  unfold Put, bind at 1, the_obj. rewrite Hl, Hlen, Hp, Hs.
  unfold setter. rewrite Hne. unfold bind at 1, store_value, upd_obj. rewrite Hl.
  match goal with |- context [set_heap ?h st] => set (s1 := set_heap h st) end.
  assert (managers s1 !! a_manager a = Some mg) as Hm1 by done.
  assert (peek (heap s1) (VRef l) k = v) as Hpeek.
  { subst s1. simpl heap. rewrite Hp. by eapply peek_stored. }
  unfold bind at 1, the_manager. rewrite Hm1, Hk, Hg, Hh. cbn [length Nat.ltb Nat.leb].
  rewrite (bind_ok _ _ _ _ _ (_execute_returns _ _ v (a_value a) s1 mg Hm1 Hr)).
  match goal with |- context [_notifyChildProperties _ _ _ _ ?s] => set (s2 := s) end.
  assert (managers s2 !! a_manager a
          = Some (set_contextObjects
                    (cache_after (a_identifier a) v (contextObjects mg)) mg)) as Hm2.
  { subst s2. simpl. apply list_lookup_insert_eq. by eapply lookup_lt_Some. }
  rewrite (_notifyChildProperties_null _ _ p1 p2 path key rest v _ s2 _ Hm2 Hh Hd Hv).
  exists s2. split; [done|]. split; [exact Hpeek | done].
Qed.

(** ** The static [dispose] cleans up after the uid *)

#[local] Instance keeps_preorder {A} (f : State -> A) : PreOrder (keeps f).
Proof. unfold keeps. split; [by intros st | intros a b c H1 H2; congruence]. Qed.

#[local] Instance reg_shrinks_preorder : PreOrder reg_shrinks.
Proof. unfold reg_shrinks. split; [by intros st | intros a b c H1 H2 m i l H; eauto]. Qed.

Section Keeps.
Context {A : Type} (f : State -> A).

Lemma upd_manager_keeps m g :
  (forall ms st, f (set_managers ms st) = f st) -> preserves (keeps f) (upd_manager m g).
Proof.
  intros Hf st r st'. unfold upd_manager. destruct (managers st !! m); intros H; inversion H.
  - apply Hf.
  - reflexivity.
Qed.

Lemma upd_obj_keeps l g :
  (forall h st, f (set_heap h st) = f st) -> preserves (keeps f) (upd_obj l g).
Proof.
  intros Hf st r st'. unfold upd_obj. destruct (heap st !! l); intros H; inversion H.
  - apply Hf.
  - reflexivity.
Qed.

Lemma alloc_keeps o :
  (forall h st, f (set_heap h st) = f st) -> preserves (keeps f) (alloc o).
Proof. intros Hf st r st' H. inversion H. apply Hf. Qed.

Lemma modify_keeps g : (forall st, f (g st) = f st) -> preserves (keeps f) (modify g).
Proof. intros Hf st r st' H. inversion H. apply Hf. Qed.

Lemma Get_keeps v k :
  (forall ms st, f (set_managers ms st) = f st) -> preserves (keeps f) (Get v k).
Proof.
  intros Hf st r st' H. apply Get_get_rel in H as [_ ->]. apply Hf.
Qed.

Lemma heap_only_keeps st st' :
  (forall h st, f (set_heap h st) = f st) -> heap_only st st' -> keeps f st st'.
Proof. intros Hf ->. apply Hf. Qed.

End Keeps.

#[local] Hint Extern 1 (preserves (keeps _) (upd_manager _ _)) =>
  apply upd_manager_keeps; intros; reflexivity : pres.
#[local] Hint Extern 1 (preserves (keeps _) (upd_obj _ _)) =>
  apply upd_obj_keeps; intros; reflexivity : pres.
#[local] Hint Extern 1 (preserves (keeps _) (alloc _)) =>
  apply alloc_keeps; intros; reflexivity : pres.
#[local] Hint Extern 1 (preserves (keeps _) (modify _)) =>
  apply modify_keeps; intros; reflexivity : pres.
#[local] Hint Extern 1 (preserves (keeps _) (Get _ _)) =>
  apply Get_keeps; intros; reflexivity : pres.

Lemma silent_reg_shrinks st st' : silent_rel st st' -> reg_shrinks st st'.
Proof. intros (I & _) m i l. by apply reg_at_same. Qed.

#[local] Hint Extern 5 (preserves reg_shrinks _) =>
  (eapply preserves_weaken; [exact silent_reg_shrinks | solve [eauto 2 with pres]]) : pres.

Lemma _removeCallback_sweeps m i u st st' :
  _removeCallback m i u st = (Ok tt, st') ->
  reg_shrinks st st' /\ forall l, reg_at st' m i l -> l_uid l ≠ u.
Proof.
  intros H. destruct (managers st !! m) as [mg|] eqn:Hm.
  2:{ unfold _removeCallback, bind, the_manager in H. by rewrite Hm in H. }
  destruct (_removeCallback_manager m i u st mg Hm) as (mg' & HR & Hj & Hi & _).
  rewrite HR in H. inversion H as [Hst]. clear H.
  assert (forall m' ident l, reg_at (set_managers (<[m := mg']> (managers st)) st) m' ident l ->
            reg_at st m' ident l /\ (m', l_uid l, ident) ≠ (m, u, i)) as Hreg.
  { intros m' ident l. by apply (reg_at_remove_one m u i st mg _ mg'). }
  split.
  - intros m' ident l Hr. by apply Hreg in Hr as [? _].
  - intros l Hr. apply Hreg in Hr as [_ Hne]. congruence.
Qed.

Lemma sweep_inner i u : forall ms st st',
  for_each ms (fun m => _removeCallback m i u) st = (Ok tt, st') ->
  reg_shrinks st st' /\ forall m l, m ∈ ms -> reg_at st' m i l -> l_uid l ≠ u.
Proof.
  induction ms as [|m ms IH]; intros st st' H.
  - inversion H. split; [reflexivity|]. intros m l Hin. by apply elem_of_nil in Hin.
  - cbn [for_each] in H. apply bind_ok_inv in H as ([] & s1 & E1 & H).
    apply _removeCallback_sweeps in E1 as [R1 C1]. apply IH in H as [R2 C2].
    split; [by etransitivity|]. intros m' l Hin Hr.
    apply elem_of_cons in Hin as [->|Hin]; [|by eapply C2].
    apply C1. by apply R2.
Qed.

Lemma sweep_outer u : forall ids st st',
  for_each ids (fun il : string * list nat =>
                  for_each il.2 (fun m => _removeCallback m il.1 u)) st = (Ok tt, st') ->
  reg_shrinks st st'
  /\ forall i ms m l, (i, ms) ∈ ids -> m ∈ ms -> reg_at st' m i l -> l_uid l ≠ u.
Proof.
  induction ids as [|[i0 ms0] ids IH]; intros st st' H.
  - inversion H. split; [reflexivity|]. intros i ms m l Hin. by apply elem_of_nil in Hin.
  - cbn [for_each] in H. apply bind_ok_inv in H as ([] & s1 & E1 & H).
    apply sweep_inner in E1 as [R1 C1]. apply IH in H as [R2 C2].
    split; [by etransitivity|]. intros i ms m l Hin Hm Hr.
    apply elem_of_cons in Hin as [Heq|Hin]; [|by eapply C2].
    inversion Heq; subst. eapply C1; [done|]. by apply R2.
Qed.

Lemma _removeCallback_keeps {A} (f : State -> A) m i u :
  (forall ms st, f (set_managers ms st) = f st) ->
  preserves (keeps f) (_removeCallback m i u).
Proof.
  intros Hf. pose proof (fun g => upd_manager_keeps f m g Hf) as H.
  unfold _removeCallback. pres.
Qed.

Lemma removeArrayListeners_keeps {A} (f : State -> A) a u :
  (forall x st, f (set_observedArrayListeners x st) = f st) ->
  preserves (keeps f) (ContextManager_removeArrayListeners a u).
Proof.
  intros Hf. pose proof (fun x => modify_keeps f (set_observedArrayListeners x) (Hf x)) as H.
  unfold ContextManager_removeArrayListeners. pres.
Qed.

Lemma defineData_keeps {A} (f : State -> A) t k v e c :
  (forall h st, f (set_heap h st) = f st) -> preserves (keeps f) (defineData t k v e c).
Proof.
  intros Hf. pose proof (fun l g => upd_obj_keeps f l g Hf) as H. unfold defineData. pres.
Qed.

Lemma removeArrayListeners_silent a u :
  preserves silent_rel (ContextManager_removeArrayListeners a u).
Proof. unfold ContextManager_removeArrayListeners. pres. Qed.

#[local] Hint Resolve removeArrayListeners_silent : pres.

(** The parts of the static [dispose] of an owner with an entry in the
    index of owners: the manager of the uid, the functions filed for the
    uid, the array callbacks, and the rest. *)
Lemma dispose_parts deepExtend c persist st st' ob pu u w ids :
  heap st !! c = Some ob ->
  o_props ob !! "uid" = Some pu -> p_slot pu = Data (VStr u) w ->
  s_controls st !! u = Some ids ->
  ContextManager_dispose deepExtend (VRef c) persist st = (Ok tt, st') ->
  exists s1 s2 s3 t,
    match s_managers st !! u with
    | Some manager =>
        bind (dispose manager)
          (fun _ => modify (fun st => set_s_managers (delete u (s_managers st)) st))
    | None => ret tt
    end st = (Ok tt, s1)
    /\ for_each ids (fun il : string * list nat =>
                       for_each il.2 (fun m => _removeCallback m il.1 u)) s1 = (Ok tt, s2)
    /\ for_each (dkeys (observedArrayListeners s2))
                (fun key => ContextManager_removeArrayListeners key u) s2 = (Ok tt, s3)
    /\ bind (Get (VRef c) "context") (fun context =>
         if isNull context then ret tt
         else bind (if persist then
                      bind (alloc (Obj false ∅ 0 None)) (fun target =>
                      bind (Get (VRef c) "context") (fun source => deepExtend target source))
                    else ret VNull)
                (fun v => ContextManager_defineProperty (VRef c) "context" v true true))
         (set_s_controls (delete u (s_controls s3)) s3) = (Ok t, st').
Proof.
  intros Hc Hpu Hsu Hids H. unfold ContextManager_dispose in H. cbn [isNull] in H.
  rewrite (bind_ok _ _ _ _ _ (uid_of_data _ _ _ _ _ _ Hc Hpu Hsu)) in H.
  apply bind_ok_inv in H as (st0 & s0 & E0 & H). injection E0 as <- <-.
  unfold dict in *. rewrite Hids in H.
  apply bind_ok_inv in H as ([] & s1 & E1 & H).
  apply bind_ok_inv in H as ([] & s2 & E2 & H).
  apply bind_ok_inv in H as (st3 & s3' & E3 & H). injection E3 as <- <-.
  apply bind_ok_inv in H as ([] & s3 & E3 & H).
  apply bind_ok_inv in H as ([] & s4 & E4 & H). injection E4 as <-.
  exists s1, s2, s3, tt. done.
Qed.

Lemma dispose_rest_preserves (R : State -> State -> Prop) `{!PreOrder R}
    (deepExtend : value -> value -> M value) (c : nat) (persist : bool) :
  (forall v k, preserves R (Get v k)) ->
  (forall o, preserves R (alloc o)) ->
  (forall t k v e cf, preserves R (defineData t k v e cf)) ->
  (forall t s, preserves R (deepExtend t s)) ->
  preserves R
    (bind (Get (VRef c) "context") (fun context =>
       if isNull context then ret tt
       else bind (if persist then
                    bind (alloc (Obj false ∅ 0 None)) (fun target =>
                    bind (Get (VRef c) "context") (fun source => deepExtend target source))
                  else ret VNull)
              (fun v => ContextManager_defineProperty (VRef c) "context" v true true))).
Proof. intros HG HA HD HE. unfold ContextManager_defineProperty. pres. Qed.

Lemma heap_only_silent st st' : heap_only st st' -> silent_rel st st'.
Proof. intros ->. apply silent_heap. Qed.

Lemma dispose_reg_shrinks m st st' :
  dispose m st = (Ok tt, st') ->
  reg_shrinks st st' /\ forall i l, ~ reg_at st' m i l.
Proof.
  unfold dispose. intros H. apply upd_manager_inv in H as (mg & Hm & ->).
  assert (m < length (managers st)) as Hlt by (by eapply lookup_lt_Some).
  split.
  - intros m' i l (mg' & ls & Hm' & Hi & Hl). simpl in Hm'.
    destruct (decide (m' = m)) as [->|Hne].
    + rewrite list_lookup_insert_eq in Hm' by done. inversion Hm'; subst. done.
    + rewrite list_lookup_insert_ne in Hm' by done. by exists mg', ls.
  - intros i l (mg' & ls & Hm' & Hi & Hl). simpl in Hm'.
    rewrite list_lookup_insert_eq in Hm' by done. inversion Hm'; subst. done.
Qed.

(** What the first part of the static [dispose] leaves. *)
Lemma dispose_manager_part u st s1 :
  match s_managers st !! u with
  | Some manager =>
      bind (dispose manager)
        (fun _ => modify (fun st => set_s_managers (delete u (s_managers st)) st))
  | None => ret tt
  end st = (Ok tt, s1) ->
  s_managers s1 !! u = None
  /\ reg_shrinks st s1
  /\ (forall m0 i l, s_managers st !! u = Some m0 -> ~ reg_at s1 m0 i l)
  /\ s_controls s1 = s_controls st
  /\ observedArrayListeners s1 = observedArrayListeners st.
Proof.
  destruct (s_managers st !! u) as [m0|] eqn:Hm.
  - intros H. apply bind_ok_inv in H as ([] & s0 & E & H). inversion H; subst. clear H.
    destruct (dispose_reg_shrinks _ _ _ E) as [R N].
    unfold dispose in E. apply upd_manager_inv in E as (mg & _ & ->).
    split; [simpl; by rewrite lookup_delete_eq|]. split; [exact R|].
    split; [intros m i l [= <-]; apply N | done].
  - intros H. inversion H; subst. split; [done|]. split; [reflexivity|]. done.
Qed.


(** The loop of the static [dispose] over the table of array callbacks. *)
Lemma removeArrayListeners_loop u : forall keys st st',
  (forall a cbs, dget (observedArrayListeners st) a = Some cbs -> NoDup (dkeys cbs)) ->
  for_each keys (fun key => ContextManager_removeArrayListeners key u) st = (Ok tt, st') ->
  dkeys (observedArrayListeners st') = dkeys (observedArrayListeners st)
  /\ (forall a cbs, dget (observedArrayListeners st') a = Some cbs -> NoDup (dkeys cbs))
  /\ (forall a cbs, dget (observedArrayListeners st') a = Some cbs ->
        exists cbs0, dget (observedArrayListeners st) a = Some cbs0
                     /\ forall u', u' ≠ u -> dget cbs u' = dget cbs0 u')
  /\ (forall a cbs, a ∈ keys -> dget (observedArrayListeners st') a = Some cbs ->
        dget cbs u = None)
  /\ (forall a cbs, dget (observedArrayListeners st) a = Some cbs -> dget cbs u = None ->
        forall cbs', dget (observedArrayListeners st') a = Some cbs' -> dget cbs' u = None).
Proof.
  induction keys as [|key keys IH]; intros st st' Hnd H.
  - inversion H; subst. split; [done|]. split; [done|].
    split; [intros a cbs Ha; by exists cbs|].
    split; [intros a cbs Hin; by apply elem_of_nil in Hin|].
    intros a cbs Ha Hu cbs' Ha'. congruence.
  - cbn [for_each] in H. apply bind_ok_inv in H as ([] & s1 & E1 & H).
    unfold ContextManager_removeArrayListeners, bind, get_state in E1.
    destruct (dget (observedArrayListeners st) key) as [ls|] eqn:Hkey.
    2:{ inversion E1; subst. destruct (IH _ _ Hnd H) as (K & N & F & P & Q).
        split; [done|]. split; [done|]. split; [done|]. split; [|done].
        intros a cbs Hin Ha. apply elem_of_cons in Hin as [->|Hin]; [|by eapply P].
        destruct (F _ _ Ha) as (cbs0 & Ha0 & _). congruence. }
    inversion E1; subst. clear E1.
    assert (forall a cbs,
              dget (observedArrayListeners
                      (set_observedArrayListeners
                         (dset (observedArrayListeners st) key (ddel ls u)) st)) a = Some cbs ->
              NoDup (dkeys cbs) /\ (a = key -> dget cbs u = None)
              /\ exists cbs0, dget (observedArrayListeners st) a = Some cbs0
                              /\ (forall u', u' ≠ u -> dget cbs u' = dget cbs0 u')
                              /\ (dget cbs0 u = None -> dget cbs u = None)) as Hstep.
    { intros a cbs. simpl. rewrite dget_dset. case_decide as Hd.
      - intros [= <-]. subst a. pose proof (Hnd _ _ Hkey) as Hls.
        split; [by apply NoDup_ddel|]. split; [intros _; by apply dget_ddel_eq|].
        exists ls. split; [done|]. split; [intros u' Hne; by apply dget_ddel_ne|].
        intros _. by apply dget_ddel_eq.
      - intros Ha. split; [by eapply Hnd|]. split; [done|]. by exists cbs. }
    destruct (IH _ _ (fun a cbs Ha => proj1 (Hstep a cbs Ha)) H) as (K & N & F & P & Q).
    split; [rewrite K; simpl; by rewrite dkeys_dset, Hkey|]. split; [done|].
    split.
    { intros a cbs Ha. destruct (F _ _ Ha) as (cbs1 & Ha1 & Hu1).
      destruct (Hstep _ _ Ha1) as (_ & _ & cbs0 & Ha0 & Hu0 & _).
      exists cbs0. split; [done|]. intros u' Hne. by rewrite Hu1, Hu0. }
    split.
    { intros a cbs Hin Ha. apply elem_of_cons in Hin as [->|Hin]; [|by eapply P].
      destruct (F _ _ Ha) as (cbs1 & Ha1 & _).
      destruct (Hstep _ _ Ha1) as (_ & Hk & _). eapply Q; [exact Ha1 | by apply Hk | exact Ha]. }
    intros a cbs Ha Hu cbs' Ha'.
    destruct (F _ _ Ha') as (cbs1 & Ha1 & _).
    destruct (Hstep _ _ Ha1) as (_ & _ & cbs0 & Ha0 & _ & Hu0).
    eapply Q; [exact Ha1 | | exact Ha']. apply Hu0. congruence.
Qed.


(** ** The examples *)

Lemma keep_target_heap_only t s : preserves heap_only (keep_target t s).
Proof. intros st r st' H. inversion H. unfold heap_only. by destruct st'. Qed.

(** X15, witness: [context.n = 6] when [context.n] is observed. *)
Lemma assign_notifies_in_registration_order_witness :
  exists st',
    Put (VRef 1) "n" (VNum 6) demo_observed = (Ok tt, st')
    /\ log st' = [Notified 1 (VNum 6) (VNum 5)]
    /\ peek (heap st') (VRef 1) "n" = VNum 6.
Proof.
  edestruct (assign_notifies_in_registration_order 1 "n" (VNum 6) demo_observed)
    as (st' & mg' & HP & Hlog & Hv & _).
  - by vm_compute.
  - by vm_compute.
  - by vm_compute.
  - by vm_compute.
  - by vm_compute.
  - by vm_compute.
  - by vm_compute.
  - by vm_compute.
  - vm_compute. repeat constructor. by eexists.
  - exists st'. split; [exact HP|]. split; [rewrite Hlog; by vm_compute | exact Hv].
Defined.

(** X16, witness: the manager is disposed while [context.o] is observed;
    then [context.o = 6]. *)
Lemma assign_after_dispose_witness :
  exists s1 st',
    dispose 0 demo_object = (Ok tt, s1)
    /\ Put (VRef 1) "o" (VNum 6) s1 = (Throw TypeError, st')
    /\ peek (heap st') (VRef 1) "o" = VNum 6
    /\ log st' = log demo_object.
Proof.
  edestruct (assign_after_dispose 1 "o" (VNum 6) demo_object)
    as (s1 & st' & Hd & HP & Hv & Hlog).
  - by vm_compute.
  - by vm_compute.
  - by vm_compute.
  - by vm_compute.
  - by vm_compute.
  - by vm_compute.
  - by vm_compute.
  - by vm_compute.
  - exists s1, st'. split; [exact Hd|]. split; [exact HP|]. split; [exact Hv | exact Hlog].
Defined.


(** X18, witness: [context.n], read once; then read again with the heap
    emptied. *)
Lemma getContext_answers_from_cache_witness :
  getContext 0 ["context"; "n"] (set_heap [] (getContext 0 ["context"; "n"] demo).2)
  = (Ok (VNum 5), set_heap [] (getContext 0 ["context"; "n"] demo).2).
Proof.
  apply (getContext_answers_from_cache 0 ["context"; "n"] demo (VNum 5)).
  - by vm_compute.
  - reflexivity.
Defined.




(** X22, witness: [context.items] is observed. *)
Lemma observeArray_files_callback_and_wraps_methods_witness :
  exists st' cbs',
    observeArray 0 "u1" (CApp 8 false) "context.items" (VRef 2) VNull demo = (Ok tt, st')
    /\ dget (observedArrayListeners st') "context.items" = Some cbs'
    /\ dget cbs' "u1" = Some (CApp 8 false)
    /\ (forall method args, method ∈ arrayMethods ->
          callMethod (VRef 2) method args st'
          = observedArrayFn 0 "context.items" method 2 args st').
Proof.
  edestruct observeArray_files_callback_and_wraps_methods
    with (m := 0) (uid := "u1") (c := CApp 8 false) (a := "context.items") (l := 2)
         (st := demo)
    as (st' & cbs' & Ho & _ & Ha & Hu & _ & _ & Hw).
  - by vm_compute.
  - exists st', cbs'. split; [exact Ho|]. split; [exact Ha|]. split; [exact Hu | exact Hw].
Defined.



(** X25, witness: [context.o.p.q.r] is observed; then the context of the
    control is set to [null]. *)
Lemma assigning_null_above_deep_binding_throws_witness :
  exists st',
    Put (VRef 0) "context" VNull demo_deep = (Throw TypeError, st')
    /\ peek (heap st') (VRef 0) "context" = VNull
    /\ log st' = log demo_deep.
Proof.
  edestruct assigning_null_above_deep_binding_throws
    with (l := 0) (k := "context") (v := VNull) (st := demo_deep)
         (p1 := "o") (p2 := "p") (path := ["q"]) (key := "r") (rest := @nil string)
    as (st' & HP & Hv & Hlog).
  - by vm_compute.
  - by vm_compute.
  - by vm_compute.
  - by vm_compute.
  - by vm_compute.
  - by vm_compute.
  - by vm_compute.
  - reflexivity.
  - by vm_compute.
  - by vm_compute.
  - repeat constructor.
  - vm_compute. constructor.
  - exists st'. split; [exact HP|]. split; [exact Hv|]. rewrite Hlog.
    vm_compute. reflexivity.
Defined.


